(** * A sparse, fixed-depth Merkle tree: [src/merkle_tree.ts]

    The class [MerkleTree] is embedded as a record of its fields and one
    function per method.  JavaScript values are modelled as follows.

    - [number]: the indices, levels and depths handled here are
      integers, and they are [Z]; JavaScript arithmetic on them is exact
      up to 2^53 - 1, and the results that depend on the arithmetic of
      an index assume [isSafeInteger] of it.  [%] is [Z.rem] (sign of
      the dividend), [Math.round (n / 2)] is [(n + 1) / 2] rounded down.
    - [Buffer]: a list of bytes.
    - [Map<number, V>]: an association list in insertion order
      ([JsMap]): [set] on a present key keeps its place, on a new key
      appends.
    - arrays: lists whose cells may be holes or [undefined] ([JsArray]);
      reading out of range gives [undefined], writing past the end
      extends.
    - plain objects with numeric keys: [JsObject], enumerated as
      [Object.keys] does (array indices ascending, then the others in
      insertion order).
    - exceptions: the [result] type; [undefined] where a value is
      expected by a callee is a [TypeError].
    - the hasher ([./sha256_hasher]) is an interface, [Hasher]. *)

From Stdlib Require Import ZArith List Bool Lia.
From Stdlib Require Import Strings.Byte Strings.String.
Import ListNotations.
Local Open Scope Z_scope.

Set Implicit Arguments.

(** ** Exceptions *)

Inductive error : Type :=
| BadDepth   (* [Error('Bad depth')] *)
| TypeError. (* a property read or a call on [undefined] *)

Inductive result (A : Type) : Type :=
| Ok (a : A)
| Err (e : error).

Arguments Ok {A} a.
Arguments Err {A} e.

Definition bind {A B : Type} (r : result A) (k : A -> result B) : result B :=
  match r with
  | Ok a => k a
  | Err e => Err e
  end.

Notation "x <- r ;; k" := (bind r (fun x => k))
  (at level 61, r at next level, right associativity).

(** [x!] followed by a use that needs a value. *)
Definition defined {A : Type} (x : option A) : result A :=
  match x with
  | Some a => Ok a
  | None => Err TypeError
  end.

(** [for (let i = lo; i < hi; i++)], one list element per iteration. *)
Definition range (lo hi : Z) : list Z :=
  map (fun k => lo + Z.of_nat k) (seq 0 (Z.to_nat (hi - lo))).

Fixpoint forM {S I : Type} (body : S -> I -> result S) (idxs : list I) (s : S)
  : result S :=
  match idxs with
  | [] => Ok s
  | i :: rest => s' <- body s i ;; forM body rest s'
  end.

(** ** JavaScript containers *)

Module JsMap.
Definition t (V : Type) : Type := list (Z * V).

Definition empty {V : Type} : t V := [].

Fixpoint get {V : Type} (k : Z) (m : t V) : option V :=
  match m with
  | [] => None
  | (k', v) :: rest => if k =? k' then Some v else get k rest
  end.

Fixpoint has {V : Type} (k : Z) (m : t V) : bool :=
  match m with
  | [] => false
  | (k', _) :: rest => if k =? k' then true else has k rest
  end.

Fixpoint set {V : Type} (k : Z) (v : V) (m : t V) : t V :=
  match m with
  | [] => [(k, v)]
  | (k', v') :: rest =>
      if k =? k' then (k, v) :: rest else (k', v') :: set k v rest
  end.

Definition size {V : Type} (m : t V) : Z := Z.of_nat (List.length m).

Definition entries {V : Type} (m : t V) : list (Z * V) := m.
End JsMap.

Module JsArray.
Definition t (A : Type) : Type := list (option A).

Definition length {A : Type} (a : t A) : Z := Z.of_nat (List.length a).

Definition get {A : Type} (i : Z) (a : t A) : option A :=
  if i <? 0 then None
  else match nth_error a (Z.to_nat i) with
       | Some cell => cell
       | None => None
       end.

Fixpoint set {A : Type} (i : nat) (x : option A) (a : t A) : t A :=
  match i, a with
  | O, [] => [x]
  | O, _ :: rest => x :: rest
  | S j, [] => None :: set j x []
  | S j, cell :: rest => cell :: set j x rest
  end.

Definition push {A : Type} (x : A) (a : t A) : t A := a ++ [Some x].
End JsArray.

Module JsObject.
Definition t (V : Type) : Type := list (Z * V).

Definition empty {V : Type} : t V := [].

(** Keys that are array indices are enumerated first, in ascending
    order. *)
Definition is_array_index (k : Z) : bool := (0 <=? k) && (k <? 2 ^ 32 - 1).

Fixpoint has {V : Type} (k : Z) (o : t V) : bool :=
  match o with
  | [] => false
  | (k', _) :: rest => if k =? k' then true else has k rest
  end.

Fixpoint get {V : Type} (k : Z) (o : t V) : option V :=
  match o with
  | [] => None
  | (k', v) :: rest => if k =? k' then Some v else get k rest
  end.

Fixpoint replace {V : Type} (k : Z) (v : V) (o : t V) : t V :=
  match o with
  | [] => []
  | (k', v') :: rest =>
      if k =? k' then (k, v) :: rest else (k', v') :: replace k v rest
  end.

Fixpoint insert {V : Type} (k : Z) (v : V) (o : t V) : t V :=
  match o with
  | [] => [(k, v)]
  | (k', v') :: rest =>
      if is_array_index k && (negb (is_array_index k') || (k <? k'))
      then (k, v) :: (k', v') :: rest
      else (k', v') :: insert k v rest
  end.

Definition set {V : Type} (k : Z) (v : V) (o : t V) : t V :=
  if has k o then replace k v o else insert k v o.

Definition keys {V : Type} (o : t V) : list Z := map fst o.
End JsObject.

(** ** The hasher *)

Definition Buffer : Type := list byte.

(** [Buffer.alloc(n)]: [n] zero bytes. *)
Definition Buffer_alloc (n : nat) : Buffer := repeat x00 n.

(** The two methods of [Sha256Hasher] the tree calls. *)
Class Hasher : Type := {
  hash : Buffer -> Buffer;
  compress : Buffer -> Buffer -> Buffer
}.

(** ** The tree *)

Definition MAX_DEPTH : Z := 32.
Definition LEAF_BYTES : nat := 64.

(** What [persistTree] writes: level -> (index -> digest).  The JSON
    text and the [toJSON]/[Buffer.from] encoding of a digest are taken
    to round-trip; level keys are the naturals [parseInt] reads.  An
    index key is kept as the integer it stands for: the property name of
    a number is its decimal notation, which [parseInt] reads back, as
    long as the number is below 1e21 (from there on the name is in
    exponent notation and [parseInt] reads its first digits only).  The
    results on reopened trees that depend on the restored keys carry
    [isSafeInteger] on the written indices. *)
Definition Blob : Type := list (nat * JsObject.t Buffer).

(** The LevelUp store: [get] and [put] of one blob per name. *)
Definition Db : Type := list (string * Blob).

Fixpoint db_get (name : string) (db : Db) : option Blob :=
  match db with
  | [] => None
  | (n, b) :: rest => if String.eqb name n then Some b else db_get name rest
  end.

Fixpoint db_put (name : string) (b : Blob) (db : Db) : Db :=
  match db with
  | [] => [(name, b)]
  | (n, b') :: rest =>
      if String.eqb name n then (name, b) :: rest else (n, b') :: db_put name b rest
  end.

(** [HashPath.data]: one array of two digests per level. *)
Definition HashPath : Type := list (JsArray.t Buffer).

Record MerkleTree : Type := mkMerkleTree {
  db : Db;
  name : string;
  depth : Z;
  root : option Buffer;
  dataBlocks : JsMap.t Buffer;
  hashes : JsArray.t (JsMap.t Buffer);
  zeroHashesByLevel : JsArray.t Buffer
}.

(** Indices are JavaScript numbers.  On the integers of magnitude at
    most [Number.MAX_SAFE_INTEGER] = 2^53 - 1 the operations the tree
    applies to an index ([% 2], [/ 2], [+ 1], [- 1], [Math.round], [<])
    are exact, and they are modelled on [Z].  From 2^53 on a number plus
    one is rounded ([2^53 + 1 === 2^53]): the results below that depend
    on the arithmetic of an index carry [isSafeInteger] as a
    hypothesis. *)
Definition MAX_SAFE_INTEGER : Z := 9007199254740991.

Definition isSafeInteger (index : Z) : Prop :=
  - MAX_SAFE_INTEGER <= index <= MAX_SAFE_INTEGER.

(** [index % 2 === 0 ? index / 2 : Math.round(index / 2) - 1]; the
    remainder has the sign of [index] ([Z.rem]) and [Math.round] rounds
    a half up. *)
Definition indexOfParentNode (index : Z) : Z :=
  if Z.rem index 2 =? 0 then index / 2 else (index + 1) / 2 - 1.

(** [index % 2 === 0 ? index + 1 : index - 1], as [generateTreeNodes]
    and [getHashPath] compute it; exact for a safe integer. *)
Definition siblingOf (index : Z) : Z :=
  if Z.rem index 2 =? 0 then index + 1 else index - 1.

Section Tree.
Context {hasher : Hasher}.

Definition generateZeroHashesByLevel (t : MerkleTree) : result MerkleTree :=
  let z0 := JsArray.set 0 (Some (hash (Buffer_alloc LEAF_BYTES)))
              (zeroHashesByLevel t) in
  zs <- forM (fun zs i =>
                prev <- defined (JsArray.get (i - 1) zs) ;;
                Ok (JsArray.set (Z.to_nat i) (Some (compress prev prev)) zs))
             (range 1 (depth t + 1)) z0 ;;
  Ok (mkMerkleTree (db t) (name t) (depth t)
        (JsArray.get (JsArray.length zs - 1) zs)
        (dataBlocks t) (hashes t) zs).

(** The inner loop of [generateTreeNodes] over the entries of the level
    below: [cur] is [this.hashes[i]], [zero] is
    [this.zeroHashesByLevel[i-1]]. *)
Fixpoint pairLoop (zero : option Buffer) (hashesLevelBefore : JsMap.t Buffer)
    (entries : list (Z * Buffer))
    (cur : JsMap.t Buffer) (processed : JsMap.t bool)
  : result (JsMap.t Buffer) :=
  match entries with
  | [] => Ok cur
  | (index, hash_) :: rest =>
      let indexOfSibling := siblingOf index in
      cur' <-
        (if negb (JsMap.has indexOfSibling processed && JsMap.has index processed)
         then
           let hashOfSiblingNode :=
             if JsMap.has indexOfSibling hashesLevelBefore
             then JsMap.get indexOfSibling hashesLevelBefore
             else zero in
           sib <- defined hashOfSiblingNode ;;
           Ok (JsMap.set (indexOfParentNode index) (compress hash_ sib) cur)
         else Ok cur) ;;
      pairLoop zero hashesLevelBefore rest cur'
        (JsMap.set indexOfSibling true (JsMap.set index true processed))
  end.

(** One iteration of the outer loop of [generateTreeNodes], for level
    [i]: a new map is pushed and filled from the level below. *)
Definition levelStep (zs : JsArray.t Buffer)
    (hs : JsArray.t (JsMap.t Buffer)) (i : Z)
  : result (JsArray.t (JsMap.t Buffer)) :=
  let hs := JsArray.push JsMap.empty hs in
  hashesLevelBefore <- defined (JsArray.get (i - 1) hs) ;;
  cur <- defined (JsArray.get i hs) ;;
  cur' <- pairLoop (JsArray.get (i - 1) zs) hashesLevelBefore
            (JsMap.entries hashesLevelBefore) cur JsMap.empty ;;
  Ok (JsArray.set (Z.to_nat i) (Some cur') hs).

Definition generateTreeNodes (t : MerkleTree) : result MerkleTree :=
  let level0 :=
    fold_left (fun m '(index, buffer) => JsMap.set index (hash buffer) m)
      (JsMap.entries (dataBlocks t)) JsMap.empty in
  hs <- forM (levelStep (zeroHashesByLevel t)) (range 1 (depth t + 1))
          [Some level0] ;;
  top <- defined (JsArray.get (JsArray.length hs - 1) hs) ;;
  let zs := zeroHashesByLevel t in
  Ok (mkMerkleTree (db t) (name t) (depth t)
        (if JsMap.size top =? 0
         then JsArray.get (JsArray.length zs - 1) zs
         else JsMap.get 0 top)
        (dataBlocks t) hs zs).

Definition persistTree (t : MerkleTree) : result MerkleTree :=
  data <- forM (fun (data : Blob) i =>
                  levelHashes <- defined (JsArray.get i (hashes t)) ;;
                  Ok (data ++
                      [(Z.to_nat i,
                        fold_left (fun o '(index, value) => JsObject.set index value o)
                          (JsMap.entries levelHashes) JsObject.empty)]))
               (range 0 (JsArray.length (hashes t))) [] ;;
  Ok (mkMerkleTree (db_put (name t) data (db t)) (name t) (depth t) (root t)
        (dataBlocks t) (hashes t) (zeroHashesByLevel t)).

(** One top-level key of the persisted document: [this.depth += 1], a
    new map at [this.hashes[key]], filled from the keys of the level. *)
Definition restoreKey (st : JsArray.t (JsMap.t Buffer) * Z)
    (entry : nat * JsObject.t Buffer) : JsArray.t (JsMap.t Buffer) * Z :=
  let '(hs, d) := st in
  let '(key, persistedDataForDepth) := entry in
  (JsArray.set key
     (Some (fold_left (fun m '(index, digest) => JsMap.set index digest m)
              persistedDataForDepth JsMap.empty))
     hs,
   d + 1).

Definition restorePersistedTree (t : MerkleTree) (data : Blob)
  : result MerkleTree :=
  let '(hs, d) := fold_left restoreKey data ([], 0) in
  top <- defined (JsArray.get (JsArray.length hs - 1) hs) ;;
  Ok (mkMerkleTree (db t) (name t) (d - 1) (JsMap.get 0 top)
        (dataBlocks t) hs (zeroHashesByLevel t)).

Definition constructor (db0 : Db) (name0 : string) (depth0 : Z)
    (data : option Blob) : result MerkleTree :=
  if negb ((1 <=? depth0) && (depth0 <=? MAX_DEPTH)) then Err BadDepth
  else
    t <- generateZeroHashesByLevel
           (mkMerkleTree db0 name0 depth0 (Some (Buffer_alloc 32))
              JsMap.empty [] []) ;;
    match data with
    | Some d => restorePersistedTree t d
    | None => generateTreeNodes t
    end.

(** [static async new]: a failed [db.get] is caught and leaves [data]
    undefined. *)
Definition MerkleTree_new (db0 : Db) (name0 : string) (depth0 : Z)
  : result MerkleTree :=
  tree <- constructor db0 name0 depth0 (db_get name0 db0) ;;
  persistTree tree.

Definition getRoot (t : MerkleTree) : option Buffer := root t.

Definition hashPathStep (t : MerkleTree) (st : HashPath * Z) (i : Z)
  : result (HashPath * Z) :=
  let '(hashPath, index) := st in
  let indexOfSibling := siblingOf index in
  level <- defined (JsArray.get i (hashes t)) ;;
  let path : JsArray.t Buffer := [] in
  let path :=
    JsArray.set (if index <? indexOfSibling then 0 else 1)
      (if JsMap.has index level then JsMap.get index level
       else JsArray.get i (zeroHashesByLevel t))
      path in
  let path :=
    JsArray.set (if indexOfSibling <? index then 0 else 1)
      (if JsMap.has indexOfSibling level then JsMap.get indexOfSibling level
       else JsArray.get i (zeroHashesByLevel t))
      path in
  Ok (hashPath ++ [path], indexOfParentNode index).

Definition getHashPath (t : MerkleTree) (index : Z) : result HashPath :=
  st <- forM (hashPathStep t) (range 0 (depth t)) ([], index) ;;
  Ok (fst st).

Definition updateElement (t : MerkleTree) (index : Z) (value : Buffer)
  : result (MerkleTree * option Buffer) :=
  t1 <- generateTreeNodes
          (mkMerkleTree (db t) (name t) (depth t) (root t)
             (JsMap.set index value (dataBlocks t))
             (hashes t) (zeroHashesByLevel t)) ;;
  t2 <- persistTree t1 ;;
  Ok (t2, root t2).

End Tree.

(** ** An instance of the hasher

    Modelled from the spec: the Hasher collaborator ([./sha256_hasher] is
    not among the sources).  The spec fixes the two signatures only
    ([hash] of bytes and [compress] of two digests, both giving a 32-byte
    digest); this instance takes SHA-256 (FIPS 180-4) of the bytes for
    [hash] and of the concatenation for [compress].  The tree is verified
    for every [Hasher]; the instance serves to run it on concrete
    inputs. *)

Module Sha256.

Definition w32 (x : Z) : Z := x mod 2 ^ 32.

Definition rotr (n x : Z) : Z :=
  Z.lor (Z.shiftr x n) (w32 (Z.shiftl x (32 - n))).

Definition xor3 (x y z : Z) : Z := Z.lxor (Z.lxor x y) z.

Definition Ch (x y z : Z) : Z :=
  Z.lxor (Z.land x y) (Z.land (Z.lxor x (2 ^ 32 - 1)) z).

Definition Maj (x y z : Z) : Z :=
  xor3 (Z.land x y) (Z.land x z) (Z.land y z).

Definition Sum0 (x : Z) : Z := xor3 (rotr 2 x) (rotr 13 x) (rotr 22 x).
Definition Sum1 (x : Z) : Z := xor3 (rotr 6 x) (rotr 11 x) (rotr 25 x).
Definition sig0 (x : Z) : Z := xor3 (rotr 7 x) (rotr 18 x) (Z.shiftr x 3).
Definition sig1 (x : Z) : Z := xor3 (rotr 17 x) (rotr 19 x) (Z.shiftr x 10).

(** The round constants and the initial state are the leading 32
    fraction bits of the cube and square roots of the first primes. *)
Definition is_prime (n : Z) : bool :=
  forallb (fun d => negb (n mod d =? 0))
    (map Z.of_nat (seq 2 (Z.to_nat (Z.sqrt n) - 1))).

Definition primes64 : list Z :=
  filter is_prime (map Z.of_nat (seq 2 310)).

Fixpoint cbrt_bits (bits : nat) (n r : Z) : Z :=
  match bits with
  | O => r
  | S b =>
      let c := r + 2 ^ Z.of_nat b in
      cbrt_bits b n (if c * c * c <=? n then c else r)
  end.

Definition K : list Z :=
  Eval vm_compute in map (fun p => w32 (cbrt_bits 40 (p * 2 ^ 96) 0)) primes64.

Definition H0 : list Z :=
  Eval vm_compute in map (fun p => w32 (Z.sqrt (p * 2 ^ 64))) (firstn 8 primes64).

Definition byteZ (b : byte) : Z := Z.of_N (Byte.to_N b).

Definition Zbyte (x : Z) : byte :=
  match Byte.of_N (Z.to_N (x mod 256)) with
  | Some b => b
  | None => x00
  end.

Definition pad (msg : Buffer) : list Z :=
  let len := Z.of_nat (List.length msg) in
  map byteZ msg ++ [128] ++ repeat 0 (Z.to_nat ((55 - len) mod 64))
    ++ map (fun k => Z.shiftr (8 * len) (8 * (7 - Z.of_nat k)) mod 256) (seq 0 8).

Fixpoint words (bs : list Z) : list Z :=
  match bs with
  | a :: b :: c :: d :: rest =>
      (a * 2 ^ 24 + b * 2 ^ 16 + c * 2 ^ 8 + d) :: words rest
  | _ => []
  end.

Definition schedule (block : list Z) : list Z :=
  fold_left
    (fun w t =>
       w ++ [w32 (sig1 (nth (t - 2) w 0) + nth (t - 7) w 0
                  + sig0 (nth (t - 15) w 0) + nth (t - 16) w 0)])
    (seq 16 48) block.

Definition round (s : list Z) (kw : Z * Z) : list Z :=
  match s with
  | [a; b; c; d; e; f; g; h] =>
      let t1 := h + Sum1 e + Ch e f g + fst kw + snd kw in
      let t2 := Sum0 a + Maj a b c in
      [w32 (t1 + t2); a; b; c; w32 (d + t1); e; f; g]
  | _ => s
  end.

Definition block_step (h : list Z) (block : list Z) : list Z :=
  map (fun p => w32 (fst p + snd p))
    (combine h (fold_left round (combine K (schedule block)) h)).

Fixpoint blocks (n : nat) (ws : list Z) (h : list Z) : list Z :=
  match n with
  | O => h
  | S m => blocks m (skipn 16 ws) (block_step h (firstn 16 ws))
  end.

Definition digest (msg : Buffer) : Buffer :=
  let ws := words (pad msg) in
  flat_map
    (fun w => map (fun k => Zbyte (Z.shiftr w (8 * (3 - Z.of_nat k)))) (seq 0 4))
    (blocks (List.length ws / 16) ws H0).

End Sha256.

#[export] Instance Sha256Hasher : Hasher := {
  hash data := Sha256.digest data;
  compress lhs rhs := Sha256.digest (lhs ++ rhs)
}.

Unset Implicit Arguments.

(** * Properties *)

(** ** Arithmetic of indices *)

Lemma rem2_even (index : Z) : Z.rem index 2 = 0 <-> index mod 2 = 0.
Proof.
  rewrite Z.rem_divide, Z.mod_divide by lia. reflexivity.
Qed.

Lemma indexOfParentNode_half (index : Z) : indexOfParentNode index = index / 2.
Proof.
  unfold indexOfParentNode.
  destruct (Z.rem index 2 =? 0) eqn:E; [reflexivity|].
  apply Z.eqb_neq in E. rewrite rem2_even in E.
  Z.to_euclidean_division_equations. lia.
Qed.

Lemma siblingOf_even (index : Z) :
  Z.rem index 2 = 0 ->
  siblingOf index = index + 1 /\ index = 2 * (index / 2).
Proof.
  intros E. split.
  - unfold siblingOf. rewrite E. reflexivity.
  - rewrite rem2_even in E. Z.to_euclidean_division_equations. lia.
Qed.

Lemma siblingOf_odd (index : Z) :
  Z.rem index 2 <> 0 ->
  siblingOf index = index - 1 /\ index = 2 * (index / 2) + 1.
Proof.
  intros E. unfold siblingOf.
  destruct (Z.rem index 2 =? 0) eqn:E'; [apply Z.eqb_eq in E'; contradiction|].
  split; [reflexivity|].
  rewrite rem2_even in E. Z.to_euclidean_division_equations. lia.
Qed.

Lemma div_pow2_succ (index i : Z) :
  0 <= i -> index / 2 ^ i / 2 = index / 2 ^ (i + 1).
Proof.
  intros Hi. rewrite Z.pow_add_r, Z.pow_1_r by lia.
  rewrite Z.div_div by lia. reflexivity.
Qed.

Lemma pair_above (d i index : Z) :
  0 <= i < d -> 2 ^ d <= index -> 2 ^ (d - i) <= 2 * (index / 2 ^ i / 2).
Proof.
  intros Hi Hx. rewrite div_pow2_succ by lia.
  replace (d - i) with (d - (i + 1) + 1) by lia.
  rewrite Z.pow_add_r, Z.pow_1_r by lia.
  assert (2 ^ (d - (i + 1)) <= index / 2 ^ (i + 1)); [|lia].
  apply Z.div_le_lower_bound; [apply Z.pow_pos_nonneg; lia|].
  rewrite <- Z.pow_add_r by lia.
  replace (i + 1 + (d - (i + 1))) with d by lia. exact Hx.
Qed.

(** ** Loops *)

Lemma range_nil (lo hi : Z) : hi <= lo -> range lo hi = [].
Proof.
  intros H. unfold range. replace (Z.to_nat (hi - lo)) with O by lia. reflexivity.
Qed.

Lemma range_cons (lo hi : Z) : lo < hi -> range lo hi = lo :: range (lo + 1) hi.
Proof.
  intros H. unfold range.
  replace (Z.to_nat (hi - lo)) with (S (Z.to_nat (hi - (lo + 1)))) by lia.
  simpl. f_equal; [lia|].
  rewrite <- seq_shift, map_map. apply map_ext. intros k. lia.
Qed.

Lemma range_snoc (lo hi : Z) : lo <= hi -> range lo (hi + 1) = range lo hi ++ [hi].
Proof.
  intros H. unfold range.
  replace (Z.to_nat (hi + 1 - lo)) with (Z.to_nat (hi - lo) + 1)%nat by lia.
  rewrite seq_app, map_app. simpl. do 2 f_equal. lia.
Qed.

Lemma range_length (lo hi : Z) : List.length (range lo hi) = Z.to_nat (hi - lo).
Proof. unfold range. rewrite length_map, length_seq. reflexivity. Qed.

Lemma range_nth (lo hi i : Z) :
  lo <= i < hi -> nth_error (range lo hi) (Z.to_nat (i - lo)) = Some i.
Proof.
  intros H. unfold range.
  rewrite nth_error_map, nth_error_seq.
  destruct (Nat.ltb_spec (Z.to_nat (i - lo)) (Z.to_nat (hi - lo))); [|lia].
  simpl. f_equal. lia.
Qed.

(** The rule for a counted loop: an invariant [P] established at [lo] and
    carried by every iteration holds at [hi], and the loop returns. *)
Lemma forM_range (S : Type) (body : S -> Z -> result S) (P : Z -> S -> Prop)
    (lo hi : Z) (s : S) :
  lo <= hi ->
  P lo s ->
  (forall i s0, lo <= i < hi -> P i s0 ->
                exists s1, body s0 i = Ok s1 /\ P (i + 1) s1) ->
  exists s', forM body (range lo hi) s = Ok s' /\ P hi s'.
Proof.
  intros Hle. remember (Z.to_nat (hi - lo)) as n eqn:Hn.
  revert lo s Hle Hn. induction n as [|n IH]; intros lo s Hle Hn H0 Hstep.
  - assert (hi = lo) by lia. subst hi. rewrite range_nil by lia.
    exists s. split; [reflexivity|assumption].
  - rewrite range_cons by lia. simpl.
    destruct (Hstep lo s ltac:(lia) H0) as [s1 [E1 P1]].
    rewrite E1. simpl.
    apply IH; [lia|lia|assumption|].
    intros i s0 Hi. apply Hstep. lia.
Qed.

Lemma forM_app (S I : Type) (body : S -> I -> result S) (l1 l2 : list I) (s : S) :
  forM body (l1 ++ l2) s = (s1 <- forM body l1 s ;; forM body l2 s1).
Proof.
  revert s. induction l1 as [|i l1 IH]; intros s; simpl; [reflexivity|].
  destruct (body s i); simpl; [apply IH|reflexivity].
Qed.

(** ** Maps, arrays and objects *)

Lemma JsMap_has_get (V : Type) (k : Z) (m : JsMap.t V) :
  JsMap.has k m = match JsMap.get k m with Some _ => true | None => false end.
Proof.
  induction m as [|[k' v] m IH]; simpl; [reflexivity|].
  destruct (k =? k'); [reflexivity|assumption].
Qed.

Lemma JsMap_get_set (V : Type) (k k' : Z) (v : V) (m : JsMap.t V) :
  JsMap.get k' (JsMap.set k v m) = if k' =? k then Some v else JsMap.get k' m.
Proof.
  induction m as [|[k0 v0] m IH]; simpl.
  - reflexivity.
  - destruct (k =? k0) eqn:E; simpl.
    + apply Z.eqb_eq in E. subst k0. destruct (k' =? k); reflexivity.
    + rewrite IH. destruct (k' =? k0) eqn:E0; [|reflexivity].
      apply Z.eqb_eq in E0. subst k0.
      destruct (k' =? k) eqn:E1; [|reflexivity].
      apply Z.eqb_eq in E1. subst k'. rewrite Z.eqb_refl in E. discriminate.
Qed.

Lemma JsArray_get_some (A : Type) (i : Z) (l : list A) (x : A) :
  0 <= i -> nth_error l (Z.to_nat i) = Some x ->
  JsArray.get i (map Some l) = Some x.
Proof.
  intros Hi H. unfold JsArray.get.
  destruct (i <? 0) eqn:E; [lia|].
  rewrite nth_error_map, H. reflexivity.
Qed.

Lemma JsArray_set_end (A : Type) (x : option A) (a : JsArray.t A) :
  JsArray.set (List.length a) x a = a ++ [x].
Proof.
  induction a as [|c a IH]; simpl; [reflexivity|]. rewrite IH. reflexivity.
Qed.

Lemma JsArray_set_last (A : Type) (x y : option A) (a : JsArray.t A) :
  JsArray.set (List.length a) x (a ++ [y]) = a ++ [x].
Proof.
  induction a as [|c a IH]; simpl; [reflexivity|]. rewrite IH. reflexivity.
Qed.

Lemma JsArray_get_last (A : Type) (x : option A) (a : JsArray.t A) :
  JsArray.get (JsArray.length (a ++ [x]) - 1) (a ++ [x]) = x.
Proof.
  unfold JsArray.get, JsArray.length. rewrite length_app.
  change (List.length [x]) with 1%nat.
  destruct (Z.ltb_spec (Z.of_nat (List.length a + 1) - 1) 0) as [E|E]; [lia|].
  replace (Z.to_nat (Z.of_nat (List.length a + 1) - 1)) with (List.length a) by lia.
  rewrite nth_error_app2, Nat.sub_diag by lia. reflexivity.
Qed.

(** *** Keys *)

(** Every key of the map is a valid index below [b]. *)
Definition keysBelow {V : Type} (b : Z) (m : list (Z * V)) : Prop :=
  Forall (fun e => 0 <= fst e < b) m.

Lemma JsMap_set_keysBelow (V : Type) (b k : Z) (v : V) (m : JsMap.t V) :
  keysBelow b m -> 0 <= k < b -> keysBelow b (JsMap.set k v m).
Proof.
  intros Hm Hk. induction m as [|[k' v'] m IH]; cbn [JsMap.set].
  - constructor; [exact Hk|constructor].
  - inversion Hm as [|e l He Hl]; subst.
    destruct (k =? k'); constructor; try assumption. apply IH. exact Hl.
Qed.

Lemma JsMap_get_outside (V : Type) (b k : Z) (m : JsMap.t V) :
  keysBelow b m -> b <= k -> JsMap.get k m = None.
Proof.
  intros Hm Hk. induction Hm as [|[k' v'] m He Hm IH]; cbn [JsMap.get];
    [reflexivity|].
  cbn [fst] in He. destruct (Z.eqb_spec k k'); [lia|exact IH].
Qed.

(** No key occurs twice. *)
Definition uniqueKeys {V : Type} (m : list (Z * V)) : Prop := NoDup (map fst m).

Lemma JsMap_set_keys (V : Type) (k k' : Z) (v : V) (m : JsMap.t V) :
  In k' (map fst (JsMap.set k v m)) <-> k' = k \/ In k' (map fst m).
Proof.
  induction m as [|[k0 v0] m IH]; cbn [JsMap.set map fst In].
  - intuition.
  - destruct (Z.eqb_spec k k0) as [->|Hne]; cbn [map fst In]; [intuition|].
    rewrite IH. intuition.
Qed.

Lemma JsMap_set_unique (V : Type) (k : Z) (v : V) (m : JsMap.t V) :
  uniqueKeys m -> uniqueKeys (JsMap.set k v m).
Proof.
  unfold uniqueKeys. induction m as [|[k0 v0] m IH]; cbn [JsMap.set map fst]; intros H.
  - constructor; [intros []|constructor].
  - inversion H as [|x l Hx Hl]; subst.
    destruct (Z.eqb_spec k k0) as [->|Hne]; cbn [map fst].
    + constructor; assumption.
    + constructor; [|apply IH; exact Hl].
      rewrite JsMap_set_keys. intros [E|E]; [congruence|contradiction].
Qed.

Lemma JsMap_get_notin (V : Type) (k : Z) (m : JsMap.t V) :
  ~ In k (map fst m) -> JsMap.get k m = None.
Proof.
  induction m as [|[k0 v0] m IH]; cbn [JsMap.get map fst In]; intros H;
    [reflexivity|].
  destruct (Z.eqb_spec k k0) as [->|Hne]; [exfalso; apply H; left; reflexivity|].
  apply IH. intros Hin. apply H. right. exact Hin.
Qed.

Lemma JsMap_get_in (V : Type) (k : Z) (m : JsMap.t V) :
  In k (map fst m) -> exists v, JsMap.get k m = Some v.
Proof.
  induction m as [|[k0 v0] m IH]; cbn [JsMap.get map fst In]; intros H;
    [contradiction|].
  destruct (Z.eqb_spec k k0) as [->|Hne]; [eexists; reflexivity|].
  apply IH. destruct H as [H|H]; [congruence|exact H].
Qed.

Lemma JsMap_get_unique (V : Type) (k : Z) (v : V) (m : JsMap.t V) :
  uniqueKeys m -> In (k, v) m -> JsMap.get k m = Some v.
Proof.
  unfold uniqueKeys. induction m as [|[k0 v0] m IH]; cbn [JsMap.get map fst In];
    intros Hu Hin; [contradiction|].
  inversion Hu as [|x l Hx Hl]; subst.
  destruct Hin as [E|Hin].
  - injection E as -> ->. rewrite Z.eqb_refl. reflexivity.
  - destruct (Z.eqb_spec k k0) as [->|Hne]; [|exact (IH Hl Hin)].
    exfalso. apply Hx. apply (in_map fst) in Hin. exact Hin.
Qed.

Lemma JsObject_get_eq (V : Type) (k : Z) (o : JsObject.t V) :
  JsObject.get k o = JsMap.get k o.
Proof.
  induction o as [|[k0 v0] o IH]; cbn; [reflexivity|]. rewrite IH. reflexivity.
Qed.

Lemma JsObject_has_false (V : Type) (k : Z) (o : JsObject.t V) :
  JsObject.has k o = false -> ~ In k (map fst o).
Proof.
  induction o as [|[k0 v0] o IH]; cbn [JsObject.has map fst In]; intros H;
    [intros []|].
  destruct (Z.eqb_spec k k0) as [->|Hne]; [discriminate|].
  intros [E|E]; [congruence|]. exact (IH H E).
Qed.

Lemma JsObject_replace_keys (V : Type) (k : Z) (v : V) (o : JsObject.t V) :
  map fst (JsObject.replace k v o) = map fst o.
Proof.
  induction o as [|[k0 v0] o IH]; cbn [JsObject.replace map fst]; [reflexivity|].
  destruct (Z.eqb_spec k k0) as [->|Hne]; cbn [map fst]; [reflexivity|].
  rewrite IH. reflexivity.
Qed.

Lemma JsObject_insert_keys (V : Type) (k k' : Z) (v : V) (o : JsObject.t V) :
  In k' (map fst (JsObject.insert k v o)) <-> k' = k \/ In k' (map fst o).
Proof.
  induction o as [|[k0 v0] o IH]; cbn [JsObject.insert map fst In].
  - intuition.
  - destruct (_ && _); cbn [map fst In]; [intuition|].
    rewrite IH. intuition.
Qed.

Lemma JsObject_set_unique (V : Type) (k : Z) (v : V) (o : JsObject.t V) :
  uniqueKeys o -> uniqueKeys (JsObject.set k v o).
Proof.
  unfold uniqueKeys, JsObject.set. intros H.
  destruct (JsObject.has k o) eqn:E.
  - rewrite JsObject_replace_keys. exact H.
  - apply JsObject_has_false in E.
    induction o as [|[k0 v0] o IH]; cbn [JsObject.insert map fst].
    + constructor; [intros []|constructor].
    + inversion H as [|x l Hx Hl]; subst.
      destruct (_ && _); cbn [map fst].
      * constructor; [exact E|exact H].
      * constructor.
        -- rewrite JsObject_insert_keys. intros [F|F]; [|contradiction].
           apply E. left. exact F.
        -- apply IH; [exact Hl|]. intros F. apply E. right. exact F.
Qed.

Lemma JsObject_get_replace (V : Type) (k k' : Z) (v : V) (o : JsObject.t V) :
  JsObject.has k o = true ->
  JsObject.get k' (JsObject.replace k v o)
  = if k' =? k then Some v else JsObject.get k' o.
Proof.
  induction o as [|[k0 v0] o IH]; cbn [JsObject.has JsObject.replace JsObject.get];
    intros H; [discriminate|].
  destruct (Z.eqb_spec k k0) as [->|Hne]; cbn [JsObject.get].
  - destruct (k' =? k0); reflexivity.
  - rewrite (IH H).
    destruct (Z.eqb_spec k' k0) as [->|Hne']; [|reflexivity].
    destruct (Z.eqb_spec k0 k); [congruence|reflexivity].
Qed.

Lemma JsObject_get_insert (V : Type) (k k' : Z) (v : V) (o : JsObject.t V) :
  ~ In k (map fst o) ->
  JsObject.get k' (JsObject.insert k v o)
  = if k' =? k then Some v else JsObject.get k' o.
Proof.
  induction o as [|[k0 v0] o IH]; cbn [JsObject.insert JsObject.get map fst In];
    intros H.
  - reflexivity.
  - destruct (_ && _); cbn [JsObject.get]; [reflexivity|].
    rewrite IH by (intros F; apply H; right; exact F).
    destruct (Z.eqb_spec k' k0) as [->|Hne']; [|reflexivity].
    destruct (Z.eqb_spec k0 k) as [->|Hne]; [|reflexivity].
    exfalso. apply H. left. reflexivity.
Qed.

Lemma JsObject_get_set (V : Type) (k k' : Z) (v : V) (o : JsObject.t V) :
  JsObject.get k' (JsObject.set k v o)
  = if k' =? k then Some v else JsObject.get k' o.
Proof.
  unfold JsObject.set. destruct (JsObject.has k o) eqn:E.
  - apply JsObject_get_replace. exact E.
  - apply JsObject_get_insert, JsObject_has_false. exact E.
Qed.

Section TreeFacts.
Context {hasher : Hasher}.

(** ** The zero-hash table *)

(** The recurrence of the specification: [Z[0] = hash(zero64)],
    [Z[i] = compress(Z[i-1], Z[i-1])]. *)
Fixpoint zeroHash (i : nat) : Buffer :=
  match i with
  | O => hash (Buffer_alloc LEAF_BYTES)
  | S j => compress (zeroHash j) (zeroHash j)
  end.

(** The array holding [Z[0..n]]. *)
Definition zeroTable (n : nat) : JsArray.t Buffer :=
  map Some (map zeroHash (seq 0 (S n))).

Lemma zeroPrefix_snoc (k : nat) :
  map Some (map zeroHash (seq 0 (S k)))
  = map Some (map zeroHash (seq 0 k)) ++ [Some (zeroHash k)].
Proof. rewrite seq_S, !map_app. reflexivity. Qed.

Lemma zeroPrefix_get (k : nat) (i : Z) :
  0 <= i < Z.of_nat k ->
  JsArray.get i (map Some (map zeroHash (seq 0 k))) = Some (zeroHash (Z.to_nat i)).
Proof.
  intros H. apply JsArray_get_some; [lia|].
  rewrite nth_error_map, nth_error_seq.
  destruct (Nat.ltb_spec (Z.to_nat i) k); [reflexivity|lia].
Qed.

Lemma zeroTable_get (n : nat) (i : Z) :
  0 <= i <= Z.of_nat n ->
  JsArray.get i (zeroTable n) = Some (zeroHash (Z.to_nat i)).
Proof. intros H. apply zeroPrefix_get. lia. Qed.

Lemma zeroTable_last (n : nat) :
  JsArray.get (JsArray.length (zeroTable n) - 1) (zeroTable n) = Some (zeroHash n).
Proof. unfold zeroTable. rewrite zeroPrefix_snoc. apply JsArray_get_last. Qed.

Lemma generateZeroHashesByLevel_spec (t : MerkleTree) (n : nat) :
  depth t = Z.of_nat n ->
  zeroHashesByLevel t = [] ->
  generateZeroHashesByLevel t
  = Ok (mkMerkleTree (db t) (name t) (depth t) (Some (zeroHash n))
          (dataBlocks t) (hashes t) (zeroTable n)).
Proof.
  intros Hd Hz. unfold generateZeroHashesByLevel. rewrite Hz, Hd.
  destruct (forM_range _
              (fun zs i =>
                 prev <- defined (JsArray.get (i - 1) zs) ;;
                 Ok (JsArray.set (Z.to_nat i) (Some (compress prev prev)) zs))
              (fun i zs => zs = map Some (map zeroHash (seq 0 (Z.to_nat i))))
              1 (Z.of_nat n + 1)
              (JsArray.set 0 (Some (hash (Buffer_alloc LEAF_BYTES))) []))
    as [zs [E P]].
  - lia.
  - reflexivity.
  - intros i zs Hi ->.
    rewrite zeroPrefix_get by lia. simpl.
    eexists. split; [reflexivity|].
    replace (Z.to_nat (i + 1)) with (S (S (Z.to_nat (i - 1)))) by lia.
    replace (Z.to_nat i) with (S (Z.to_nat (i - 1))) by lia.
    rewrite (zeroPrefix_snoc (S _)). cbn [zeroHash].
    rewrite <- JsArray_set_end. f_equal.
    rewrite !length_map, length_seq. reflexivity.
  - rewrite E. simpl.
    replace (Z.to_nat (Z.of_nat n + 1)) with (S n) in P by lia.
    rewrite P. fold (zeroTable n). rewrite zeroTable_last. reflexivity.
Qed.

(** ** Rebuilding the cache *)

Lemma pairLoop_ok (z : Buffer) (before : JsMap.t Buffer)
    (entries : list (Z * Buffer)) (cur : JsMap.t Buffer) (processed : JsMap.t bool) :
  exists cur', pairLoop (Some z) before entries cur processed = Ok cur'.
Proof.
  revert cur processed.
  induction entries as [|[index h] rest IH]; intros cur processed; simpl.
  - eexists. reflexivity.
  - destruct (negb _); simpl; [|apply IH].
    rewrite JsMap_has_get.
    destruct (JsMap.get (siblingOf index) before); simpl; apply IH.
Qed.

(** Level 0 of the cache: the hashes of the data blocks. *)
Definition level0Of (blocks : JsMap.t Buffer) : JsMap.t Buffer :=
  fold_left (fun m '(index, buffer) => JsMap.set index (hash buffer) m)
    (JsMap.entries blocks) JsMap.empty.

(** [m] is the level the inner loop builds above [before], [z] being the
    zero hash of the level of [before]. *)
Definition parentsOf (z : Buffer) (before m : JsMap.t Buffer) : Prop :=
  pairLoop (Some z) before (JsMap.entries before) JsMap.empty JsMap.empty = Ok m.

(** The levels [ms] are those a rebuild computes from the data blocks. *)
Definition chained (blocks : JsMap.t Buffer) (ms : list (JsMap.t Buffer)) : Prop :=
  nth_error ms 0 = Some (level0Of blocks) /\
  forall i before m,
    nth_error ms i = Some before ->
    nth_error ms (S i) = Some m ->
    parentsOf (zeroHash i) before m.

Lemma chained_snoc (blocks : JsMap.t Buffer) (ms : list (JsMap.t Buffer))
    (before m : JsMap.t Buffer) :
  chained blocks ms ->
  nth_error ms (List.length ms - 1) = Some before ->
  parentsOf (zeroHash (List.length ms - 1)) before m ->
  chained blocks (ms ++ [m]).
Proof.
  intros [H0 Hc] Hb Hp.
  assert (Hlen : (0 < List.length ms)%nat).
  { destruct ms; [discriminate|cbn; lia]. }
  split.
  - rewrite nth_error_app1 by lia. exact H0.
  - intros i b' m' Hi HS.
    destruct (Nat.lt_ge_cases (S i) (List.length ms)) as [L|L].
    + rewrite nth_error_app1 in Hi, HS by lia. exact (Hc i b' m' Hi HS).
    + assert (Hn : nth_error (ms ++ [m]) (S i) <> None) by congruence.
      apply nth_error_Some in Hn. rewrite length_app in Hn. cbn in Hn.
      assert (i = List.length ms - 1)%nat by lia. subst i.
      rewrite nth_error_app1 in Hi by lia.
      rewrite nth_error_app2 in HS by lia.
      replace (S (List.length ms - 1) - List.length ms)%nat with O in HS by lia.
      cbn in HS. injection HS as <-. rewrite Hb in Hi. injection Hi as <-.
      exact Hp.
Qed.

Lemma levelStep_spec (zs : JsArray.t Buffer) (ms : list (JsMap.t Buffer))
    (i : Z) (z : Buffer) (before : JsMap.t Buffer) :
  1 <= i -> Z.of_nat (List.length ms) = i ->
  JsArray.get (i - 1) zs = Some z ->
  nth_error ms (Z.to_nat (i - 1)) = Some before ->
  exists m, parentsOf z before m /\
            levelStep zs (map Some ms) i = Ok (map Some (ms ++ [m])).
Proof.
  intros Hi Hlen Hz Eb. unfold levelStep, JsArray.push.
  change [Some JsMap.empty] with (map Some [@JsMap.empty Buffer]).
  rewrite <- map_app.
  rewrite (JsArray_get_some _ (i - 1) _ before) by
    (try lia; rewrite nth_error_app1 by lia; assumption).
  rewrite (JsArray_get_some _ i _ JsMap.empty).
  2: lia.
  2:{ rewrite nth_error_app2 by lia.
      replace (Z.to_nat i - List.length ms)%nat with O by lia. reflexivity. }
  cbn [bind defined]. rewrite Hz.
  destruct (pairLoop_ok z before (JsMap.entries before) JsMap.empty JsMap.empty)
    as [cur' E].
  rewrite E. cbn [bind]. exists cur'. split; [exact E|]. f_equal.
  rewrite !map_app. cbn [map].
  replace (Z.to_nat i) with (List.length (map Some ms))
    by (rewrite length_map; lia).
  apply JsArray_set_last.
Qed.

(** The root a rebuild leaves, from the top level of the cache. *)
Definition rootOf (n : nat) (top : JsMap.t Buffer) : option Buffer :=
  if JsMap.size top =? 0 then Some (zeroHash n) else JsMap.get 0 top.

Lemma generateTreeNodes_spec (t : MerkleTree) (n : nat) :
  depth t = Z.of_nat n ->
  zeroHashesByLevel t = zeroTable n ->
  exists ms top,
    generateTreeNodes t
    = Ok (mkMerkleTree (db t) (name t) (depth t) (rootOf n top)
            (dataBlocks t) (map Some ms) (zeroTable n)) /\
    List.length ms = S n /\
    chained (dataBlocks t) ms /\
    nth_error ms n = Some top.
Proof.
  intros Hd Hz. unfold generateTreeNodes. rewrite Hd, Hz.
  fold (level0Of (dataBlocks t)).
  destruct (forM_range _ (levelStep (zeroTable n))
              (fun i hs => exists ms, hs = map Some ms /\
                                      Z.of_nat (List.length ms) = i /\
                                      chained (dataBlocks t) ms)
              1 (Z.of_nat n + 1)
              [Some (level0Of (dataBlocks t))])
    as [hs [E [ms [-> [Hlen Hc]]]]].
  - lia.
  - exists [level0Of (dataBlocks t)]. split; [reflexivity|]. split; [reflexivity|].
    split; [reflexivity|]. intros i before m _ H.
    destruct i; discriminate H.
  - intros i hs Hi [ms [-> [Hlen Hc]]].
    destruct (nth_error ms (Z.to_nat (i - 1))) as [before|] eqn:Eb.
    2:{ apply nth_error_None in Eb. lia. }
    destruct (levelStep_spec (zeroTable n) ms i (zeroHash (Z.to_nat (i - 1))) before)
      as [m [Hp Em]]; [lia|assumption|apply zeroTable_get; lia|assumption|].
    rewrite Em. eexists. split; [reflexivity|].
    exists (ms ++ [m]). split; [reflexivity|].
    split; [rewrite length_app; cbn [List.length]; lia|].
    replace (Z.to_nat (i - 1)) with (List.length ms - 1)%nat in * by lia.
    apply (chained_snoc _ _ before); assumption.
  - rewrite E. cbn [bind].
    destruct (nth_error ms n) as [top|] eqn:Et.
    2:{ apply nth_error_None in Et. lia. }
    assert (Hl : JsArray.length (map Some ms) - 1 = Z.of_nat n).
    { unfold JsArray.length. rewrite length_map. lia. }
    rewrite Hl, (JsArray_get_some _ _ ms top) by (try lia; rewrite Nat2Z.id; assumption).
    cbn [bind defined]. rewrite zeroTable_last.
    exists ms, top. split; [reflexivity|].
    split; [lia|]. split; [exact Hc|exact Et].
Qed.

(** ** Well-formed trees

    What construction without persisted data establishes and every
    update keeps: the zero table covers levels [0..n], the cache is the
    one a rebuild computes from the data blocks, and the root is read
    from its top level. *)
Definition shaped (n : nat) (t : MerkleTree) : Prop :=
  depth t = Z.of_nat n /\
  zeroHashesByLevel t = zeroTable n /\
  exists ms, hashes t = map Some ms /\ List.length ms = S n.

Definition wf (n : nat) (t : MerkleTree) : Prop :=
  depth t = Z.of_nat n /\
  zeroHashesByLevel t = zeroTable n /\
  exists ms top,
    hashes t = map Some ms /\ List.length ms = S n /\
    chained (dataBlocks t) ms /\
    nth_error ms n = Some top /\ root t = rootOf n top.

Lemma wf_shaped (n : nat) (t : MerkleTree) : wf n t -> shaped n t.
Proof.
  intros [Hd [Hz [ms [top [Hh [Hlen _]]]]]].
  split; [exact Hd|]. split; [exact Hz|]. exists ms. split; assumption.
Qed.

Lemma generateTreeNodes_ok (t : MerkleTree) (n : nat) :
  depth t = Z.of_nat n ->
  zeroHashesByLevel t = zeroTable n ->
  exists t', generateTreeNodes t = Ok t' /\ wf n t' /\
             db t' = db t /\ name t' = name t /\ dataBlocks t' = dataBlocks t.
Proof.
  intros Hd Hz.
  destruct (generateTreeNodes_spec t n Hd Hz) as [ms [top [E [Hlen [Hc Ht]]]]].
  rewrite E. eexists. split; [reflexivity|].
  split; [|repeat split].
  split; [exact Hd|]. split; [reflexivity|].
  exists ms, top. cbn [hashes dataBlocks root]. repeat split; try assumption; apply Hc.
Qed.

(** With no data block every level of the cache is empty and the root is
    the last entry of the zero table. *)
Lemma generateTreeNodes_empty (t : MerkleTree) (n : nat) :
  depth t = Z.of_nat n ->
  zeroHashesByLevel t = zeroTable n ->
  dataBlocks t = JsMap.empty ->
  generateTreeNodes t
  = Ok (mkMerkleTree (db t) (name t) (depth t) (Some (zeroHash n))
          JsMap.empty (map Some (repeat JsMap.empty (S n))) (zeroTable n)).
Proof.
  intros Hd Hz Hb. unfold generateTreeNodes. rewrite Hd, Hz, Hb. simpl fold_left.
  destruct (forM_range _ (levelStep (zeroTable n))
              (fun i hs => hs = map Some (repeat (@JsMap.empty Buffer) (Z.to_nat i)))
              1 (Z.of_nat n + 1) [Some JsMap.empty])
    as [hs [E ->]].
  - lia.
  - reflexivity.
  - intros i hs Hi ->. unfold levelStep, JsArray.push.
    change [Some JsMap.empty] with (map Some [@JsMap.empty Buffer]).
    rewrite <- map_app.
    assert (Hr : repeat (@JsMap.empty Buffer) (Z.to_nat i) ++ [JsMap.empty]
                 = repeat JsMap.empty (Z.to_nat (i + 1))).
    { replace (Z.to_nat (i + 1)) with (Z.to_nat i + 1)%nat by lia.
      rewrite repeat_app. reflexivity. }
    rewrite Hr.
    rewrite (JsArray_get_some _ (i - 1) _ JsMap.empty);
      [|lia|apply nth_error_repeat; lia].
    rewrite (JsArray_get_some _ i _ JsMap.empty);
      [|lia|apply nth_error_repeat; lia].
    simpl. eexists. split; [reflexivity|].
    rewrite <- Hr at 1. rewrite map_app. simpl.
    replace (Z.to_nat i) with (List.length (map Some (repeat (@JsMap.empty Buffer) (Z.to_nat i)))) at 1
      by (rewrite length_map, repeat_length; reflexivity).
    rewrite JsArray_set_last. rewrite <- Hr, map_app. reflexivity.
  - rewrite E. cbn [bind].
    replace (Z.to_nat (Z.of_nat n + 1)) with (S n) by lia.
    assert (Hl : JsArray.length (map Some (repeat (@JsMap.empty Buffer) (S n))) - 1
                 = Z.of_nat n).
    { unfold JsArray.length. rewrite length_map, repeat_length. lia. }
    rewrite Hl, (JsArray_get_some _ _ _ JsMap.empty)
      by (try lia; apply nth_error_repeat; lia).
    cbn [bind defined]. change (JsMap.size JsMap.empty =? 0) with true. cbv iota.
    rewrite zeroTable_last. reflexivity.
Qed.

(** ** The levels of a rebuilt cache *)

Lemma level0_fold_keysBelow (b : Z) (entries : list (Z * Buffer)) (m : JsMap.t Buffer) :
  keysBelow b entries -> keysBelow b m ->
  keysBelow b (fold_left (fun m '(index, buffer) => JsMap.set index (hash buffer) m)
                 entries m).
Proof.
  revert m. induction entries as [|[index buffer] rest IH]; intros m He Hm;
    cbn [fold_left]; [exact Hm|].
  inversion He as [|e l Hk Hl]; subst.
  apply IH; [exact Hl|]. apply JsMap_set_keysBelow; assumption.
Qed.

Lemma level0Of_keysBelow (b : Z) (blocks : JsMap.t Buffer) :
  keysBelow b blocks -> keysBelow b (level0Of blocks).
Proof.
  intros H. apply level0_fold_keysBelow; [exact H|constructor].
Qed.

Lemma level0_fold_unique (entries : list (Z * Buffer)) (m : JsMap.t Buffer) :
  uniqueKeys m ->
  uniqueKeys (fold_left (fun m '(index, buffer) => JsMap.set index (hash buffer) m)
                entries m).
Proof.
  revert m. induction entries as [|[index buffer] rest IH]; intros m Hm;
    cbn [fold_left]; [exact Hm|].
  apply IH, JsMap_set_unique, Hm.
Qed.

Lemma pairLoop_keysBelow (b : Z) (zero : option Buffer) (before : JsMap.t Buffer)
    (entries : list (Z * Buffer)) (cur : JsMap.t Buffer)
    (processed : JsMap.t bool) (m : JsMap.t Buffer) :
  keysBelow (2 * b) entries -> keysBelow b cur ->
  pairLoop zero before entries cur processed = Ok m ->
  keysBelow b m.
Proof.
  revert cur processed.
  induction entries as [|[index h] rest IH]; intros cur processed He Hc H;
    cbn [pairLoop] in H.
  - injection H as <-. exact Hc.
  - inversion He as [|e l Hk Hl]; subst. cbn [fst] in Hk.
    destruct (negb _); cbn [bind] in H.
    + destruct (if JsMap.has (siblingOf index) before
                then JsMap.get (siblingOf index) before else zero);
        cbn [bind defined] in H; [|discriminate].
      apply IH in H; [exact H|exact Hl|].
      apply JsMap_set_keysBelow; [exact Hc|].
      rewrite indexOfParentNode_half. Z.to_euclidean_division_equations. lia.
    + apply IH in H; assumption.
Qed.

Lemma pairLoop_unique (zero : option Buffer) (before : JsMap.t Buffer)
    (entries : list (Z * Buffer)) (cur : JsMap.t Buffer)
    (processed : JsMap.t bool) (m : JsMap.t Buffer) :
  uniqueKeys cur ->
  pairLoop zero before entries cur processed = Ok m ->
  uniqueKeys m.
Proof.
  revert cur processed.
  induction entries as [|[index h] rest IH]; intros cur processed Hc H;
    cbn [pairLoop] in H.
  - injection H as <-. exact Hc.
  - destruct (negb _); cbn [bind] in H.
    + destruct (if JsMap.has (siblingOf index) before
                then JsMap.get (siblingOf index) before else zero);
        cbn [bind defined] in H; [|discriminate].
      apply IH in H; [exact H|]. apply JsMap_set_unique, Hc.
    + apply IH in H; assumption.
Qed.

Lemma nth_error_pred {A : Type} (l : list A) (i : nat) (x : A) :
  nth_error l (S i) = Some x -> exists y, nth_error l i = Some y.
Proof.
  intros H. destruct (nth_error l i) as [y|] eqn:E; [exists y; reflexivity|].
  apply nth_error_None in E.
  assert (Hn : nth_error l (S i) <> None) by congruence.
  apply nth_error_Some in Hn. lia.
Qed.

Lemma chained_unique (blocks : JsMap.t Buffer) (ms : list (JsMap.t Buffer))
    (i : nat) (m : JsMap.t Buffer) :
  chained blocks ms -> nth_error ms i = Some m -> uniqueKeys m.
Proof.
  intros [H0 Hc] Hm. destruct i as [|i].
  - rewrite H0 in Hm. injection Hm as <-.
    apply level0_fold_unique. constructor.
  - destruct (nth_error_pred ms i m Hm) as [before Hb].
    apply (pairLoop_unique (Some (zeroHash i)) before (JsMap.entries before)
             JsMap.empty JsMap.empty m); [constructor|].
    exact (Hc i before m Hb Hm).
Qed.

Lemma chained_keysBelow (blocks : JsMap.t Buffer) (ms : list (JsMap.t Buffer))
    (n : nat) :
  keysBelow (2 ^ Z.of_nat n) blocks -> chained blocks ms ->
  forall i m, (i <= n)%nat -> nth_error ms i = Some m ->
              keysBelow (2 ^ (Z.of_nat n - Z.of_nat i)) m.
Proof.
  intros Hb [H0 Hc] i. induction i as [|i IH]; intros m Hi Hm.
  - rewrite H0 in Hm. injection Hm as <-.
    replace (Z.of_nat n - Z.of_nat 0) with (Z.of_nat n) by lia.
    apply level0Of_keysBelow. exact Hb.
  - destruct (nth_error_pred ms i m Hm) as [before Hbe].
    specialize (IH before ltac:(lia) Hbe).
    apply (pairLoop_keysBelow _ (Some (zeroHash i)) before (JsMap.entries before)
             JsMap.empty JsMap.empty m); [|constructor|exact (Hc i before m Hbe Hm)].
    replace (2 * 2 ^ (Z.of_nat n - Z.of_nat (S i)))
      with (2 ^ (Z.of_nat n - Z.of_nat i)); [exact IH|].
    replace (Z.of_nat n - Z.of_nat i) with (Z.of_nat n - Z.of_nat (S i) + 1) by lia.
    rewrite Z.pow_add_r by lia. lia.
Qed.

(** ** Persisting *)

(** The object [persistTree] writes for one level. *)
Definition toObject (m : JsMap.t Buffer) : JsObject.t Buffer :=
  fold_left (fun o '(index, value) => JsObject.set index value o)
    (JsMap.entries m) JsObject.empty.

(** The map [restorePersistedTree] reads back from one level. *)
Definition fromObject (o : JsObject.t Buffer) : JsMap.t Buffer :=
  fold_left (fun m '(index, digest) => JsMap.set index digest m) o JsMap.empty.

(** The document written for a cache whose levels are [ms]. *)
Definition blobOf (ms : list (JsMap.t Buffer)) : Blob :=
  map (fun k => (k, toObject (nth k ms JsMap.empty))) (seq 0 (List.length ms)).

Lemma persistTree_spec (t : MerkleTree) (ms : list (JsMap.t Buffer)) :
  hashes t = map Some ms ->
  persistTree t
  = Ok (mkMerkleTree (db_put (name t) (blobOf ms) (db t)) (name t) (depth t)
          (root t) (dataBlocks t) (hashes t) (zeroHashesByLevel t)).
Proof.
  intros Hh. unfold persistTree.
  destruct (forM_range Blob
              (fun (data : Blob) i =>
                 levelHashes <- defined (JsArray.get i (hashes t)) ;;
                 Ok (data ++
                     [(Z.to_nat i,
                       fold_left (fun o '(index, value) => JsObject.set index value o)
                         (JsMap.entries levelHashes) JsObject.empty)]))
              (fun i data =>
                 data = map (fun k => (k, toObject (nth k ms JsMap.empty)))
                          (seq 0 (Z.to_nat i)))
              0 (JsArray.length (hashes t)) [])
    as [data [E P]].
  - unfold JsArray.length. lia.
  - reflexivity.
  - intros i data Hi ->. rewrite Hh in *.
    unfold JsArray.length in Hi. rewrite length_map in Hi.
    rewrite (JsArray_get_some _ i ms (nth (Z.to_nat i) ms JsMap.empty))
      by (try lia; apply nth_error_nth'; lia).
    cbn [bind defined]. eexists. split; [reflexivity|].
    replace (Z.to_nat (i + 1)) with (S (Z.to_nat i)) by lia.
    rewrite seq_S, map_app. reflexivity.
  - rewrite E. cbn [bind]. do 2 f_equal.
    rewrite P, Hh. unfold blobOf, JsArray.length.
    rewrite length_map, Nat2Z.id. reflexivity.
Qed.

Lemma persistTree_wf (t : MerkleTree) (n : nat) :
  wf n t ->
  exists t', persistTree t = Ok t' /\ wf n t' /\ root t' = root t /\
             hashes t' = hashes t /\ dataBlocks t' = dataBlocks t /\
             name t' = name t.
Proof.
  intros [Hd [Hz [ms [top [Hh [Hlen [Hc [Ht Hr]]]]]]]].
  rewrite (persistTree_spec t ms Hh). eexists. split; [reflexivity|].
  split; [|repeat split].
  split; [exact Hd|]. split; [exact Hz|].
  exists ms, top. repeat split; try assumption; apply Hc.
Qed.

(** ** Construction without persisted data *)

Definition inRange (d : Z) : Prop := 1 <= d <= MAX_DEPTH.

(** The tree the constructor builds when no data is handed over. *)
Definition freshTree (db0 : Db) (name0 : string) (n : nat) : MerkleTree :=
  mkMerkleTree db0 name0 (Z.of_nat n) (Some (zeroHash n)) JsMap.empty
    (map Some (repeat JsMap.empty (S n))) (zeroTable n).

Lemma depth_check (d : Z) :
  inRange d -> negb ((1 <=? d) && (d <=? MAX_DEPTH)) = false.
Proof.
  unfold inRange. intros H.
  destruct (Z.leb_spec 1 d); [|lia].
  destruct (Z.leb_spec d MAX_DEPTH); [reflexivity|lia].
Qed.

Lemma constructor_zero (db0 : Db) (name0 : string) (d : Z) (data : option Blob) :
  inRange d ->
  constructor db0 name0 d data
  = match data with
    | Some b =>
        restorePersistedTree
          (mkMerkleTree db0 name0 d (Some (zeroHash (Z.to_nat d))) JsMap.empty []
             (zeroTable (Z.to_nat d))) b
    | None =>
        generateTreeNodes
          (mkMerkleTree db0 name0 d (Some (zeroHash (Z.to_nat d))) JsMap.empty []
             (zeroTable (Z.to_nat d)))
    end.
Proof.
  intros Hd. unfold constructor. rewrite (depth_check d Hd).
  rewrite (generateZeroHashesByLevel_spec _ (Z.to_nat d));
    [reflexivity|cbn [depth]; unfold inRange in Hd; lia|reflexivity].
Qed.

Lemma constructor_fresh (db0 : Db) (name0 : string) (d : Z) :
  inRange d ->
  constructor db0 name0 d None = Ok (freshTree db0 name0 (Z.to_nat d)).
Proof.
  intros Hd. rewrite constructor_zero by assumption.
  assert (Hn : d = Z.of_nat (Z.to_nat d)) by (unfold inRange in Hd; lia).
  rewrite (generateTreeNodes_empty _ (Z.to_nat d)); cbn [depth]; try reflexivity;
    try assumption.
  unfold freshTree. cbn. rewrite <- Hn. reflexivity.
Qed.

Lemma freshTree_wf (db0 : Db) (name0 : string) (n : nat) : wf n (freshTree db0 name0 n).
Proof.
  split; [reflexivity|]. split; [reflexivity|].
  exists (repeat JsMap.empty (S n)), JsMap.empty. split; [reflexivity|].
  split; [apply repeat_length|].
  split; [|split; [apply nth_error_repeat; lia|reflexivity]].
  split; [reflexivity|].
  intros i before m Hb Hm.
  apply nth_error_In, repeat_spec in Hb.
  apply nth_error_In, repeat_spec in Hm. subst. reflexivity.
Qed.

Lemma MerkleTree_new_fresh (db0 : Db) (name0 : string) (d : Z) :
  inRange d -> db_get name0 db0 = None ->
  MerkleTree_new db0 name0 d
  = Ok (freshTree
          (db_put name0 (blobOf (repeat JsMap.empty (S (Z.to_nat d)))) db0)
          name0 (Z.to_nat d)).
Proof.
  intros Hd Hg. unfold MerkleTree_new. rewrite Hg, constructor_fresh by assumption.
  cbn [bind]. rewrite (persistTree_spec _ (repeat JsMap.empty (S (Z.to_nat d))))
    by reflexivity.
  reflexivity.
Qed.

(** ** Updates *)

Lemma updateElement_ok (t : MerkleTree) (n : nat) (index : Z) (value : Buffer) :
  wf n t ->
  exists t', updateElement t index value = Ok (t', root t') /\ wf n t' /\
             name t' = name t /\
             dataBlocks t' = JsMap.set index value (dataBlocks t).
Proof.
  intros [Hd [Hz _]]. unfold updateElement.
  destruct (generateTreeNodes_ok
              (mkMerkleTree (db t) (name t) (depth t) (root t)
                 (JsMap.set index value (dataBlocks t)) (hashes t)
                 (zeroHashesByLevel t)) n Hd Hz)
    as [t1 [E1 [W1 [_ [N1 D1]]]]].
  rewrite E1. cbn [bind].
  destruct (persistTree_wf _ _ W1) as [t2 [E2 [W2 [_ [_ [D2 N2]]]]]].
  rewrite E2. cbn [bind]. exists t2. split; [reflexivity|].
  cbn [name dataBlocks] in N1, D1.
  split; [assumption|]. split; congruence.
Qed.

(** A sequence of [updateElement] calls on one instance. *)
Definition applyUpdates (t : MerkleTree) (updates : list (Z * Buffer))
  : result MerkleTree :=
  forM (fun t '(index, value) => r <- updateElement t index value ;; Ok (fst r))
    updates t.

Lemma applyUpdates_ok (updates : list (Z * Buffer)) (t : MerkleTree) (n : nat) :
  wf n t -> exists t', applyUpdates t updates = Ok t' /\ wf n t'.
Proof.
  revert t. induction updates as [|[index value] rest IH]; intros t W.
  - exists t. split; [reflexivity|assumption].
  - unfold applyUpdates. cbn [forM].
    destruct (updateElement_ok t n index value W) as [t1 [E1 [W1 _]]].
    rewrite E1. cbn [bind fst]. apply IH. assumption.
Qed.

(** A new tree under [name0] in an empty store, then the updates. *)
Definition freshThenUpdates (name0 : string) (d : Z) (updates : list (Z * Buffer))
  : result MerkleTree :=
  t <- MerkleTree_new [] name0 d ;; applyUpdates t updates.

Lemma freshThenUpdates_ok (name0 : string) (d : Z) (updates : list (Z * Buffer)) :
  inRange d ->
  exists t, freshThenUpdates name0 d updates = Ok t /\ wf (Z.to_nat d) t.
Proof.
  intros Hd. unfold freshThenUpdates.
  rewrite MerkleTree_new_fresh by (try assumption; reflexivity).
  cbn [bind]. apply applyUpdates_ok. apply freshTree_wf.
Qed.

(** Updates at indices below [b] leave data blocks with keys below [b]. *)
Lemma applyUpdates_keysBelow (b : Z) (updates : list (Z * Buffer))
    (t t' : MerkleTree) (n : nat) :
  wf n t ->
  keysBelow b (dataBlocks t) ->
  keysBelow b updates ->
  applyUpdates t updates = Ok t' ->
  keysBelow b (dataBlocks t').
Proof.
  revert t. induction updates as [|[index value] rest IH]; intros t W Hb Hu H.
  - injection H as <-. exact Hb.
  - unfold applyUpdates in H. cbn [forM] in H.
    destruct (updateElement_ok t n index value W) as [t1 [E1 [W1 [_ D1]]]].
    rewrite E1 in H. cbn [bind fst] in H.
    inversion Hu as [|e l Hk Hl]; subst. cbn [fst] in Hk.
    apply (IH t1 W1); [|exact Hl|exact H].
    rewrite D1. apply JsMap_set_keysBelow; assumption.
Qed.

Lemma freshThenUpdates_keysBelow (name0 : string) (d : Z)
    (updates : list (Z * Buffer)) (t : MerkleTree) :
  inRange d ->
  keysBelow (2 ^ d) updates ->
  freshThenUpdates name0 d updates = Ok t ->
  keysBelow (2 ^ d) (dataBlocks t).
Proof.
  intros Hd Hu H. unfold freshThenUpdates in H.
  rewrite MerkleTree_new_fresh in H by (try assumption; reflexivity).
  cbn [bind] in H.
  apply (applyUpdates_keysBelow (2 ^ d) updates _ t (Z.to_nat d)) in H;
    [exact H|apply freshTree_wf|constructor|exact Hu].
Qed.

(** In a well-formed tree whose data blocks have keys below [2^n], level
    [i] of the cache has keys below [2^(n-i)]. *)
Lemma wf_level_keysBelow (t : MerkleTree) (n : nat) (i : Z) (level : JsMap.t Buffer) :
  wf n t ->
  keysBelow (2 ^ Z.of_nat n) (dataBlocks t) ->
  0 <= i <= Z.of_nat n ->
  JsArray.get i (hashes t) = Some level ->
  keysBelow (2 ^ (Z.of_nat n - i)) level.
Proof.
  intros [_ [_ [ms [top [Hh [Hlen [Hc _]]]]]]] Hb Hi Hl.
  rewrite Hh in Hl.
  destruct (nth_error ms (Z.to_nat i)) as [m|] eqn:E.
  2:{ apply nth_error_None in E. lia. }
  rewrite (JsArray_get_some _ i ms m) in Hl by (try lia; exact E).
  injection Hl as <-.
  replace i with (Z.of_nat (Z.to_nat i)) at 1 by lia.
  apply (chained_keysBelow (dataBlocks t) ms n Hb Hc (Z.to_nat i) m); [lia|exact E].
Qed.

(** ** Hash paths *)

(** The digest of node [p] of level [i]: the cached one, or the zero hash
    of the level when the cache has none. *)
Definition nodeAt (t : MerkleTree) (i p : Z) : Buffer :=
  match JsArray.get i (hashes t) with
  | Some level =>
      match JsMap.get p level with
      | Some h => h
      | None => zeroHash (Z.to_nat i)
      end
  | None => zeroHash (Z.to_nat i)
  end.

Lemma shaped_level (t : MerkleTree) (n : nat) (i : Z) :
  shaped n t -> 0 <= i <= Z.of_nat n ->
  exists level, JsArray.get i (hashes t) = Some level.
Proof.
  intros [_ [_ [ms [Hh Hlen]]]] Hi.
  destruct (nth_error ms (Z.to_nat i)) as [level|] eqn:E.
  - exists level. rewrite Hh. apply JsArray_get_some; [lia|assumption].
  - apply nth_error_None in E. lia.
Qed.

Lemma resolve_nodeAt (t : MerkleTree) (n : nat) (i p : Z) (level : JsMap.t Buffer) :
  shaped n t -> 0 <= i <= Z.of_nat n ->
  JsArray.get i (hashes t) = Some level ->
  (if JsMap.has p level then JsMap.get p level
   else JsArray.get i (zeroHashesByLevel t))
  = Some (nodeAt t i p).
Proof.
  intros [_ [Hz _]] Hi Hl. unfold nodeAt. rewrite Hl, JsMap_has_get.
  destruct (JsMap.get p level); [reflexivity|].
  rewrite Hz. apply zeroTable_get. assumption.
Qed.

Lemma hashPathStep_spec (t : MerkleTree) (n : nat) (hashPath : HashPath) (index i : Z) :
  shaped n t -> 0 <= i < Z.of_nat n ->
  hashPathStep t (hashPath, index) i
  = Ok (hashPath ++ [[Some (nodeAt t i (2 * (index / 2)));
                      Some (nodeAt t i (2 * (index / 2) + 1))]],
        index / 2).
Proof.
  intros W Hi. unfold hashPathStep.
  destruct (shaped_level t n i W ltac:(lia)) as [level Hl].
  rewrite Hl. cbn [bind defined].
  rewrite !(resolve_nodeAt t n i _ level W) by (try lia; assumption).
  rewrite indexOfParentNode_half. do 3 f_equal.
  destruct (Z.eq_dec (Z.rem index 2) 0) as [E|E].
  - destruct (siblingOf_even index E) as [-> Hi2].
    destruct (Z.ltb_spec index (index + 1)); [|lia].
    destruct (Z.ltb_spec (index + 1) index); [lia|].
    cbn [JsArray.set]. rewrite <- Hi2. reflexivity.
  - destruct (siblingOf_odd index E) as [-> Hi2].
    destruct (Z.ltb_spec index (index - 1)); [lia|].
    destruct (Z.ltb_spec (index - 1) index); [|lia].
    cbn [JsArray.set]. rewrite <- Hi2.
    replace (index - 1) with (2 * (index / 2)) by lia. reflexivity.
Qed.

Lemma nodeAt_outside (t : MerkleTree) (n : nat) (i p : Z) :
  wf n t ->
  keysBelow (2 ^ Z.of_nat n) (dataBlocks t) ->
  0 <= i <= Z.of_nat n ->
  2 ^ (Z.of_nat n - i) <= p ->
  nodeAt t i p = zeroHash (Z.to_nat i).
Proof.
  intros W Hb Hi Hp. unfold nodeAt.
  destruct (JsArray.get i (hashes t)) as [level|] eqn:Hl; [|reflexivity].
  rewrite (JsMap_get_outside _ (2 ^ (Z.of_nat n - i)) p level); [reflexivity| |exact Hp].
  apply (wf_level_keysBelow t n i level); assumption.
Qed.

(** The pair of level [i] on the path of [index]. *)
Definition pathEntry (t : MerkleTree) (index i : Z) : JsArray.t Buffer :=
  [Some (nodeAt t i (2 * (index / 2 ^ i / 2)));
   Some (nodeAt t i (2 * (index / 2 ^ i / 2) + 1))].

Lemma getHashPath_spec (t : MerkleTree) (n : nat) (index : Z) :
  shaped n t ->
  getHashPath t index = Ok (map (pathEntry t index) (range 0 (Z.of_nat n))).
Proof.
  intros W. unfold getHashPath.
  destruct W as [Hd W']. rewrite Hd.
  assert (W : shaped n t) by (split; assumption).
  destruct (forM_range _ (hashPathStep t)
              (fun i st => st = (map (pathEntry t index) (range 0 i), index / 2 ^ i))
              0 (Z.of_nat n) ([], index))
    as [st [E ->]].
  - lia.
  - rewrite range_nil by lia. rewrite Z.pow_0_r, Z.div_1_r. reflexivity.
  - intros i st Hi ->. rewrite (hashPathStep_spec t n) by assumption.
    eexists. split; [reflexivity|].
    rewrite range_snoc by lia. rewrite map_app.
    f_equal. apply div_pow2_succ. lia.
  - rewrite E. reflexivity.
Qed.

Lemma getHashPath_nth (t : MerkleTree) (n : nat) (index i : Z) :
  0 <= i < Z.of_nat n ->
  nth_error (map (pathEntry t index) (range 0 (Z.of_nat n))) (Z.to_nat i)
  = Some (pathEntry t index i).
Proof.
  intros Hi. rewrite nth_error_map.
  replace (Z.to_nat i) with (Z.to_nat (i - 0)) by lia.
  rewrite range_nth by lia. reflexivity.
Qed.

(** Whatever the cache holds, a path that is returned has one entry per
    level below [depth]. *)
Lemma hashPath_loop_length (t : MerkleTree) (levels : list Z)
    (st st' : HashPath * Z) :
  forM (hashPathStep t) levels st = Ok st' ->
  List.length (fst st') = (List.length (fst st) + List.length levels)%nat.
Proof.
  revert st. induction levels as [|i rest IH]; intros [hp idx] H; cbn [forM] in H.
  - injection H as <-. cbn. lia.
  - unfold hashPathStep at 1 in H.
    destruct (JsArray.get i (hashes t)); cbn [bind defined] in H; [|discriminate].
    apply IH in H. rewrite H. cbn [fst]. rewrite length_app. cbn. lia.
Qed.

Lemma getHashPath_length (t : MerkleTree) (index : Z) (path : HashPath) :
  getHashPath t index = Ok path ->
  List.length path = Z.to_nat (depth t).
Proof.
  unfold getHashPath. intros H.
  destruct (forM (hashPathStep t) (range 0 (depth t)) ([], index)) as [st|] eqn:E;
    cbn [bind] in H; [|discriminate].
  injection H as <-. apply hashPath_loop_length in E.
  rewrite E, range_length. cbn. f_equal. lia.
Qed.

(** ** What a cached parent is

    The digest the rebuild stores for a parent is [compress] of the
    digests of its two children, each the cached one or the zero hash of
    the level; the order of the two is the order of iteration, not of
    index. *)

(** The digest of node [k] of a level [before] whose zero hash is [z]. *)
Definition resolved (z : Buffer) (before : JsMap.t Buffer) (k : Z) : Buffer :=
  match JsMap.get k before with
  | Some h => h
  | None => z
  end.

Definition ofChildren (z : Buffer) (before : JsMap.t Buffer) (p : Z) (h : Buffer)
  : Prop :=
  h = compress (resolved z before (2 * p)) (resolved z before (2 * p + 1)) \/
  h = compress (resolved z before (2 * p + 1)) (resolved z before (2 * p)).

Lemma pairLoop_ofChildren (z : Buffer) (before : JsMap.t Buffer)
    (entries : list (Z * Buffer)) (cur : JsMap.t Buffer)
    (processed : JsMap.t bool) (m : JsMap.t Buffer) :
  uniqueKeys before -> incl entries before ->
  (forall p h, JsMap.get p cur = Some h -> ofChildren z before p h) ->
  pairLoop (Some z) before entries cur processed = Ok m ->
  forall p h, JsMap.get p m = Some h -> ofChildren z before p h.
Proof.
  intros Hu. revert cur processed.
  induction entries as [|[index x] rest IH]; intros cur processed Hin Hc H;
    cbn [pairLoop] in H.
  - injection H as <-. exact Hc.
  - assert (Hrest : incl rest before) by (intros e He; apply Hin; right; exact He).
    destruct (negb _); cbn [bind] in H; [|exact (IH _ _ Hrest Hc H)].
    rewrite JsMap_has_get in H.
    assert (Hs : (if match JsMap.get (siblingOf index) before with
                     | Some _ => true
                     | None => false
                     end
                  then JsMap.get (siblingOf index) before else Some z)
                 = Some (resolved z before (siblingOf index))).
    { unfold resolved. destruct (JsMap.get (siblingOf index) before); reflexivity. }
    rewrite Hs in H. cbn [bind defined] in H.
    refine (IH _ _ Hrest _ H).
    intros p h. rewrite JsMap_get_set, indexOfParentNode_half.
    destruct (Z.eqb_spec p (index / 2)) as [->|Hne]; [|apply Hc].
    intros E. injection E as <-.
    assert (Hx : resolved z before index = x).
    { unfold resolved.
      rewrite (JsMap_get_unique _ index x before Hu (Hin _ (or_introl eq_refl))).
      reflexivity. }
    destruct (Z.eq_dec (Z.rem index 2) 0) as [Ev|Od].
    + destruct (siblingOf_even index Ev) as [-> Hi2]. left.
      rewrite <- Hi2, Hx. reflexivity.
    + destruct (siblingOf_odd index Od) as [-> Hi2]. right.
      rewrite <- Hi2, Hx.
      replace (index - 1) with (2 * (index / 2)) by lia. reflexivity.
Qed.

Theorem parents_of_children (t : MerkleTree) (n : nat) (i p : Z)
    (level : JsMap.t Buffer) (h : Buffer) :
  wf n t ->
  1 <= i <= Z.of_nat n ->
  JsArray.get i (hashes t) = Some level ->
  JsMap.get p level = Some h ->
  h = compress (nodeAt t (i - 1) (2 * p)) (nodeAt t (i - 1) (2 * p + 1)) \/
  h = compress (nodeAt t (i - 1) (2 * p + 1)) (nodeAt t (i - 1) (2 * p)).
Proof.
  intros [_ [_ [ms [top [Hh [Hlen [Hc _]]]]]]] Hi Hl Hg.
  rewrite Hh in Hl.
  destruct (nth_error ms (Z.to_nat i)) as [m|] eqn:Em.
  2:{ apply nth_error_None in Em. lia. }
  rewrite (JsArray_get_some _ i ms m) in Hl by (try lia; exact Em).
  injection Hl as ->.
  replace (Z.to_nat i) with (S (Z.to_nat (i - 1))) in Em by lia.
  destruct (nth_error_pred ms _ level Em) as [before Hb].
  pose proof (proj2 Hc _ before level Hb Em) as Hp.
  unfold nodeAt. rewrite Hh.
  rewrite (JsArray_get_some _ (i - 1) ms before) by (try lia; exact Hb).
  apply (pairLoop_ofChildren (zeroHash (Z.to_nat (i - 1))) before
           (JsMap.entries before) JsMap.empty JsMap.empty level);
    [exact (chained_unique _ ms _ before Hc Hb)|apply incl_refl|discriminate
    |exact Hp|exact Hg].
Qed.

(** ** Restoring *)

Lemma restoreKey_count (data : Blob) (st : JsArray.t (JsMap.t Buffer) * Z) :
  snd (fold_left restoreKey data st) = snd st + Z.of_nat (List.length data).
Proof.
  revert st. induction data as [|[key obj] rest IH]; intros [hs d]; cbn [fold_left].
  - cbn. lia.
  - rewrite IH. cbn [restoreKey snd List.length]. lia.
Qed.

(** The last cell of an array holds a value. *)
Definition lastDefined {A : Type} (a : JsArray.t A) : Prop :=
  exists x, last a None = Some x.

Lemma lastDefined_cons {A : Type} (c : option A) (a : JsArray.t A) :
  lastDefined a -> lastDefined (c :: a).
Proof.
  intros [x H]. exists x. destruct a as [|c' a]; [discriminate|exact H].
Qed.

Lemma set_lastDefined {A : Type} (x : A) (key : nat) (a : JsArray.t A) :
  a = [] \/ lastDefined a -> lastDefined (JsArray.set key (Some x) a).
Proof.
  revert a. induction key as [|j IH]; intros a H.
  - destruct a as [|c rest]; cbn [JsArray.set]; [exists x; reflexivity|].
    destruct rest as [|c' rest]; [exists x; reflexivity|].
    destruct H as [H|[y H]]; [discriminate|]. exists y. exact H.
  - destruct a as [|c rest]; cbn [JsArray.set]; apply lastDefined_cons, IH.
    + left. reflexivity.
    + destruct rest as [|c' rest]; [left; reflexivity|right].
      destruct H as [H|[y H]]; [discriminate|]. exists y. exact H.
Qed.

Lemma restoreKey_lastDefined (data : Blob) (st : JsArray.t (JsMap.t Buffer) * Z) :
  data <> [] \/ lastDefined (fst st) ->
  fst st = [] \/ lastDefined (fst st) ->
  lastDefined (fst (fold_left restoreKey data st)).
Proof.
  revert st. induction data as [|[key obj] rest IH]; intros [hs d] H1 H2;
    cbn [fold_left].
  - destruct H1 as [H1|H1]; [contradiction|exact H1].
  - assert (L : lastDefined (fst (restoreKey (hs, d) (key, obj)))).
    { cbn [restoreKey fst]. apply set_lastDefined. exact H2. }
    apply IH; right; exact L.
Qed.

Lemma JsArray_get_last_eq {A : Type} (a : JsArray.t A) :
  JsArray.get (JsArray.length a - 1) a = last a None.
Proof.
  induction a as [|x a' _] using rev_ind; [reflexivity|].
  rewrite JsArray_get_last, last_last. reflexivity.
Qed.

Lemma restorePersistedTree_ok (t : MerkleTree) (data : Blob) :
  data <> [] ->
  exists t', restorePersistedTree t data = Ok t' /\
             depth t' = Z.of_nat (List.length data) - 1 /\
             zeroHashesByLevel t' = zeroHashesByLevel t /\
             hashes t' = fst (fold_left restoreKey data ([], 0)).
Proof.
  intros Hne. unfold restorePersistedTree.
  pose proof (restoreKey_count data ([], 0)) as Hc.
  pose proof (restoreKey_lastDefined data ([], 0) (or_introl Hne)
                (or_introl eq_refl)) as [top Ht].
  destruct (fold_left restoreKey data ([], 0)) as [hs d].
  cbn [fst snd] in *. rewrite JsArray_get_last_eq, Ht. cbn [bind defined].
  eexists. split; [reflexivity|]. cbn [depth zeroHashesByLevel hashes].
  repeat split. lia.
Qed.

Lemma restorePersistedTree_error (t : MerkleTree) (data : Blob) (e : error) :
  restorePersistedTree t data = Err e -> e = TypeError.
Proof.
  unfold restorePersistedTree.
  destruct (fold_left restoreKey data ([], 0)) as [hs d].
  destruct (JsArray.get (JsArray.length hs - 1) hs); cbn [bind defined];
    intros H; [discriminate|]. injection H as <-. reflexivity.
Qed.

(** Reading back the document written for the levels [ms]. *)
Lemma restoreKey_seq (g : nat -> JsObject.t Buffer) (n k : nat)
    (hs : JsArray.t (JsMap.t Buffer)) (d : Z) :
  List.length hs = k ->
  fold_left restoreKey (map (fun j => (j, g j)) (seq k n)) (hs, d)
  = (hs ++ map (fun j => Some (fromObject (g j))) (seq k n), d + Z.of_nat n).
Proof.
  revert k hs d. induction n as [|n IH]; intros k hs d Hk.
  - cbn. rewrite app_nil_r. f_equal. lia.
  - subst k. cbn [seq map fold_left restoreKey].
    rewrite JsArray_set_end.
    rewrite IH by (rewrite length_app; cbn; lia).
    rewrite <- app_assoc. cbn [app]. f_equal. lia.
Qed.

Lemma map_nth_seq {A B : Type} (f : A -> B) (l : list A) (d : A) :
  map (fun k => f (nth k l d)) (seq 0 (List.length l)) = map f l.
Proof.
  induction l as [|a l IH]; [reflexivity|].
  cbn [List.length seq map nth]. f_equal.
  rewrite <- seq_shift, map_map. exact IH.
Qed.

Lemma restore_blobOf (ms : list (JsMap.t Buffer)) :
  fold_left restoreKey (blobOf ms) ([], 0)
  = (map (fun m => Some (fromObject (toObject m))) ms, Z.of_nat (List.length ms)).
Proof.
  unfold blobOf.
  rewrite (restoreKey_seq (fun k => toObject (nth k ms JsMap.empty))) by reflexivity.
  cbn [app]. f_equal.
  apply (map_nth_seq (fun m => Some (fromObject (toObject m)))).
Qed.

(** ** Persisting, then restoring *)

Lemma fold_JsMap_set_get (l : list (Z * Buffer)) (m : JsMap.t Buffer) (k : Z) :
  uniqueKeys l ->
  JsMap.get k (fold_left (fun m '(index, digest) => JsMap.set index digest m) l m)
  = match JsMap.get k l with
    | Some v => Some v
    | None => JsMap.get k m
    end.
Proof.
  revert m. induction l as [|[k0 v0] l IH]; intros m H; cbn [fold_left JsMap.get];
    [reflexivity|].
  inversion H as [|x l' Hx Hl]; subst.
  rewrite IH by exact Hl. rewrite JsMap_get_set.
  destruct (Z.eqb_spec k k0) as [->|Hne]; [|reflexivity].
  rewrite (JsMap_get_notin _ k0 l Hx). reflexivity.
Qed.

Lemma fold_JsObject_set_get (l : list (Z * Buffer)) (o : JsObject.t Buffer) (k : Z) :
  uniqueKeys l ->
  JsObject.get k (fold_left (fun o '(index, value) => JsObject.set index value o) l o)
  = match JsMap.get k l with
    | Some v => Some v
    | None => JsObject.get k o
    end.
Proof.
  revert o. induction l as [|[k0 v0] l IH]; intros o H; cbn [fold_left JsMap.get];
    [reflexivity|].
  inversion H as [|x l' Hx Hl]; subst.
  rewrite IH by exact Hl. rewrite JsObject_get_set.
  destruct (Z.eqb_spec k k0) as [->|Hne]; [|reflexivity].
  rewrite (JsMap_get_notin _ k0 l Hx). reflexivity.
Qed.

Lemma fold_JsObject_set_unique (l : list (Z * Buffer)) (o : JsObject.t Buffer) :
  uniqueKeys o ->
  uniqueKeys (fold_left (fun o '(index, value) => JsObject.set index value o) l o).
Proof.
  revert o. induction l as [|[k0 v0] l IH]; intros o H; cbn [fold_left];
    [exact H|].
  apply IH, JsObject_set_unique, H.
Qed.

(** A level read back holds the digests that were written. *)
Lemma roundtrip_get (m : JsMap.t Buffer) (k : Z) :
  uniqueKeys m -> JsMap.get k (fromObject (toObject m)) = JsMap.get k m.
Proof.
  intros H. unfold fromObject.
  rewrite fold_JsMap_set_get
    by (apply fold_JsObject_set_unique; constructor).
  cbn [JsMap.get JsMap.empty]. rewrite <- JsObject_get_eq.
  unfold toObject, JsMap.entries.
  rewrite fold_JsObject_set_get by exact H.
  cbn [JsObject.get JsObject.empty].
  destruct (JsMap.get k m); reflexivity.
Qed.

Lemma db_get_put (name0 : string) (b : Blob) (db0 : Db) :
  db_get name0 (db_put name0 b db0) = Some b.
Proof.
  induction db0 as [|[n0 b0] db0 IH]; cbn [db_put db_get].
  - rewrite String.eqb_refl. reflexivity.
  - destruct (String.eqb name0 n0) eqn:E; cbn [db_get].
    + rewrite String.eqb_refl. reflexivity.
    + rewrite E. exact IH.
Qed.

Lemma nodeAt_ext (t1 t2 : MerkleTree) (ms : list (JsMap.t Buffer))
    (f : JsMap.t Buffer -> JsMap.t Buffer) (i p : Z) :
  hashes t1 = map Some ms ->
  hashes t2 = map Some (map f ms) ->
  (forall m, In m ms -> JsMap.get p (f m) = JsMap.get p m) ->
  nodeAt t2 i p = nodeAt t1 i p.
Proof.
  intros H1 H2 Hf. unfold nodeAt, JsArray.get. rewrite H1, H2.
  destruct (i <? 0); [reflexivity|].
  rewrite !nth_error_map.
  destruct (nth_error ms (Z.to_nat i)) as [m|] eqn:E; cbn [option_map];
    [|reflexivity].
  rewrite (Hf m (nth_error_In _ _ E)). reflexivity.
Qed.

(** Persisting a well-formed tree and opening its name again, with the
    same depth argument, gives the same hash paths; the root becomes
    [hashes[depth].get(0)], which is the root that was persisted when the
    top level is not empty. *)
Theorem reopen_after_persist (t t1 : MerkleTree) (n : nat) :
  wf n t -> inRange (Z.of_nat n) ->
  persistTree t = Ok t1 ->
  exists t2 top,
    MerkleTree_new (db t1) (name t1) (Z.of_nat n) = Ok t2 /\
    (forall index, getHashPath t2 index = getHashPath t1 index) /\
    JsArray.get (Z.of_nat n) (hashes t1) = Some top /\
    getRoot t1 = rootOf n top /\
    getRoot t2 = JsMap.get 0 top /\
    (JsMap.size top <> 0 -> getRoot t2 = getRoot t1).
Proof.
  intros W Hd Hp.
  pose proof W as [Hdep [Hz [ms [top [Hh [Hlen [Hc [Ht Hr]]]]]]]].
  rewrite (persistTree_spec t ms Hh) in Hp. injection Hp as <-.
  cbn [db name hashes getRoot root].
  unfold MerkleTree_new. rewrite db_get_put.
  rewrite constructor_zero by exact Hd. rewrite !Nat2Z.id.
  unfold restorePersistedTree. rewrite restore_blobOf.
  rewrite <- (map_map (fun m => fromObject (toObject m)) Some ms).
  set (ms' := map (fun m => fromObject (toObject m)) ms).
  assert (Hlen' : List.length ms' = S n) by (unfold ms'; rewrite length_map; exact Hlen).
  assert (Ht' : nth_error ms' n = Some (fromObject (toObject top))).
  { unfold ms'. rewrite nth_error_map, Ht. reflexivity. }
  assert (Hl : JsArray.length (map Some ms') - 1 = Z.of_nat n).
  { unfold JsArray.length. rewrite length_map. lia. }
  rewrite Hl, (JsArray_get_some _ _ ms' (fromObject (toObject top)))
    by (try lia; rewrite Nat2Z.id; exact Ht').
  cbn [bind defined db name dataBlocks zeroHashesByLevel].
  rewrite (persistTree_spec _ ms') by reflexivity.
  cbn [db name depth root dataBlocks hashes zeroHashesByLevel].
  assert (Hu : forall m, In m ms -> uniqueKeys m).
  { intros m Hin. apply In_nth_error in Hin. destruct Hin as [i Hi].
    exact (chained_unique _ ms i m Hc Hi). }
  assert (Hroot : JsMap.get 0 (fromObject (toObject top)) = JsMap.get 0 top).
  { apply roundtrip_get, Hu. exact (nth_error_In _ _ Ht). }
  eexists. exists top. split; [reflexivity|].
  cbn [root hashes].
  split; [|split; [|split; [exact Hr|split; [exact Hroot|]]]].
  - intros index.
    rewrite (getHashPath_spec _ n index).
    2:{ split; [cbn [depth]; rewrite Hlen; lia|]. split; [reflexivity|].
        exists ms'. split; [reflexivity|exact Hlen']. }
    rewrite (getHashPath_spec _ n index).
    2:{ split; [exact Hdep|]. split; [exact Hz|].
        exists ms. split; [exact Hh|exact Hlen]. }
    f_equal. apply map_ext. intros i. unfold pathEntry.
    f_equal; [f_equal|f_equal; f_equal];
      (apply (nodeAt_ext _ _ ms (fun m => fromObject (toObject m)));
       [exact Hh|reflexivity|intros m Hin; apply roundtrip_get, Hu, Hin]).
  - rewrite Hh. apply JsArray_get_some; [lia|rewrite Nat2Z.id; exact Ht].
  - intros Hs. rewrite Hroot, Hr. unfold rootOf.
    destruct (Z.eqb_spec (JsMap.size top) 0); [contradiction|reflexivity].
Qed.

End TreeFacts.

(** * The properties of the specification *)

Section Specification.
Context {hasher : Hasher}.

(** C6.  For every depth d in [1,32], a tree constructed with no persisted
    data and never updated has [getRoot()] equal to Z[d], where
    Z[0] = hash(64 zero bytes) and Z[i] = compress(Z[i-1], Z[i-1]); the
    table the code fills is that recurrence.  The same holds for
    [MerkleTree.new] on a store that has nothing under the name. *)
Theorem C6_fresh_root_is_zero_hash (db0 : Db) (name0 : string) (d : Z) :
  1 <= d <= 32 ->
  (exists t, constructor db0 name0 d None = Ok t /\
             getRoot t = Some (zeroHash (Z.to_nat d)) /\
             zeroHashesByLevel t = zeroTable (Z.to_nat d)) /\
  (db_get name0 db0 = None ->
   exists t, MerkleTree_new db0 name0 d = Ok t /\
             getRoot t = Some (zeroHash (Z.to_nat d))).
Proof.
  intros Hd. split.
  - rewrite constructor_fresh by exact Hd.
    eexists. split; [reflexivity|]. split; reflexivity.
  - intros Hg. rewrite MerkleTree_new_fresh by assumption.
    eexists. split; reflexivity.
Qed.

(** The index the loop of [getHashPath] holds after [level] iterations;
    iterating [indexOfParentNode] is dividing by a power of two. *)
Fixpoint walkedIndex (index : Z) (level : nat) : Z :=
  match level with
  | O => index
  | S l => indexOfParentNode (walkedIndex index l)
  end.

Lemma walkedIndex_div (index : Z) (level : nat) :
  walkedIndex index level = index / 2 ^ Z.of_nat level.
Proof.
  induction level as [|l IH].
  - cbn. rewrite Z.div_1_r. reflexivity.
  - cbn [walkedIndex]. rewrite indexOfParentNode_half, IH.
    rewrite div_pow2_succ by lia. f_equal. f_equal. lia.
Qed.

(** X15.  For a tree of depth d built fresh and then updated any number
    of times, and every index in [0, 2^d), [getHashPath(index)] returns
    exactly d pairs; the pair of level i holds, left, the digest of the
    even node and, right, the digest of the odd node of the sibling pair
    of the walked index, which is [index / 2^i]: the index halved,
    rounding down, once per level.  The entries are read at the levels
    0..d-1 only: the node of level d, the root, is not one of them.
    (A tree persisted and opened again with a depth argument that is at
    least its depth has the same paths: [reopen_after_persist].) *)
Theorem X15_fresh_path_shape (name0 : string) (d : Z)
    (updates : list (Z * Buffer)) (index : Z) :
  1 <= d <= 32 ->
  0 <= index < 2 ^ d ->
  exists t path,
    freshThenUpdates name0 d updates = Ok t /\
    depth t = d /\
    getHashPath t index = Ok path /\
    Z.of_nat (List.length path) = d /\
    forall i, 0 <= i < d ->
      walkedIndex index (Z.to_nat i) = index / 2 ^ i /\
      nth_error path (Z.to_nat i)
      = Some [Some (nodeAt t i (2 * (index / 2 ^ i / 2)));
              Some (nodeAt t i (2 * (index / 2 ^ i / 2) + 1))].
Proof.
  intros Hd _.
  destruct (freshThenUpdates_ok name0 d updates Hd) as [t [E W]].
  exists t. eexists. split; [exact E|].
  split; [destruct W as [-> _]; lia|].
  split; [apply (getHashPath_spec t (Z.to_nat d) index (wf_shaped _ _ W))|].
  split.
  - rewrite length_map, range_length. lia.
  - intros i Hi. split.
    + rewrite walkedIndex_div, Z2Nat.id by lia. reflexivity.
    + apply getHashPath_nth. lia.
Qed.

(** C9.  A depth argument outside [1, 32] makes construction fail with
    the 'Bad depth' error, whatever else is passed, and no tree is
    returned; for a depth in [1, 32] construction never raises that
    error. *)
Theorem C9_bad_depth (db0 : Db) (name0 : string) (d : Z) (data : option Blob) :
  (d < 1 \/ 32 < d -> constructor db0 name0 d data = Err BadDepth) /\
  (1 <= d <= 32 -> constructor db0 name0 d data <> Err BadDepth).
Proof.
  split.
  - intros H. unfold constructor, MAX_DEPTH.
    destruct (Z.leb_spec 1 d); destruct (Z.leb_spec d 32); try reflexivity; lia.
  - intros H. rewrite constructor_zero by exact H.
    destruct data as [b|].
    + intros E. apply restorePersistedTree_error in E. discriminate.
    + destruct (generateTreeNodes_ok
                  (mkMerkleTree db0 name0 d (Some (zeroHash (Z.to_nat d)))
                     JsMap.empty [] (zeroTable (Z.to_nat d)))
                  (Z.to_nat d)) as [t [E _]];
        [cbn [depth]; lia|reflexivity|].
      rewrite E. discriminate.
Qed.


(** C8.  When the constructor is handed a persisted document, the depth
    of the tree is the number of top-level keys of the document minus
    one, whatever depth argument the caller passed (any value the
    constructor accepts), and the operations that follow run at that
    depth: a hash path has that many pairs. *)
Theorem C8_persisted_depth_wins (db0 : Db) (name0 : string) (d : Z) (data : Blob) :
  1 <= d <= 32 ->
  data <> [] ->
  exists t,
    constructor db0 name0 d (Some data) = Ok t /\
    depth t = Z.of_nat (List.length data) - 1 /\
    forall index path,
      getHashPath t index = Ok path ->
      Z.of_nat (List.length path) = Z.of_nat (List.length data) - 1.
Proof.
  intros Hd Hne. rewrite constructor_zero by exact Hd.
  destruct (restorePersistedTree_ok
              (mkMerkleTree db0 name0 d (Some (zeroHash (Z.to_nat d)))
                 JsMap.empty [] (zeroTable (Z.to_nat d)))
              data Hne) as [t [E [D _]]].
  exists t. split; [exact E|]. split; [exact D|].
  intros index path Hp. apply getHashPath_length in Hp.
  rewrite Hp, D. destruct data; [contradiction|]. cbn [List.length]. lia.
Qed.

(** C5 (the code departs from it).  Persisting and restoring should keep
    [getRoot()]; for the never-updated tree it does not.  A fresh tree of
    any depth d in [1,32] has root Z[d] and is written once by
    [MerkleTree.new]; opening the same name again restores every level
    empty and takes the root from [hashes[depth].get(0)], which is
    undefined. *)
Theorem C5_reopened_empty_tree_loses_root (name0 : string) (d : Z) :
  1 <= d <= 32 ->
  exists t t',
    MerkleTree_new [] name0 d = Ok t /\
    getRoot t = Some (zeroHash (Z.to_nat d)) /\
    MerkleTree_new (db t) name0 d = Ok t' /\
    getRoot t' = None.
Proof.
  intros Hd.
  rewrite MerkleTree_new_fresh by (try exact Hd; reflexivity).
  eexists. eexists. split; [reflexivity|]. split; [reflexivity|].
  cbn [db freshTree db_put]. unfold MerkleTree_new.
  cbn [db_get]. rewrite String.eqb_refl.
  rewrite constructor_zero by exact Hd.
  unfold restorePersistedTree. rewrite restore_blobOf.
  rewrite map_repeat.
  change (repeat (Some (fromObject (toObject JsMap.empty))) (S (Z.to_nat d)))
    with (repeat (Some (@JsMap.empty Buffer)) (S (Z.to_nat d))).
  rewrite <- (map_repeat (@JsMap.empty Buffer) (S (Z.to_nat d)) Some).
  rewrite repeat_length. cbn [db name depth dataBlocks zeroHashesByLevel].
  assert (Hl : JsArray.length (map Some (repeat (@JsMap.empty Buffer) (S (Z.to_nat d)))) - 1
               = Z.of_nat (Z.to_nat d)).
  { unfold JsArray.length. rewrite length_map, repeat_length. lia. }
  rewrite Hl, (JsArray_get_some _ _ _ JsMap.empty)
    by (try lia; apply nth_error_repeat; lia).
  cbn [bind defined].
  rewrite (persistTree_spec _ (repeat JsMap.empty (S (Z.to_nat d)))) by reflexivity.
  split; reflexivity.
Qed.

(** ** The reference tree and the verifier *)

(** The dense tree of the specification: level 0 holds the leaves, a
    parent is [compress] of its two children, the child of lower index on
    the left. *)
Fixpoint denseNode (leaf : Z -> Buffer) (level : nat) (p : Z) : Buffer :=
  match level with
  | O => leaf p
  | S l => compress (denseNode leaf l (2 * p)) (denseNode leaf l (2 * p + 1))
  end.

Definition denseRoot (d : nat) (leaf : Z -> Buffer) : Buffer := denseNode leaf d 0.

(** [hash v] at leaf [index], the hash of 64 zero bytes elsewhere. *)
Definition singleLeaf (index : Z) (v : Buffer) (p : Z) : Buffer :=
  if p =? index then hash v else hash (Buffer_alloc LEAF_BYTES).

(** The leaves the data blocks of a tree stand for. *)
Definition leafOf (t : MerkleTree) (p : Z) : Buffer :=
  match JsMap.get p (dataBlocks t) with
  | Some v => hash v
  | None => hash (Buffer_alloc LEAF_BYTES)
  end.

(** Folding a hash path bottom-up: the running digest takes the left
    place of a pair when the walked index is even, the right place when
    it is odd, and the pair is compressed. *)
Fixpoint foldPath (index : Z) (acc : Buffer) (path : HashPath) : option Buffer :=
  match path with
  | [] => Some acc
  | [Some l; Some r] :: rest =>
      foldPath (index / 2)
        (if Z.even index then compress acc r else compress l acc) rest
  | _ => None
  end.

(** The invariant of the specification on the cache: a cached parent is
    [compress] of its children, lower index first. *)
Definition parentsOrdered (t : MerkleTree) : Prop :=
  forall i p level h,
    1 <= i <= depth t ->
    JsArray.get i (hashes t) = Some level ->
    JsMap.get p level = Some h ->
    h = compress (nodeAt t (i - 1) (2 * p)) (nodeAt t (i - 1) (2 * p + 1)).

(** ** Where the rebuild departs from the specification

    [generateTreeNodes] calls [compress(hash, hashOfSiblingNode)] with the
    entry it iterates on first, whatever its parity.  The four results
    below run the code on a tree of depth 1; they hold for every hasher
    that tells the two argument orders apart. *)

Lemma update_leaf1 (name0 : string) (v : Buffer) :
  exists t t',
    MerkleTree_new [] name0 1 = Ok t /\
    updateElement t 1 v = Ok (t', Some (compress (hash v) (zeroHash 0))) /\
    root t' = Some (compress (hash v) (zeroHash 0)) /\
    depth t' = 1 /\
    dataBlocks t' = [(1, v)] /\
    hashes t'
    = [Some [(1, hash v)]; Some [(0, compress (hash v) (zeroHash 0))]] /\
    zeroHashesByLevel t' = zeroTable 1.
Proof.
  rewrite MerkleTree_new_fresh by (try (unfold inRange, MAX_DEPTH; lia); reflexivity).
  eexists. eexists. split; [reflexivity|].
  split; [reflexivity|]. repeat split.
Qed.

(** C1 (the code departs from it).  On a fresh tree of depth 1,
    [updateElement(1, v)] returns compress(hash v, Z[0]); the dense
    reference tree with hash(v) at leaf 1 has root
    compress(Z[0], hash v).  The two differ as soon as [compress]
    distinguishes the order of these two digests. *)
Theorem C1_odd_leaf_root_differs (name0 : string) (v : Buffer) :
  compress (hash v) (zeroHash 0) <> compress (zeroHash 0) (hash v) ->
  exists t t' r,
    MerkleTree_new [] name0 1 = Ok t /\
    updateElement t 1 v = Ok (t', r) /\
    getRoot t' = r /\
    r = Some (compress (hash v) (zeroHash 0)) /\
    denseRoot 1 (singleLeaf 1 v) = compress (zeroHash 0) (hash v) /\
    r <> Some (denseRoot 1 (singleLeaf 1 v)).
Proof.
  intros Hneq.
  destruct (update_leaf1 name0 v) as [t [t' [E1 [E2 [R _]]]]].
  exists t, t', (Some (compress (hash v) (zeroHash 0))).
  split; [exact E1|]. split; [exact E2|]. split; [exact R|].
  split; [reflexivity|]. split; [reflexivity|].
  intros H. injection H as H. apply Hneq. exact H.
Qed.

(** C2 (the code departs from it).  On a fresh tree of depth 1 the
    assignments 0 -> a and 1 -> b give root compress(hash a, hash b) when
    applied in this order and compress(hash b, hash a) in the other,
    although the data blocks hold the same values at the same indices. *)
Theorem C2_update_order_changes_root (name0 : string) (a b : Buffer) :
  compress (hash a) (hash b) <> compress (hash b) (hash a) ->
  exists t1 t2,
    freshThenUpdates name0 1 [(0, a); (1, b)] = Ok t1 /\
    freshThenUpdates name0 1 [(1, b); (0, a)] = Ok t2 /\
    (forall k, JsMap.get k (dataBlocks t1) = JsMap.get k (dataBlocks t2)) /\
    getRoot t1 = Some (compress (hash a) (hash b)) /\
    getRoot t2 = Some (compress (hash b) (hash a)) /\
    getRoot t1 <> getRoot t2.
Proof.
  intros Hneq. unfold freshThenUpdates.
  rewrite MerkleTree_new_fresh by (try (unfold inRange, MAX_DEPTH; lia); reflexivity).
  eexists. eexists. split; [lazy; reflexivity|]. split; [lazy; reflexivity|].
  split; [|split; [reflexivity|split; [reflexivity|]]].
  - intros k. cbn.
    destruct (Z.eqb_spec k 0); destruct (Z.eqb_spec k 1); try reflexivity; lia.
  - cbn. intros H. injection H as H. apply Hneq. exact H.
Qed.

(** C3 (the code departs from it).  After [updateElement(1, v)] on a
    fresh tree of depth 1 the hash path of index 1 is the single pair
    (Z[0], hash v); folding it from hash(v), placed right because 1 is
    odd, gives compress(Z[0], hash v), while [getRoot()] is
    compress(hash v, Z[0]). *)
Theorem C3_folded_path_misses_root (name0 : string) (v : Buffer) :
  compress (hash v) (zeroHash 0) <> compress (zeroHash 0) (hash v) ->
  exists t t' r path,
    MerkleTree_new [] name0 1 = Ok t /\
    updateElement t 1 v = Ok (t', r) /\
    getHashPath t' 1 = Ok path /\
    path = [[Some (zeroHash 0); Some (hash v)]] /\
    foldPath 1 (leafOf t' 1) path = Some (compress (zeroHash 0) (hash v)) /\
    getRoot t' = Some (compress (hash v) (zeroHash 0)) /\
    foldPath 1 (leafOf t' 1) path <> getRoot t'.
Proof.
  intros Hneq.
  destruct (update_leaf1 name0 v) as [t [t' [E1 [E2 [R [D [B [Hh Hz]]]]]]]].
  exists t, t', (Some (compress (hash v) (zeroHash 0))),
    [[Some (zeroHash 0); Some (hash v)]].
  split; [exact E1|]. split; [exact E2|].
  assert (P : getHashPath t' 1 = Ok [[Some (zeroHash 0); Some (hash v)]]).
  { unfold getHashPath. rewrite D. cbn [range Z.sub Z.to_nat seq map forM].
    unfold hashPathStep. rewrite Hh, Hz. reflexivity. }
  assert (F : foldPath 1 (leafOf t' 1) [[Some (zeroHash 0); Some (hash v)]]
              = Some (compress (zeroHash 0) (hash v))).
  { unfold leafOf. rewrite B. reflexivity. }
  split; [exact P|]. split; [reflexivity|]. split; [exact F|].
  split; [exact R|].
  rewrite F. unfold getRoot. rewrite R.
  intros H. injection H as H. apply Hneq. symmetry. exact H.
Qed.

(** C4 (the code departs from it).  After the rebuild that follows
    [updateElement(1, v)] on a fresh tree of depth 1, the cache holds
    compress(hash v, Z[0]) for node 0 of level 1, whose children resolve
    to Z[0] (node 0, absent) and hash v (node 1): the parent is not
    compress(left, right). *)
Theorem C4_parent_not_ordered (name0 : string) (v : Buffer) :
  compress (hash v) (zeroHash 0) <> compress (zeroHash 0) (hash v) ->
  exists t t' r,
    MerkleTree_new [] name0 1 = Ok t /\
    updateElement t 1 v = Ok (t', r) /\
    JsArray.get 1 (hashes t') = Some [(0, compress (hash v) (zeroHash 0))] /\
    nodeAt t' 0 0 = zeroHash 0 /\
    nodeAt t' 0 1 = hash v /\
    ~ parentsOrdered t'.
Proof.
  intros Hneq.
  destruct (update_leaf1 name0 v) as [t [t' [E1 [E2 [R [D [B [Hh Hz]]]]]]]].
  exists t, t', (Some (compress (hash v) (zeroHash 0))).
  split; [exact E1|]. split; [exact E2|].
  assert (N0 : nodeAt t' 0 0 = zeroHash 0) by (unfold nodeAt; rewrite Hh; reflexivity).
  assert (N1 : nodeAt t' 0 1 = hash v) by (unfold nodeAt; rewrite Hh; reflexivity).
  split; [rewrite Hh; reflexivity|]. split; [exact N0|]. split; [exact N1|].
  intros Hp.
  specialize (Hp 1 0 [(0, compress (hash v) (zeroHash 0))]
                (compress (hash v) (zeroHash 0))).
  rewrite D, Hh in Hp.
  specialize (Hp ltac:(lia) eq_refl eq_refl).
  change (1 - 1) with 0 in Hp. change (2 * 0 + 1) with 1 in Hp.
  change (2 * 0) with 0 in Hp.
  rewrite N0, N1 in Hp. apply Hneq. exact Hp.
Qed.

(** ** A single update

    What the rebuild computes when one leaf is set: at every level the
    node on the path is compressed with the zero hash on its right,
    wherever the leaf is.  The root is right for leaf 0, where the path
    runs along the left edge of the tree. *)

Fixpoint leftChain (v : Buffer) (level : nat) : Buffer :=
  match level with
  | O => hash v
  | S l => compress (leftChain v l) (zeroHash l)
  end.

Lemma siblingOf_neq (index : Z) : (siblingOf index =? index) = false.
Proof.
  unfold siblingOf. destruct (Z.rem index 2 =? 0); apply Z.eqb_neq; lia.
Qed.

Lemma parentsOf_single (z : Buffer) (k : Z) (x : Buffer) (m : JsMap.t Buffer) :
  parentsOf z [(k, x)] m -> m = [(k / 2, compress x z)].
Proof.
  unfold parentsOf. cbn [JsMap.entries pairLoop JsMap.has JsMap.empty andb negb].
  rewrite siblingOf_neq. cbn [bind defined JsMap.set JsMap.empty].
  rewrite indexOfParentNode_half. intros H. injection H as <-. reflexivity.
Qed.

Lemma chained_single (index : Z) (v : Buffer) (ms : list (JsMap.t Buffer))
    (i : nat) (m : JsMap.t Buffer) :
  chained [(index, v)] ms ->
  nth_error ms i = Some m ->
  m = [(index / 2 ^ Z.of_nat i, leftChain v i)].
Proof.
  intros [H0 Hc]. revert m. induction i as [|i IH]; intros m Hm.
  - rewrite H0 in Hm. injection Hm as <-.
    cbn. rewrite Z.div_1_r. reflexivity.
  - destruct (nth_error_pred ms i m Hm) as [before Hb].
    pose proof (Hc i before m Hb Hm) as Hp.
    rewrite (IH before Hb) in Hp. apply parentsOf_single in Hp.
    rewrite Hp, div_pow2_succ by lia. cbn [leftChain].
    do 3 f_equal. lia.
Qed.

Theorem single_update_root (name0 : string) (d index : Z) (v : Buffer) :
  1 <= d <= 32 ->
  0 <= index < 2 ^ d ->
  exists t t',
    MerkleTree_new [] name0 d = Ok t /\
    updateElement t index v = Ok (t', Some (leftChain v (Z.to_nat d))).
Proof.
  intros Hd Hi.
  rewrite MerkleTree_new_fresh by (try exact Hd; reflexivity).
  match goal with
  | |- exists t t', Ok ?T = Ok t /\ _ =>
      destruct (updateElement_ok T (Z.to_nat d) index v (freshTree_wf _ _ _))
        as [t' [E [W [_ D]]]];
      exists T, t'
  end.
  split; [reflexivity|]. rewrite E. do 2 f_equal.
  destruct W as [_ [_ [ms [top [_ [_ [Hc [Ht Hr]]]]]]]].
  rewrite D in Hc. cbn [freshTree dataBlocks JsMap.set JsMap.empty] in Hc.
  rewrite (chained_single index v ms _ top Hc Ht) in Hr.
  rewrite Hr. unfold rootOf. cbn [JsMap.size List.length JsMap.get].
  rewrite Z2Nat.id by lia. rewrite Z.div_small by lia. reflexivity.
Qed.

Lemma denseNode_zero (v : Buffer) (level : nat) (p : Z) :
  1 <= p -> denseNode (singleLeaf 0 v) level p = zeroHash level.
Proof.
  revert p. induction level as [|l IH]; intros p Hp; cbn [denseNode zeroHash].
  - unfold singleLeaf. destruct (Z.eqb_spec p 0); [lia|reflexivity].
  - rewrite !IH by lia. reflexivity.
Qed.

Lemma denseNode_leaf0 (v : Buffer) (level : nat) :
  denseNode (singleLeaf 0 v) level 0 = leftChain v level.
Proof.
  induction level as [|l IH]; cbn [denseNode leftChain]; [reflexivity|].
  change (2 * 0) with 0. change (0 + 1) with 1.
  rewrite IH, denseNode_zero by lia. reflexivity.
Qed.

(** At leaf 0 the rebuild agrees with the dense reference tree, at every
    depth. *)
Theorem update_leaf0_matches_dense (name0 : string) (d : Z) (v : Buffer) :
  1 <= d <= 32 ->
  exists t t',
    MerkleTree_new [] name0 d = Ok t /\
    updateElement t 0 v = Ok (t', Some (denseRoot (Z.to_nat d) (singleLeaf 0 v))).
Proof.
  intros Hd. unfold denseRoot. rewrite denseNode_leaf0.
  apply single_update_root; [exact Hd|].
  split; [lia|]. apply Z.pow_pos_nonneg; lia.
Qed.

End Specification.

(** * Concrete runs, with the SHA-256 hasher *)

Definition ones64 : Buffer := repeat x01 64.
Definition twos64 : Buffer := repeat x02 64.

(** The instance computes the standard digest of "abc". *)
Example sha256_abc :
  map Sha256.byteZ (Sha256.digest [x61; x62; x63])
  = [186; 120; 22; 191; 143; 1; 207; 234; 65; 65; 64; 222; 93; 174; 34; 35;
     176; 3; 97; 163; 150; 23; 122; 156; 180; 16; 255; 97; 242; 0; 21; 173].
Proof. vm_compute. reflexivity. Qed.

(** Equality of buffers, decided byte by byte. *)
Fixpoint Buffer_eqb (a b : Buffer) : bool :=
  match a, b with
  | [], [] => true
  | x :: a', y :: b' => Byte.eqb x y && Buffer_eqb a' b'
  | _, _ => false
  end.

Lemma Buffer_eqb_refl (a : Buffer) : Buffer_eqb a a = true.
Proof.
  induction a as [|x a IH]; [reflexivity|].
  cbn [Buffer_eqb]. rewrite IH, andb_true_r. apply Byte.byte_dec_lb. reflexivity.
Qed.

Lemma Buffer_eqb_false (a b : Buffer) : Buffer_eqb a b = false -> a <> b.
Proof.
  intros E H. rewrite H, Buffer_eqb_refl in E. discriminate E.
Qed.

(** SHA-256 of a concatenation tells the two orders apart. *)
Lemma sha_order_leaf :
  compress (hash ones64) (zeroHash 0) <> compress (zeroHash 0) (hash ones64).
Proof. apply Buffer_eqb_false. vm_compute. reflexivity. Qed.

Lemma sha_order_pair :
  compress (hash ones64) (hash twos64) <> compress (hash twos64) (hash ones64).
Proof. apply Buffer_eqb_false. vm_compute. reflexivity. Qed.

Lemma C1_witness :
  compress (hash ones64) (zeroHash 0) <> compress (zeroHash 0) (hash ones64) /\
  exists t t' r,
    MerkleTree_new [] "tree"%string 1 = Ok t /\
    updateElement t 1 ones64 = Ok (t', r) /\
    getRoot t' = r /\
    r = Some (compress (hash ones64) (zeroHash 0)) /\
    denseRoot 1 (singleLeaf 1 ones64) = compress (zeroHash 0) (hash ones64) /\
    r <> Some (denseRoot 1 (singleLeaf 1 ones64)).
Proof.
  split; [exact sha_order_leaf|].
  apply (C1_odd_leaf_root_differs "tree"%string ones64). exact sha_order_leaf.
Defined.

Lemma C2_witness :
  compress (hash ones64) (hash twos64) <> compress (hash twos64) (hash ones64) /\
  exists t1 t2,
    freshThenUpdates "tree"%string 1 [(0, ones64); (1, twos64)] = Ok t1 /\
    freshThenUpdates "tree"%string 1 [(1, twos64); (0, ones64)] = Ok t2 /\
    (forall k, JsMap.get k (dataBlocks t1) = JsMap.get k (dataBlocks t2)) /\
    getRoot t1 = Some (compress (hash ones64) (hash twos64)) /\
    getRoot t2 = Some (compress (hash twos64) (hash ones64)) /\
    getRoot t1 <> getRoot t2.
Proof.
  split; [exact sha_order_pair|].
  apply (C2_update_order_changes_root "tree"%string ones64 twos64).
  exact sha_order_pair.
Defined.

Lemma C3_witness :
  compress (hash ones64) (zeroHash 0) <> compress (zeroHash 0) (hash ones64) /\
  exists t t' r path,
    MerkleTree_new [] "tree"%string 1 = Ok t /\
    updateElement t 1 ones64 = Ok (t', r) /\
    getHashPath t' 1 = Ok path /\
    path = [[Some (zeroHash 0); Some (hash ones64)]] /\
    foldPath 1 (leafOf t' 1) path = Some (compress (zeroHash 0) (hash ones64)) /\
    getRoot t' = Some (compress (hash ones64) (zeroHash 0)) /\
    foldPath 1 (leafOf t' 1) path <> getRoot t'.
Proof.
  split; [exact sha_order_leaf|].
  apply (C3_folded_path_misses_root "tree"%string ones64). exact sha_order_leaf.
Defined.

Lemma C4_witness :
  compress (hash ones64) (zeroHash 0) <> compress (zeroHash 0) (hash ones64) /\
  exists t t' r,
    MerkleTree_new [] "tree"%string 1 = Ok t /\
    updateElement t 1 ones64 = Ok (t', r) /\
    JsArray.get 1 (hashes t')
    = Some [(0, compress (hash ones64) (zeroHash 0))] /\
    nodeAt t' 0 0 = zeroHash 0 /\
    nodeAt t' 0 1 = hash ones64 /\
    ~ parentsOrdered t'.
Proof.
  split; [exact sha_order_leaf|].
  apply (C4_parent_not_ordered "tree"%string ones64). exact sha_order_leaf.
Defined.

Lemma C5_witness :
  1 <= 2 <= 32 /\
  exists t t',
    MerkleTree_new [] "tree"%string 2 = Ok t /\
    getRoot t = Some (zeroHash 2) /\
    MerkleTree_new (db t) "tree"%string 2 = Ok t' /\
    getRoot t' = None.
Proof.
  split; [lia|].
  apply (C5_reopened_empty_tree_loses_root "tree"%string 2). lia.
Defined.

Lemma C6_witness :
  1 <= 3 <= 32 /\
  (exists t, constructor [] "tree"%string 3 None = Ok t /\
             getRoot t = Some (zeroHash 3) /\
             zeroHashesByLevel t = zeroTable 3) /\
  (exists t, MerkleTree_new [] "tree"%string 3 = Ok t /\
             getRoot t = Some (zeroHash 3)).
Proof.
  split; [lia|].
  destruct (C6_fresh_root_is_zero_hash [] "tree"%string 3 ltac:(lia)) as [H1 H2].
  split; [exact H1|]. apply H2. reflexivity.
Defined.

Lemma X15_witness :
  1 <= 2 <= 32 /\ 0 <= 1 < 2 ^ 2 /\
  exists t path,
    freshThenUpdates "tree"%string 2 [(1, ones64)] = Ok t /\
    depth t = 2 /\
    getHashPath t 1 = Ok path /\
    Z.of_nat (List.length path) = 2 /\
    forall i, 0 <= i < 2 ->
      walkedIndex 1 (Z.to_nat i) = 1 / 2 ^ i /\
      nth_error path (Z.to_nat i)
      = Some [Some (nodeAt t i (2 * (1 / 2 ^ i / 2)));
              Some (nodeAt t i (2 * (1 / 2 ^ i / 2) + 1))].
Proof.
  split; [lia|]. split; [lia|].
  apply (X15_fresh_path_shape "tree"%string 2 [(1, ones64)] 1); lia.
Defined.

Lemma C8_witness :
  1 <= 5 <= 32 /\
  [(0%nat, []); (1%nat, [(0, ones64)])] <> ([] : Blob) /\
  exists t,
    constructor [] "tree"%string 5 (Some [(0%nat, []); (1%nat, [(0, ones64)])]) = Ok t /\
    depth t = Z.of_nat 2 - 1 /\
    forall index path,
      getHashPath t index = Ok path ->
      Z.of_nat (List.length path) = Z.of_nat 2 - 1.
Proof.
  split; [lia|]. split; [discriminate|].
  apply (C8_persisted_depth_wins [] "tree"%string 5
           [(0%nat, []); (1%nat, [(0, ones64)])]); [lia|discriminate].
Defined.

Lemma C9_witness :
  (0 < 1 \/ 32 < 0) /\
  constructor [] "tree"%string 0 None = Err BadDepth /\
  1 <= 32 <= 32 /\
  constructor [] "tree"%string 32 None <> Err BadDepth.
Proof.
  split; [lia|].
  split; [apply (proj1 (C9_bad_depth [] "tree"%string 0 None)); lia|].
  split; [lia|].
  apply (proj2 (C9_bad_depth [] "tree"%string 32 None)). lia.
Defined.


(** * Further properties of the code *)

Section Coverage.
Context {hasher : Hasher}.

(** ** The state after a run of updates *)

(** The data blocks left by a run of [updateElement] calls: one
    [Map.set] per call. *)
Definition writes (updates : list (Z * Buffer)) : JsMap.t Buffer :=
  fold_left (fun m '(index, value) => JsMap.set index value m) updates JsMap.empty.

(** The blob stored under the name of the tree is the one of its cache. *)
Definition persisted (t : MerkleTree) : Prop :=
  exists ms, hashes t = map Some ms /\
             db_get (name t) (db t) = Some (blobOf ms).

Lemma updateElement_spec (t : MerkleTree) (n : nat) (index : Z) (value : Buffer) :
  depth t = Z.of_nat n ->
  zeroHashesByLevel t = zeroTable n ->
  exists ms top,
    updateElement t index value
    = Ok (mkMerkleTree (db_put (name t) (blobOf ms) (db t)) (name t) (depth t)
            (rootOf n top) (JsMap.set index value (dataBlocks t))
            (map Some ms) (zeroTable n),
          rootOf n top) /\
    List.length ms = S n /\
    chained (JsMap.set index value (dataBlocks t)) ms /\
    nth_error ms n = Some top.
Proof.
  intros Hd Hz. unfold updateElement.
  destruct (generateTreeNodes_spec
              (mkMerkleTree (db t) (name t) (depth t) (root t)
                 (JsMap.set index value (dataBlocks t)) (hashes t)
                 (zeroHashesByLevel t)) n Hd Hz)
    as [ms [top [E [Hlen [Hc Ht]]]]].
  rewrite E. cbn [bind db name depth root dataBlocks].
  rewrite (persistTree_spec _ ms) by reflexivity.
  cbn [bind db name depth root dataBlocks hashes zeroHashesByLevel].
  cbn [dataBlocks] in Hc.
  exists ms, top. split; [reflexivity|]. split; [exact Hlen|].
  split; [exact Hc|exact Ht].
Qed.

(** What holds of a tree after construction without data and any
    updates: it is well formed, its data blocks are the writes, and the
    store holds its cache. *)
Definition inState (name0 : string) (n : nat) (blocks : JsMap.t Buffer)
    (t : MerkleTree) : Prop :=
  wf n t /\ name t = name0 /\ dataBlocks t = blocks /\ persisted t.

Lemma updateElement_inState (name0 : string) (n : nat) (blocks : JsMap.t Buffer)
    (t : MerkleTree) (index : Z) (value : Buffer) :
  inState name0 n blocks t ->
  exists t', updateElement t index value = Ok (t', root t') /\
             inState name0 n (JsMap.set index value blocks) t'.
Proof.
  intros [[Hd [Hz _]] [Hn [Hb _]]].
  destruct (updateElement_spec t n index value Hd Hz) as [ms [top [E [Hlen [Hc Ht]]]]].
  rewrite E. match type of E with _ = Ok (?T, _) => exists T end.
  split; [reflexivity|].
  rewrite Hb in *. rewrite Hn.
  split; [|split; [reflexivity|split; [reflexivity|]]].
  - split; [exact Hd|]. split; [reflexivity|].
    exists ms, top. cbn [hashes dataBlocks root]. repeat split; try assumption; apply Hc.
  - exists ms. cbn [hashes name db]. split; [reflexivity|apply db_get_put].
Qed.

Lemma applyUpdates_inState (name0 : string) (n : nat) (updates : list (Z * Buffer))
    (blocks : JsMap.t Buffer) (t : MerkleTree) :
  inState name0 n blocks t ->
  exists t', applyUpdates t updates = Ok t' /\
             inState name0 n
               (fold_left (fun m '(index, value) => JsMap.set index value m)
                  updates blocks) t'.
Proof.
  revert blocks t. induction updates as [|[index value] rest IH]; intros blocks t H.
  - exists t. split; [reflexivity|exact H].
  - unfold applyUpdates. cbn [forM fold_left].
    destruct (updateElement_inState name0 n blocks t index value H) as [t1 [E1 H1]].
    rewrite E1. cbn [bind fst]. apply IH. exact H1.
Qed.

Lemma freshTree_inState (name0 : string) (n : nat) :
  inState name0 n JsMap.empty
    (freshTree (db_put name0 (blobOf (repeat JsMap.empty (S n))) []) name0 n).
Proof.
  split; [apply freshTree_wf|]. split; [reflexivity|]. split; [reflexivity|].
  exists (repeat JsMap.empty (S n)). split; [reflexivity|].
  cbn [freshTree name db]. apply db_get_put.
Qed.

Lemma freshThenUpdates_inState (name0 : string) (d : Z) (updates : list (Z * Buffer)) :
  inRange d ->
  exists t, freshThenUpdates name0 d updates = Ok t /\
            inState name0 (Z.to_nat d) (writes updates) t.
Proof.
  intros Hd. unfold freshThenUpdates.
  rewrite MerkleTree_new_fresh by (try assumption; reflexivity).
  cbn [bind]. apply applyUpdates_inState, freshTree_inState.
Qed.

(** The levels chained from given data blocks are determined by them. *)
Lemma chained_functional (blocks : JsMap.t Buffer) (ms ms' : list (JsMap.t Buffer)) :
  chained blocks ms -> chained blocks ms' ->
  List.length ms = List.length ms' ->
  ms = ms'.
Proof.
  intros [H0 Hc] [H0' Hc'] Hlen. apply nth_error_ext. intros i.
  induction i as [|i IH]; [congruence|].
  destruct (nth_error ms (S i)) as [m|] eqn:E.
  - destruct (nth_error_pred ms i m E) as [before Hb].
    destruct (nth_error ms' (S i)) as [m'|] eqn:E'.
    + rewrite Hb in IH. symmetry in IH.
      pose proof (Hc i before m Hb E) as P.
      pose proof (Hc' i before m' IH E') as P'.
      unfold parentsOf in P, P'. congruence.
    + apply nth_error_None in E'.
      assert (Hn : nth_error ms (S i) <> None) by congruence.
      apply nth_error_Some in Hn. lia.
  - apply nth_error_None in E.
    symmetry. apply nth_error_None. lia.
Qed.

Lemma inState_functional (name0 : string) (n : nat) (blocks : JsMap.t Buffer)
    (t t' : MerkleTree) :
  inState name0 n blocks t -> inState name0 n blocks t' ->
  hashes t = hashes t' /\ root t = root t'.
Proof.
  intros [[_ [_ [ms [top [Hh [Hlen [Hc [Ht Hr]]]]]]]] [_ [Hb _]]]
         [[_ [_ [ms' [top' [Hh' [Hlen' [Hc' [Ht' Hr']]]]]]]] [_ [Hb' _]]].
  rewrite Hb in Hc. rewrite Hb' in Hc'.
  assert (ms = ms') by (apply (chained_functional blocks); congruence).
  subst ms'. split; [congruence|]. rewrite Ht in Ht'. congruence.
Qed.

(** ** Index arithmetic *)

(** X1.  [indexOfParentNode] is the floor of half the index in both of
    its branches, for every safe integer index, negative ones included;
    a node and the sibling the loops pair it with ([index + 1] when even,
    [index - 1] when odd) have the same parent, the sibling of the
    sibling is the node itself, and the two are the children [2p] and
    [2p + 1] of that parent. *)
Theorem X1_siblings_share_parent (index : Z) :
  isSafeInteger index ->
  indexOfParentNode index = index / 2 /\
  indexOfParentNode (siblingOf index) = indexOfParentNode index /\
  siblingOf (siblingOf index) = index /\
  ((index = 2 * indexOfParentNode index /\
    siblingOf index = 2 * indexOfParentNode index + 1) \/
   (index = 2 * indexOfParentNode index + 1 /\
    siblingOf index = 2 * indexOfParentNode index)).
Proof.
  intros _. rewrite !indexOfParentNode_half.
  destruct (Z.eq_dec (Z.rem index 2) 0) as [E|E].
  - destruct (siblingOf_even index E) as [Hs Hi]. rewrite Hs.
    assert (E' : Z.rem (index + 1) 2 <> 0).
    { rewrite rem2_even in *. Z.to_euclidean_division_equations. lia. }
    destruct (siblingOf_odd (index + 1) E') as [Hs' _].
    split; [reflexivity|]. split; [Z.to_euclidean_division_equations; lia|].
    split; [lia|]. left. lia.
  - destruct (siblingOf_odd index E) as [Hs Hi]. rewrite Hs.
    assert (E' : Z.rem (index - 1) 2 = 0).
    { rewrite rem2_even in *. Z.to_euclidean_division_equations. lia. }
    destruct (siblingOf_even (index - 1) E') as [Hs' _].
    split; [reflexivity|]. split; [Z.to_euclidean_division_equations; lia|].
    split; [lia|]. right. lia.
Qed.

(** ** Writing a leaf again *)

Lemma JsMap_set_set (V : Type) (k : Z) (v1 v2 : V) (m : JsMap.t V) :
  JsMap.set k v2 (JsMap.set k v1 m) = JsMap.set k v2 m.
Proof.
  induction m as [|[k0 v0] m IH]; cbn [JsMap.set].
  - rewrite Z.eqb_refl. reflexivity.
  - destruct (k =? k0) eqn:E; cbn [JsMap.set].
    + rewrite Z.eqb_refl. reflexivity.
    + rewrite E, IH. reflexivity.
Qed.

Lemma writes_app (u1 u2 : list (Z * Buffer)) :
  writes (u1 ++ u2)
  = fold_left (fun m '(index, value) => JsMap.set index value m) u2 (writes u1).
Proof. unfold writes. apply fold_left_app. Qed.

Lemma getHashPath_same_cache (t1 t2 : MerkleTree) (n : nat) (index : Z) :
  shaped n t1 -> shaped n t2 -> hashes t1 = hashes t2 ->
  getHashPath t1 index = getHashPath t2 index.
Proof.
  intros S1 S2 Hh.
  rewrite (getHashPath_spec t1 n index S1), (getHashPath_spec t2 n index S2).
  f_equal. apply map_ext. intros i. unfold pathEntry, nodeAt. rewrite Hh.
  reflexivity.
Qed.

(** X2.  The last write to a leaf wins: after any run of updates on a
    fresh tree, [updateElement(index, v1)] followed by
    [updateElement(index, v2)] leaves the data blocks, the whole cache,
    the root and every hash path that [updateElement(index, v2)] alone
    leaves.  With [v1 = v2], updating twice is updating once. *)
Theorem X2_last_write_wins (name0 : string) (d : Z)
    (updates : list (Z * Buffer)) (index : Z) (v1 v2 : Buffer) :
  1 <= d <= 32 ->
  exists t1 t2,
    freshThenUpdates name0 d (updates ++ [(index, v1); (index, v2)]) = Ok t1 /\
    freshThenUpdates name0 d (updates ++ [(index, v2)]) = Ok t2 /\
    dataBlocks t1 = dataBlocks t2 /\
    hashes t1 = hashes t2 /\
    getRoot t1 = getRoot t2 /\
    forall i, getHashPath t1 i = getHashPath t2 i.
Proof.
  intros Hd.
  destruct (freshThenUpdates_inState name0 d (updates ++ [(index, v1); (index, v2)]) Hd)
    as [t1 [E1 S1]].
  destruct (freshThenUpdates_inState name0 d (updates ++ [(index, v2)]) Hd)
    as [t2 [E2 S2]].
  exists t1, t2. split; [exact E1|]. split; [exact E2|].
  assert (W : writes (updates ++ [(index, v1); (index, v2)])
              = writes (updates ++ [(index, v2)])).
  { rewrite !writes_app. cbn [fold_left]. apply JsMap_set_set. }
  rewrite W in S1.
  destruct (inState_functional _ _ _ t1 t2 S1 S2) as [Hh Hr].
  split; [destruct S1 as [_ [_ [-> _]]]; destruct S2 as [_ [_ [-> _]]]; reflexivity|].
  split; [exact Hh|]. split; [exact Hr|].
  intros i. apply (getHashPath_same_cache t1 t2 (Z.to_nat d));
    [apply wf_shaped, S1|apply wf_shaped, S2|exact Hh].
Qed.

(** ** The leaf level *)

(** The value the last [updateElement(k, _)] of a run wrote, if any. *)
Definition lastWrite (k : Z) (updates : list (Z * Buffer)) : option Buffer :=
  fold_left (fun acc '(index, value) => if k =? index then Some value else acc)
    updates None.

Lemma writes_get (k : Z) (updates : list (Z * Buffer)) (m : JsMap.t Buffer) :
  JsMap.get k (fold_left (fun m '(index, value) => JsMap.set index value m) updates m)
  = fold_left (fun acc '(index, value) => if k =? index then Some value else acc)
      updates (JsMap.get k m).
Proof.
  revert m. induction updates as [|[index value] rest IH]; intros m; cbn [fold_left];
    [reflexivity|].
  rewrite IH, JsMap_get_set. reflexivity.
Qed.

Lemma writes_unique (updates : list (Z * Buffer)) : uniqueKeys (writes updates).
Proof.
  unfold writes.
  assert (G : forall m : JsMap.t Buffer, uniqueKeys m ->
              uniqueKeys (fold_left (fun m '(index, value) => JsMap.set index value m)
                            updates m)).
  { induction updates as [|[index value] rest IH]; intros m Hm; cbn [fold_left];
      [exact Hm|]. apply IH, JsMap_set_unique, Hm. }
  apply G. constructor.
Qed.

Lemma level0_fold_get (k : Z) (entries : list (Z * Buffer)) (m : JsMap.t Buffer) :
  uniqueKeys entries ->
  JsMap.get k (fold_left (fun m '(index, buffer) => JsMap.set index (hash buffer) m)
                 entries m)
  = match JsMap.get k entries with
    | Some b => Some (hash b)
    | None => JsMap.get k m
    end.
Proof.
  revert m. induction entries as [|[k0 b0] l IH]; intros m H;
    cbn [fold_left JsMap.get]; [reflexivity|].
  inversion H as [|x l' Hx Hl]; subst.
  rewrite IH by exact Hl. rewrite JsMap_get_set.
  destruct (Z.eqb_spec k k0) as [->|Hne]; [|reflexivity].
  rewrite (JsMap_get_notin _ k0 l Hx). reflexivity.
Qed.

Lemma level0Of_get (k : Z) (blocks : JsMap.t Buffer) :
  uniqueKeys blocks ->
  JsMap.get k (level0Of blocks) = option_map hash (JsMap.get k blocks).
Proof.
  intros H. unfold level0Of, JsMap.entries. rewrite level0_fold_get by exact H.
  destruct (JsMap.get k blocks); reflexivity.
Qed.

(** X3.  After any run of updates on a fresh tree, the data block of an
    index is the value last written there (none when it was never
    written), and level 0 of the cache holds, for exactly the written
    indices, the hash of that value. *)
Theorem X3_leaf_level (name0 : string) (d : Z) (updates : list (Z * Buffer)) :
  1 <= d <= 32 ->
  exists t level0,
    freshThenUpdates name0 d updates = Ok t /\
    JsArray.get 0 (hashes t) = Some level0 /\
    forall k,
      JsMap.get k (dataBlocks t) = lastWrite k updates /\
      JsMap.get k level0 = option_map hash (lastWrite k updates) /\
      JsMap.has k level0 = JsMap.has k (dataBlocks t).
Proof.
  intros Hd.
  destruct (freshThenUpdates_inState name0 d updates Hd) as [t [E [W [_ [Hb _]]]]].
  destruct W as [_ [_ [ms [top [Hh [Hlen [[H0 _] _]]]]]]].
  exists t, (level0Of (dataBlocks t)). split; [exact E|].
  split; [rewrite Hh; apply JsArray_get_some; [lia|exact H0]|].
  intros k.
  assert (G : JsMap.get k (dataBlocks t) = lastWrite k updates).
  { rewrite Hb. unfold writes, lastWrite. apply writes_get. }
  assert (L : JsMap.get k (level0Of (dataBlocks t))
              = option_map hash (lastWrite k updates)).
  { rewrite level0Of_get by (rewrite Hb; apply writes_unique).
    rewrite G. reflexivity. }
  split; [exact G|]. split; [exact L|].
  rewrite !JsMap_has_get, L, G. destruct (lastWrite k updates); reflexivity.
Qed.

(** ** Which nodes the cache holds *)

Lemma JsMap_has_set (V : Type) (k k' : Z) (v : V) (m : JsMap.t V) :
  JsMap.has k' (JsMap.set k v m) = (k' =? k) || JsMap.has k' m.
Proof.
  rewrite !JsMap_has_get, JsMap_get_set. destruct (k' =? k); reflexivity.
Qed.

Lemma JsMap_has_in (V : Type) (k : Z) (m : JsMap.t V) :
  JsMap.has k m = true <-> In k (map fst m).
Proof.
  rewrite JsMap_has_get. split.
  - intros H. destruct (in_dec Z.eq_dec k (map fst m)) as [I|N]; [exact I|].
    rewrite (JsMap_get_notin _ k m N) in H. discriminate.
  - intros I. destruct (JsMap_get_in _ k m I) as [v ->]. reflexivity.
Qed.

Lemma sibling_half (index : Z) : siblingOf index / 2 = index / 2.
Proof.
  destruct (Z.eq_dec (Z.rem index 2) 0) as [E|E].
  - destruct (siblingOf_even index E) as [-> _].
    rewrite rem2_even in E. Z.to_euclidean_division_equations. lia.
  - destruct (siblingOf_odd index E) as [-> _].
    rewrite rem2_even in E. Z.to_euclidean_division_equations. lia.
Qed.

Lemma pairLoop_keys (z : Buffer) (before : JsMap.t Buffer)
    (entries : list (Z * Buffer)) (cur : JsMap.t Buffer)
    (processed : JsMap.t bool) (m : JsMap.t Buffer) :
  (forall k, JsMap.has k processed = true -> JsMap.has (k / 2) cur = true) ->
  pairLoop (Some z) before entries cur processed = Ok m ->
  forall p, JsMap.has p m = true <->
            (JsMap.has p cur = true \/ exists k, In k (map fst entries) /\ k / 2 = p).
Proof.
  revert cur processed.
  induction entries as [|[index x] rest IH]; intros cur processed Inv H p;
    cbn [pairLoop] in H.
  - injection H as <-. cbn [map In]. split; [intros Hp; left; exact Hp|].
    intros [Hp|[k [[] _]]]. exact Hp.
  - cbn [map fst In].
    destruct (JsMap.has (siblingOf index) processed && JsMap.has index processed)
      eqn:B; cbn [negb bind] in H.
    + apply andb_prop in B. destruct B as [Bs Bi].
      assert (Inv' : forall k,
                 JsMap.has k (JsMap.set (siblingOf index) true
                                (JsMap.set index true processed)) = true ->
                 JsMap.has (k / 2) cur = true).
      { intros k. rewrite !JsMap_has_set.
        destruct (Z.eqb_spec k (siblingOf index)) as [->|Ns];
          [intros _; rewrite sibling_half; apply Inv; exact Bi|].
        destruct (Z.eqb_spec k index) as [->|Ni]; [intros _; apply Inv; exact Bi|].
        cbn [orb]. apply Inv. }
      rewrite (IH cur _ Inv' H p).
      split; [intros [Hp|[k [Hk Ek]]]|intros [Hp|[k [[Hk|Hk] Ek]]]].
      * left. exact Hp.
      * right. exists k. split; [right; exact Hk|exact Ek].
      * left. exact Hp.
      * left. subst. apply Inv. exact Bi.
      * right. exists k. split; assumption.
    + rewrite JsMap_has_get in H.
      assert (Hs : exists s,
                 (if match JsMap.get (siblingOf index) before with
                     | Some _ => true
                     | None => false
                     end
                  then JsMap.get (siblingOf index) before else Some z) = Some s).
      { destruct (JsMap.get (siblingOf index) before) as [s|]; eexists; reflexivity. }
      destruct Hs as [s Hs]. rewrite Hs in H. cbn [bind defined] in H.
      rewrite indexOfParentNode_half in H.
      assert (Inv' : forall k,
                 JsMap.has k (JsMap.set (siblingOf index) true
                                (JsMap.set index true processed)) = true ->
                 JsMap.has (k / 2) (JsMap.set (index / 2) (compress x s) cur) = true).
      { intros k. rewrite !JsMap_has_set.
        destruct (Z.eqb_spec k (siblingOf index)) as [->|Ns];
          [intros _; rewrite sibling_half, Z.eqb_refl; reflexivity|].
        destruct (Z.eqb_spec k index) as [->|Ni];
          [intros _; rewrite Z.eqb_refl; reflexivity|].
        cbn [orb]. intros Hk. rewrite (Inv k Hk). apply orb_true_r. }
      rewrite (IH _ _ Inv' H p), JsMap_has_set.
      split; [intros [Hp|[k [Hk Ek]]]|intros [Hp|[k [[Hk|Hk] Ek]]]].
      * apply orb_prop in Hp. destruct Hp as [Hp|Hp]; [|left; exact Hp].
        right. exists index. split; [left; reflexivity|].
        apply Z.eqb_eq in Hp. symmetry. exact Hp.
      * right. exists k. split; [right; exact Hk|exact Ek].
      * left. rewrite Hp. apply orb_true_r.
      * left. subst. rewrite Z.eqb_refl. reflexivity.
      * right. exists k. split; assumption.
Qed.

Lemma chained_keys (blocks : JsMap.t Buffer) (ms : list (JsMap.t Buffer))
    (i : nat) (m : JsMap.t Buffer) :
  chained blocks ms -> nth_error ms i = Some m ->
  forall p, JsMap.has p m = true <->
            exists index, JsMap.has index (level0Of blocks) = true /\
                          index / 2 ^ Z.of_nat i = p.
Proof.
  intros [H0 Hc]. revert m. induction i as [|i IH]; intros m Hm p.
  - rewrite H0 in Hm. injection Hm as <-. cbn [Z.of_nat]. rewrite Z.pow_0_r.
    split.
    + intros H. exists p. split; [exact H|apply Z.div_1_r].
    + intros [index [H E]]. rewrite Z.div_1_r in E. subst. exact H.
  - destruct (nth_error_pred ms i m Hm) as [before Hb].
    pose proof (Hc i before m Hb Hm) as Hp. unfold parentsOf in Hp.
    rewrite (pairLoop_keys _ _ _ _ _ _ (fun k (F : JsMap.has k JsMap.empty = true) =>
                                          False_ind _ (Bool.diff_false_true F)) Hp p).
    unfold JsMap.entries. cbn [JsMap.has JsMap.empty].
    replace (Z.of_nat (S i)) with (Z.of_nat i + 1) by lia.
    split.
    + intros [F|[k [Hk Ek]]]; [discriminate|].
      apply JsMap_has_in in Hk. apply (IH before Hb) in Hk.
      destruct Hk as [index [Hi Ei]]. exists index. split; [exact Hi|].
      rewrite <- div_pow2_succ by lia. rewrite Ei. exact Ek.
    + intros [index [Hi Ei]]. right. exists (index / 2 ^ Z.of_nat i).
      split; [|rewrite div_pow2_succ by lia; exact Ei].
      apply JsMap_has_in. apply (IH before Hb). exists index. split; [exact Hi|reflexivity].
Qed.

Lemma writes_keys (k : Z) (updates : list (Z * Buffer)) :
  JsMap.has k (writes updates) = true <-> In k (map fst updates).
Proof.
  rewrite JsMap_has_in. unfold writes.
  assert (G : forall m : JsMap.t Buffer,
              In k (map fst (fold_left (fun m '(index, value) => JsMap.set index value m)
                               updates m))
              <-> In k (map fst m) \/ In k (map fst updates)).
  { induction updates as [|[index value] rest IH]; intros m; cbn [fold_left map fst In].
    - intuition.
    - rewrite IH, JsMap_set_keys. intuition. }
  rewrite G. cbn. intuition.
Qed.

(** X5.  After any run of updates at safe integer indices on a fresh
    tree the cache holds, at level i, exactly the ancestors of the
    written leaves: node p is cached at level i if and only if some
    written index has [index / 2^i = p]. *)
Theorem X5_cache_is_ancestors (name0 : string) (d : Z) (updates : list (Z * Buffer)) :
  1 <= d <= 32 ->
  Forall (fun u => isSafeInteger (fst u)) updates ->
  exists t,
    freshThenUpdates name0 d updates = Ok t /\
    forall i, 0 <= i <= d ->
      exists level,
        JsArray.get i (hashes t) = Some level /\
        forall p, JsMap.has p level = true <->
                  exists index, In index (map fst updates) /\ index / 2 ^ i = p.
Proof.
  intros Hd _.
  destruct (freshThenUpdates_inState name0 d updates Hd) as [t [E [W [_ [Hb _]]]]].
  exists t. split; [exact E|]. intros i Hi.
  destruct W as [_ [_ [ms [top [Hh [Hlen [Hc _]]]]]]].
  destruct (nth_error ms (Z.to_nat i)) as [level|] eqn:El.
  2:{ apply nth_error_None in El. lia. }
  exists level. split; [rewrite Hh; apply JsArray_get_some; [lia|exact El]|].
  intros p. rewrite (chained_keys _ ms _ level Hc El p), Z2Nat.id by lia.
  rewrite Hb.
  split; intros [index [Hx Ex]]; exists index; (split; [|exact Ex]).
  - apply writes_keys. rewrite JsMap_has_get in *.
    rewrite level0Of_get in Hx by apply writes_unique.
    destruct (JsMap.get index (writes updates)); [reflexivity|discriminate].
  - apply writes_keys in Hx. rewrite JsMap_has_get in *.
    rewrite level0Of_get by apply writes_unique.
    destruct (JsMap.get index (writes updates)); [reflexivity|discriminate].
Qed.

Lemma inState_level_keys (name0 : string) (n : nat) (updates : list (Z * Buffer))
    (t : MerkleTree) (i : Z) :
  inState name0 n (writes updates) t ->
  0 <= i <= Z.of_nat n ->
  exists level,
    JsArray.get i (hashes t) = Some level /\
    uniqueKeys level /\
    forall p, JsMap.has p level = true <->
              exists index, In index (map fst updates) /\ index / 2 ^ i = p.
Proof.
  intros [W [_ [Hb _]]] Hi.
  destruct W as [_ [_ [ms [top [Hh [Hlen [Hc _]]]]]]].
  destruct (nth_error ms (Z.to_nat i)) as [level|] eqn:El.
  2:{ apply nth_error_None in El. lia. }
  exists level.
  split; [rewrite Hh; apply JsArray_get_some; [lia|exact El]|].
  split; [exact (chained_unique _ ms _ level Hc El)|].
  intros p. rewrite (chained_keys _ ms _ level Hc El p), Z2Nat.id by lia.
  rewrite Hb.
  split; intros [index [Hx Ex]]; exists index; (split; [|exact Ex]).
  - apply writes_keys. rewrite JsMap_has_get in *.
    rewrite level0Of_get in Hx by apply writes_unique.
    destruct (JsMap.get index (writes updates)); [reflexivity|discriminate].
  - apply writes_keys in Hx. rewrite JsMap_has_get in *.
    rewrite level0Of_get by apply writes_unique.
    destruct (JsMap.get index (writes updates)); [reflexivity|discriminate].
Qed.

Lemma inState_top (name0 : string) (n : nat) (blocks : JsMap.t Buffer)
    (t : MerkleTree) :
  inState name0 n blocks t ->
  exists top, JsArray.get (Z.of_nat n) (hashes t) = Some top /\
              root t = rootOf n top.
Proof.
  intros [[_ [_ [ms [top [Hh [Hlen [_ [Ht Hr]]]]]]]] _].
  exists top. split; [|exact Hr].
  rewrite Hh. apply JsArray_get_some; [lia|rewrite Nat2Z.id; exact Ht].
Qed.

Lemma JsMap_size_zero (V : Type) (m : JsMap.t V) :
  (JsMap.size m =? 0) = true -> forall k, JsMap.has k m = false.
Proof.
  destruct m as [|e m]; [reflexivity|].
  unfold JsMap.size. cbn [List.length]. intros H. apply Z.eqb_eq in H. lia.
Qed.

Lemma JsMap_size_has (V : Type) (m : JsMap.t V) (k : Z) :
  JsMap.has k m = true -> (JsMap.size m =? 0) = false.
Proof.
  destruct m as [|e m]; [discriminate|]. intros _.
  unfold JsMap.size. cbn [List.length]. apply Z.eqb_neq. lia.
Qed.

(** ** When the root is defined *)

(** X6.  After a run of updates on a fresh tree of depth d, [getRoot()]
    is the cached node 0 of level d as soon as one update was at an index
    in [0, 2^d); when updates were made and every one of them was at an
    index outside [0, 2^d), [updateElement] has not thrown and
    [getRoot()] is undefined. *)
Theorem X6_root_defined (name0 : string) (d : Z) (updates : list (Z * Buffer)) :
  1 <= d <= 32 ->
  exists t top,
    freshThenUpdates name0 d updates = Ok t /\
    JsArray.get d (hashes t) = Some top /\
    (Exists (fun u => 0 <= fst u < 2 ^ d) updates ->
     exists r, getRoot t = Some r /\ JsMap.get 0 top = Some r) /\
    (updates <> [] -> Forall (fun u => ~ 0 <= fst u < 2 ^ d) updates ->
     getRoot t = None).
Proof.
  intros Hd.
  destruct (freshThenUpdates_inState name0 d updates Hd) as [t [E S]].
  destruct (inState_top _ _ _ t S) as [top [Ht Hr]].
  destruct (inState_level_keys name0 _ updates t d S ltac:(lia))
    as [top' [Ht' [_ Hk]]].
  rewrite Z2Nat.id in Ht by lia. rewrite Ht in Ht'. injection Ht' as <-.
  exists t, top. split; [exact E|]. split; [exact Ht|].
  assert (P : 0 < 2 ^ d) by (apply Z.pow_pos_nonneg; lia).
  unfold getRoot. rewrite Hr. unfold rootOf. split.
  - intros Hex. apply Exists_exists in Hex. destruct Hex as [[index v] [Hin Hrange]].
    cbn [fst] in Hrange.
    assert (H0 : JsMap.has 0 top = true).
    { apply Hk. exists index. split; [apply (in_map fst) in Hin; exact Hin|].
      apply Z.div_small. exact Hrange. }
    rewrite (JsMap_size_has _ top 0 H0).
    rewrite JsMap_has_get in H0.
    destruct (JsMap.get 0 top) as [r|]; [|discriminate].
    exists r. split; reflexivity.
  - intros Hne Hall. destruct updates as [|[index v] rest]; [contradiction|].
    assert (H1 : JsMap.has (index / 2 ^ d) top = true).
    { apply Hk. exists index. split; [left; reflexivity|reflexivity]. }
    rewrite (JsMap_size_has _ top _ H1).
    destruct (JsMap.get 0 top) as [r|] eqn:G; [|reflexivity].
    assert (H0 : JsMap.has 0 top = true) by (rewrite JsMap_has_get, G; reflexivity).
    apply Hk in H0. destruct H0 as [j [Hj Ej]].
    apply in_map_iff in Hj. destruct Hj as [[j' w] [Ej' Hin]]. cbn [fst] in Ej'. subst j'.
    rewrite Forall_forall in Hall. specialize (Hall _ Hin). cbn [fst] in Hall.
    exfalso. apply Hall.
    apply Z.div_small_iff in Ej; [|lia]. lia.
Qed.

(** ** What a cached parent holds *)

(** [h] is [compress] of a cached child [k] of [p] and of the digest its
    sibling resolves to, the cached child first. *)
Definition cachedChildFirst (z : Buffer) (before : JsMap.t Buffer) (p : Z)
    (h : Buffer) : Prop :=
  exists k x,
    k / 2 = p /\ JsMap.get k before = Some x /\
    h = compress x (resolved z before (siblingOf k)).

Lemma pairLoop_cachedChildFirst (z : Buffer) (before : JsMap.t Buffer)
    (entries : list (Z * Buffer)) (cur : JsMap.t Buffer)
    (processed : JsMap.t bool) (m : JsMap.t Buffer) :
  uniqueKeys before -> incl entries before ->
  (forall p h, JsMap.get p cur = Some h -> cachedChildFirst z before p h) ->
  pairLoop (Some z) before entries cur processed = Ok m ->
  forall p h, JsMap.get p m = Some h -> cachedChildFirst z before p h.
Proof.
  intros Hu. revert cur processed.
  induction entries as [|[index x] rest IH]; intros cur processed Hin Hc H;
    cbn [pairLoop] in H.
  - injection H as <-. exact Hc.
  - assert (Hrest : incl rest before) by (intros e He; apply Hin; right; exact He).
    destruct (negb _); cbn [bind] in H; [|exact (IH _ _ Hrest Hc H)].
    rewrite JsMap_has_get in H.
    assert (Hs : (if match JsMap.get (siblingOf index) before with
                     | Some _ => true
                     | None => false
                     end
                  then JsMap.get (siblingOf index) before else Some z)
                 = Some (resolved z before (siblingOf index))).
    { unfold resolved. destruct (JsMap.get (siblingOf index) before); reflexivity. }
    rewrite Hs in H. cbn [bind defined] in H.
    refine (IH _ _ Hrest _ H).
    intros p h. rewrite JsMap_get_set, indexOfParentNode_half.
    destruct (Z.eqb_spec p (index / 2)) as [->|Hne]; [|apply Hc].
    intros E. injection E as <-.
    exists index, x. split; [reflexivity|]. split; [|reflexivity].
    apply JsMap_get_unique; [exact Hu|]. apply Hin. left. reflexivity.
Qed.

(** [h] is [compress] of the first entry [(k, x)] of [done_], in
    iteration order, that is a child of [p], and of the digest the
    sibling of [k] resolves to: the entry iterated on comes first. *)
Definition firstChildOf (z : Buffer) (before : JsMap.t Buffer) (p : Z)
    (h : Buffer) (done_ : list (Z * Buffer)) : Prop :=
  exists pre k x post,
    done_ = pre ++ (k, x) :: post /\
    k / 2 = p /\
    (forall e, In e pre -> fst e / 2 <> p) /\
    h = compress x (resolved z before (siblingOf k)).

Lemma firstChildOf_snoc (z : Buffer) (before : JsMap.t Buffer) (p : Z)
    (h : Buffer) (done_ : list (Z * Buffer)) (e : Z * Buffer) :
  firstChildOf z before p h done_ -> firstChildOf z before p h (done_ ++ [e]).
Proof.
  intros [pre [k [x [post [-> [Ek [Hpre Eh]]]]]]].
  exists pre, k, x, (post ++ [e]). split; [|repeat split; assumption].
  rewrite <- app_assoc. reflexivity.
Qed.

Lemma same_half (j index : Z) :
  j / 2 = index / 2 -> j = index \/ j = siblingOf index.
Proof.
  intros H. destruct (Z.eq_dec (Z.rem index 2) 0) as [E|E].
  - destruct (siblingOf_even index E) as [-> _].
    rewrite rem2_even in E. Z.to_euclidean_division_equations. lia.
  - destruct (siblingOf_odd index E) as [-> _].
    rewrite rem2_even in E. Z.to_euclidean_division_equations. lia.
Qed.

Lemma pairLoop_firstChild (z : Buffer) (before : JsMap.t Buffer)
    (entries done_ : list (Z * Buffer)) (cur : JsMap.t Buffer)
    (processed : JsMap.t bool) (m : JsMap.t Buffer) :
  (forall p h, JsMap.get p cur = Some h -> firstChildOf z before p h done_) ->
  (forall e j, In e done_ -> j / 2 = fst e / 2 -> JsMap.has j processed = true) ->
  pairLoop (Some z) before entries cur processed = Ok m ->
  forall p h, JsMap.get p m = Some h -> firstChildOf z before p h (done_ ++ entries).
Proof.
  revert done_ cur processed.
  induction entries as [|[index x] rest IH]; intros done_ cur processed Hc Hp H;
    cbn [pairLoop] in H.
  - injection H as <-. rewrite app_nil_r. exact Hc.
  - replace (done_ ++ (index, x) :: rest) with ((done_ ++ [(index, x)]) ++ rest)
      by (rewrite <- app_assoc; reflexivity).
    assert (Hp' : forall e j, In e (done_ ++ [(index, x)]) -> j / 2 = fst e / 2 ->
                  JsMap.has j (JsMap.set (siblingOf index) true
                                 (JsMap.set index true processed)) = true).
    { intros e j Hin Ej. rewrite !JsMap_has_set.
      apply in_app_or in Hin. destruct Hin as [Hin|[<-|[]]].
      - rewrite (Hp e j Hin Ej), !orb_true_r. reflexivity.
      - cbn [fst] in Ej. destruct (same_half j index Ej) as [->| ->].
        + rewrite Z.eqb_refl, orb_true_r. reflexivity.
        + rewrite Z.eqb_refl. reflexivity. }
    destruct (negb (JsMap.has (siblingOf index) processed && JsMap.has index processed))
      eqn:Eb; cbn [bind] in H.
    + rewrite JsMap_has_get in H.
      assert (Hs : (if match JsMap.get (siblingOf index) before with
                       | Some _ => true
                       | None => false
                       end
                    then JsMap.get (siblingOf index) before else Some z)
                   = Some (resolved z before (siblingOf index))).
      { unfold resolved. destruct (JsMap.get (siblingOf index) before); reflexivity. }
      rewrite Hs in H. cbn [bind defined] in H.
      refine (IH _ _ _ _ Hp' H).
      intros p h. rewrite JsMap_get_set, indexOfParentNode_half.
      destruct (Z.eqb_spec p (index / 2)) as [->|Hne];
        [|intros G; apply firstChildOf_snoc, Hc, G].
      intros G. injection G as <-.
      exists done_, index, x, []. split; [reflexivity|]. split; [reflexivity|].
      split; [|reflexivity].
      intros e Hin Ee.
      rewrite (Hp e index Hin (eq_sym Ee)) in Eb.
      rewrite (Hp e (siblingOf index) Hin) in Eb
        by (rewrite sibling_half; symmetry; exact Ee).
      discriminate Eb.
    + refine (IH _ _ _ _ Hp' H).
      intros p h G. apply firstChildOf_snoc, Hc, G.
Qed.

(** X4.  After any run of updates at safe integer indices on a fresh
    tree, every cached node p of a level i >= 1 is [compress(a, b)]
    where [a] is the cached digest of the child of p that comes first in
    the iteration order of level i-1 (no entry before it is a child of
    p) and [b] is the digest of the other child, cached or the zero hash
    of level i-1.  (The child iterated on comes first whether it is the
    left or the right one.) *)
Theorem X4_parent_from_cached_child (name0 : string) (d : Z)
    (updates : list (Z * Buffer)) :
  1 <= d <= 32 ->
  Forall (fun u => isSafeInteger (fst u)) updates ->
  exists t,
    freshThenUpdates name0 d updates = Ok t /\
    forall i p level h,
      1 <= i <= d ->
      JsArray.get i (hashes t) = Some level ->
      JsMap.get p level = Some h ->
      exists below pre k a post,
        JsArray.get (i - 1) (hashes t) = Some below /\
        JsMap.entries below = pre ++ (k, a) :: post /\
        (k = 2 * p \/ k = 2 * p + 1) /\
        (forall e, In e pre -> fst e <> 2 * p /\ fst e <> 2 * p + 1) /\
        JsMap.get k below = Some a /\
        h = compress a (nodeAt t (i - 1) (siblingOf k)).
Proof.
  intros Hd _.
  destruct (freshThenUpdates_inState name0 d updates Hd) as [t [E [W _]]].
  exists t. split; [exact E|].
  intros i p level h Hi Hl Hg.
  destruct W as [_ [_ [ms [top [Hh [Hlen [Hc _]]]]]]].
  rewrite Hh in Hl.
  destruct (nth_error ms (Z.to_nat i)) as [m|] eqn:Em.
  2:{ apply nth_error_None in Em. lia. }
  rewrite (JsArray_get_some _ i ms m) in Hl by (try lia; exact Em).
  injection Hl as ->.
  replace (Z.to_nat i) with (S (Z.to_nat (i - 1))) in Em by lia.
  destruct (nth_error_pred ms _ level Em) as [before Hb].
  pose proof (proj2 Hc _ before level Hb Em) as Hp.
  assert (Hbelow : JsArray.get (i - 1) (hashes t) = Some before).
  { rewrite Hh. apply JsArray_get_some; [lia|exact Hb]. }
  destruct (pairLoop_firstChild (zeroHash (Z.to_nat (i - 1))) before
              (JsMap.entries before) [] JsMap.empty JsMap.empty level
              ltac:(discriminate) ltac:(intros e j []) Hp p h Hg)
    as [pre [k [a [post [Ee [Ek [Hpre Eh]]]]]]].
  cbn [app] in Ee.
  exists before, pre, k, a, post.
  split; [exact Hbelow|]. split; [exact Ee|].
  split; [Z.to_euclidean_division_equations; lia|].
  split; [intros e Hin; specialize (Hpre e Hin);
          Z.to_euclidean_division_equations; lia|].
  split.
  - apply JsMap_get_unique; [exact (chained_unique _ ms _ before Hc Hb)|].
    unfold JsMap.entries in Ee. rewrite Ee. apply in_elt.
  - unfold nodeAt. rewrite Hbelow. exact Eh.
Qed.

(** ** One update on a fresh tree *)

(** X7.  On a fresh tree of depth d, [updateElement(index, v)] at any
    index in [0, 2^d) gives the root
    [compress(... compress(compress(hash v, Z[0]), Z[1]) ..., Z[d-1])]:
    at every level the node on the path is compressed with the zero hash
    on its right, so the root does not depend on the index. *)
Theorem X7_single_update_root (name0 : string) (d index : Z) (v : Buffer) :
  1 <= d <= 32 ->
  0 <= index < 2 ^ d ->
  exists t,
    freshThenUpdates name0 d [(index, v)] = Ok t /\
    getRoot t = Some (leftChain v (Z.to_nat d)) /\
    forall i, 0 <= i <= d ->
      JsArray.get i (hashes t) = Some [(index / 2 ^ i, leftChain v (Z.to_nat i))].
Proof.
  intros Hd Hi.
  destruct (freshThenUpdates_inState name0 d [(index, v)] Hd) as [t [E [W [_ [Hb _]]]]].
  exists t. split; [exact E|].
  destruct W as [_ [_ [ms [top [Hh [Hlen [Hc [Ht Hr]]]]]]]].
  rewrite Hb in Hc. change (writes [(index, v)]) with [(index, v)] in Hc.
  split.
  - unfold getRoot. rewrite Hr.
    rewrite (chained_single index v ms _ top Hc Ht).
    unfold rootOf. cbn [JsMap.size List.length JsMap.get].
    rewrite Z2Nat.id by lia. rewrite Z.div_small by lia. reflexivity.
  - intros i Hrange.
    destruct (nth_error ms (Z.to_nat i)) as [m|] eqn:Em.
    2:{ apply nth_error_None in Em. lia. }
    rewrite Hh, (JsArray_get_some _ i ms m) by (try lia; exact Em).
    rewrite (chained_single index v ms _ m Hc Em), Z2Nat.id by lia. reflexivity.
Qed.

(** ** Hash paths of any tree whose levels are there *)

(** What [getHashPath] puts in a pair for node [p] of level [i]: the
    cached digest, else the entry of the zero table, which is undefined
    past its end. *)
Definition cellAt (t : MerkleTree) (i p : Z) : option Buffer :=
  match JsArray.get i (hashes t) with
  | Some level =>
      if JsMap.has p level then JsMap.get p level
      else JsArray.get i (zeroHashesByLevel t)
  | None => None
  end.

Definition cellPair (t : MerkleTree) (index i : Z) : JsArray.t Buffer :=
  [cellAt t i (2 * (index / 2 ^ i / 2)); cellAt t i (2 * (index / 2 ^ i / 2) + 1)].

Lemma hashPathStep_gen (t : MerkleTree) (hashPath : HashPath) (index i : Z)
    (level : JsMap.t Buffer) :
  JsArray.get i (hashes t) = Some level ->
  hashPathStep t (hashPath, index) i
  = Ok (hashPath ++ [[cellAt t i (2 * (index / 2)); cellAt t i (2 * (index / 2) + 1)]],
        index / 2).
Proof.
  intros Hl. unfold hashPathStep, cellAt. rewrite Hl. cbn [bind defined].
  rewrite indexOfParentNode_half. do 3 f_equal.
  destruct (Z.eq_dec (Z.rem index 2) 0) as [E|E].
  - destruct (siblingOf_even index E) as [-> Hi2].
    destruct (Z.ltb_spec index (index + 1)); [|lia].
    destruct (Z.ltb_spec (index + 1) index); [lia|].
    cbn [JsArray.set]. rewrite <- Hi2. reflexivity.
  - destruct (siblingOf_odd index E) as [-> Hi2].
    destruct (Z.ltb_spec index (index - 1)); [lia|].
    destruct (Z.ltb_spec (index - 1) index); [|lia].
    cbn [JsArray.set]. rewrite <- Hi2.
    replace (index - 1) with (2 * (index / 2)) by lia. reflexivity.
Qed.

Lemma getHashPath_gen (t : MerkleTree) (n : nat) (ms : list (JsMap.t Buffer))
    (index : Z) :
  depth t = Z.of_nat n ->
  hashes t = map Some ms ->
  (n <= List.length ms)%nat ->
  getHashPath t index = Ok (map (cellPair t index) (range 0 (Z.of_nat n))).
Proof.
  intros Hd Hh Hlen. unfold getHashPath. rewrite Hd.
  destruct (forM_range _ (hashPathStep t)
              (fun i st => st = (map (cellPair t index) (range 0 i), index / 2 ^ i))
              0 (Z.of_nat n) ([], index))
    as [st [E ->]].
  - lia.
  - rewrite range_nil by lia. rewrite Z.pow_0_r, Z.div_1_r. reflexivity.
  - intros i st Hi ->.
    destruct (nth_error ms (Z.to_nat i)) as [level|] eqn:El.
    2:{ apply nth_error_None in El. lia. }
    rewrite (hashPathStep_gen t _ _ i level)
      by (rewrite Hh; apply JsArray_get_some; [lia|exact El]).
    eexists. split; [reflexivity|].
    rewrite range_snoc by lia. rewrite map_app.
    f_equal. apply div_pow2_succ. lia.
  - rewrite E. reflexivity.
Qed.

Lemma range_in (lo hi i : Z) : In i (range lo hi) -> lo <= i < hi.
Proof.
  unfold range. intros H. apply in_map_iff in H. destruct H as [k [<- Hk]].
  apply in_seq in Hk. lia.
Qed.

(** ** Opening a persisted tree again *)

(** A level as it comes back from the store. *)
Definition readBack (m : JsMap.t Buffer) : JsMap.t Buffer := fromObject (toObject m).

Lemma reopen_inState (name0 : string) (n : nat) (blocks : JsMap.t Buffer)
    (t : MerkleTree) (d' : Z) :
  inState name0 n blocks t -> inRange d' ->
  exists ms top,
    hashes t = map Some ms /\ List.length ms = S n /\
    nth_error ms n = Some top /\ root t = rootOf n top /\
    (forall m, In m ms -> uniqueKeys m) /\
    MerkleTree_new (db t) name0 d'
    = Ok (mkMerkleTree (db_put name0 (blobOf (map readBack ms)) (db t)) name0
            (Z.of_nat n) (JsMap.get 0 top) JsMap.empty
            (map Some (map readBack ms)) (zeroTable (Z.to_nat d'))).
Proof.
  intros [W [Hn [_ [ms0 [Hh0 Hg]]]]] Hd.
  destruct W as [_ [_ [ms [top [Hh [Hlen [Hc [Ht Hr]]]]]]]].
  assert (ms0 = ms).
  { rewrite Hh in Hh0. clear - Hh0. revert ms0 Hh0.
    induction ms as [|m ms IH]; intros [|m0 ms0] H; try discriminate; [reflexivity|].
    cbn [map] in H. injection H as <- H. f_equal. apply IH. exact H. }
  subst ms0. rewrite Hn in Hg.
  assert (Hu : forall m, In m ms -> uniqueKeys m).
  { intros m Hin. apply In_nth_error in Hin. destruct Hin as [i Hi].
    exact (chained_unique _ ms i m Hc Hi). }
  exists ms, top. split; [exact Hh|]. split; [exact Hlen|]. split; [exact Ht|].
  split; [exact Hr|]. split; [exact Hu|].
  unfold MerkleTree_new. rewrite Hg.
  rewrite constructor_zero by exact Hd.
  unfold restorePersistedTree. rewrite restore_blobOf.
  rewrite <- (map_map (fun m => fromObject (toObject m)) Some ms).
  fold readBack.
  assert (Ht' : nth_error (map readBack ms) n = Some (readBack top)).
  { rewrite nth_error_map, Ht. reflexivity. }
  assert (Hl : JsArray.length (map Some (map readBack ms)) - 1 = Z.of_nat n).
  { unfold JsArray.length. rewrite !length_map. lia. }
  rewrite Hl, (JsArray_get_some _ _ (map readBack ms) (readBack top))
    by (try lia; rewrite Nat2Z.id; exact Ht').
  cbn [bind defined db name dataBlocks zeroHashesByLevel].
  rewrite (persistTree_spec _ (map readBack ms)) by reflexivity.
  cbn [db name depth root dataBlocks hashes zeroHashesByLevel].
  assert (Hroot : JsMap.get 0 (readBack top) = JsMap.get 0 top).
  { unfold readBack. apply roundtrip_get, Hu, (nth_error_In _ _ Ht). }
  rewrite Hroot, Hlen. do 2 f_equal. lia.
Qed.

Lemma cellAt_readBack (t t2 : MerkleTree) (ms : list (JsMap.t Buffer)) (i p : Z) :
  hashes t = map Some ms ->
  hashes t2 = map Some (map readBack ms) ->
  (forall m, In m ms -> uniqueKeys m) ->
  JsArray.get i (zeroHashesByLevel t2) = JsArray.get i (zeroHashesByLevel t) ->
  cellAt t2 i p = cellAt t i p.
Proof.
  intros H1 H2 Hu Hz. unfold cellAt, JsArray.get at 1 3. rewrite H1, H2.
  destruct (i <? 0); [reflexivity|].
  rewrite !nth_error_map.
  destruct (nth_error ms (Z.to_nat i)) as [m|] eqn:E; cbn [option_map];
    [|reflexivity].
  rewrite !JsMap_has_get. unfold readBack.
  rewrite (roundtrip_get m p (Hu m (nth_error_In _ _ E))), Hz. reflexivity.
Qed.

Lemma zeroTable_get_past (n : nat) (i : Z) :
  Z.of_nat n < i -> JsArray.get i (zeroTable n) = None.
Proof.
  intros H. unfold JsArray.get, zeroTable.
  destruct (Z.ltb_spec i 0); [reflexivity|].
  destruct (nth_error (map Some (map zeroHash (seq 0 (S n)))) (Z.to_nat i)) eqn:E;
    [|reflexivity].
  assert (Hn : nth_error (map Some (map zeroHash (seq 0 (S n)))) (Z.to_nat i) <> None)
    by congruence.
  apply nth_error_Some in Hn. rewrite !length_map, length_seq in Hn. lia.
Qed.

Lemma inState_parts (name0 : string) (n : nat) (blocks : JsMap.t Buffer)
    (t : MerkleTree) :
  inState name0 n blocks t ->
  depth t = Z.of_nat n /\ zeroHashesByLevel t = zeroTable n /\ dataBlocks t = blocks.
Proof.
  intros [[Hd [Hz _]] [_ [Hb _]]]. repeat split; assumption.
Qed.

(** X8.  A tree of depth d that has received at least one update, all
    updates at safe integer indices, opened again under its name with
    any depth argument d' in [d, 32], comes back with depth d, the same
    root and the same hash path for every index; its data blocks come
    back empty (only digests are stored). *)
Theorem X8_reopen_keeps_root_and_paths (name0 : string) (d d' : Z)
    (updates : list (Z * Buffer)) :
  1 <= d <= 32 ->
  d <= d' <= 32 ->
  updates <> [] ->
  Forall (fun u => isSafeInteger (fst u)) updates ->
  exists t t2,
    freshThenUpdates name0 d updates = Ok t /\
    MerkleTree_new (db t) name0 d' = Ok t2 /\
    depth t2 = d /\
    getRoot t2 = getRoot t /\
    (forall index, getHashPath t2 index = getHashPath t index) /\
    dataBlocks t2 = JsMap.empty.
Proof.
  intros Hd Hd' Hne _.
  destruct (freshThenUpdates_inState name0 d updates Hd) as [t [E S]].
  destruct (reopen_inState name0 _ _ t d' S ltac:(unfold inRange, MAX_DEPTH; lia))
    as [ms [top [Hh [Hlen [Ht [Hr [Hu E2]]]]]]].
  destruct (inState_parts _ _ _ t S) as [Hdep [Hz _]].
  exists t. eexists. split; [exact E|]. split; [exact E2|].
  cbn [depth getRoot root dataBlocks].
  split; [lia|]. split; [|split; [|reflexivity]].
  - unfold getRoot. rewrite Hr. unfold rootOf.
    destruct (inState_level_keys name0 _ updates t d S ltac:(lia))
      as [top' [Ht' [_ Hk]]].
    rewrite Hh, (JsArray_get_some _ d ms top) in Ht' by (try lia; exact Ht).
    injection Ht' as <-.
    destruct updates as [|[index v] rest]; [contradiction|].
    rewrite (JsMap_size_has _ top (index / 2 ^ d)); [reflexivity|].
    apply Hk. exists index. split; [left; reflexivity|reflexivity].
  - intros index.
    rewrite (getHashPath_gen _ (Z.to_nat d) (map readBack ms) index);
      [|cbn [depth]; reflexivity|reflexivity|rewrite length_map; lia].
    rewrite (getHashPath_gen t (Z.to_nat d) ms index Hdep Hh) by lia.
    f_equal. apply map_ext_in. intros i Hi. apply range_in in Hi.
    unfold cellPair.
    f_equal; [|f_equal];
      (apply (cellAt_readBack t _ ms i);
       [exact Hh|reflexivity|exact Hu
       |cbn [zeroHashesByLevel]; rewrite Hz, !zeroTable_get by lia; reflexivity]).
Qed.

(** X9.  The data blocks are not persisted, so the first update after a
    tree was opened again rebuilds the cache from that one block:
    [updateElement(index, v)] on the reopened tree returns the root, and
    leaves the cache, of a brand new tree updated with [(index, v)]
    alone, whatever had been written before. *)
Theorem X9_update_after_reopen_forgets (name0 : string) (d : Z)
    (updates : list (Z * Buffer)) (index : Z) (v : Buffer) :
  1 <= d <= 32 ->
  exists t t2 t3 r t',
    freshThenUpdates name0 d updates = Ok t /\
    MerkleTree_new (db t) name0 d = Ok t2 /\
    updateElement t2 index v = Ok (t3, r) /\
    freshThenUpdates name0 d [(index, v)] = Ok t' /\
    r = getRoot t' /\
    getRoot t3 = getRoot t' /\
    hashes t3 = hashes t' /\
    dataBlocks t3 = [(index, v)].
Proof.
  intros Hd.
  destruct (freshThenUpdates_inState name0 d updates Hd) as [t [E S]].
  destruct (reopen_inState name0 _ _ t d S Hd)
    as [ms [top [Hh [Hlen [Ht [Hr [Hu E2]]]]]]].
  destruct (freshThenUpdates_inState name0 d [(index, v)] Hd) as [t' [E' S']].
  match type of E2 with _ = Ok ?T =>
    destruct (updateElement_spec T (Z.to_nat d) index v eq_refl eq_refl)
      as [ms3 [top3 [E3 [Hlen3 [Hc3 Ht3]]]]]
  end.
  cbn [dataBlocks JsMap.set JsMap.empty] in Hc3.
  destruct S' as [[_ [_ [ms' [top' [Hh' [Hlen' [Hc' [Ht' Hr']]]]]]]] [_ [Hb' _]]].
  rewrite Hb' in Hc'. change (writes [(index, v)]) with [(index, v)] in Hc'.
  assert (ms3 = ms') by (apply (chained_functional [(index, v)]); congruence).
  subst ms3. rewrite Ht' in Ht3. injection Ht3 as <-.
  exists t. eexists. eexists. eexists. exists t'.
  split; [exact E|]. split; [exact E2|]. split; [exact E3|]. split; [exact E'|].
  cbn [getRoot root hashes dataBlocks JsMap.set JsMap.empty]. unfold getRoot.
  rewrite Hr', Hh'. repeat split.
Qed.

(** X13.  Opened again with a depth argument d' smaller than its depth
    d, a tree (updated at safe integer indices) keeps depth d but gets a
    zero table of d' + 1 entries: for a safe integer index
    [getHashPath] still returns d pairs, and at every level above d' a
    pair component is the cached digest of the node, or undefined when
    the node is not cached. *)
Theorem X13_reopen_with_smaller_depth (name0 : string) (d d' : Z)
    (updates : list (Z * Buffer)) (index : Z) :
  1 <= d' ->
  d' < d <= 32 ->
  Forall (fun u => isSafeInteger (fst u)) updates ->
  isSafeInteger index ->
  exists t t2 path,
    freshThenUpdates name0 d updates = Ok t /\
    MerkleTree_new (db t) name0 d' = Ok t2 /\
    depth t2 = d /\
    getHashPath t2 index = Ok path /\
    Z.of_nat (List.length path) = d /\
    forall i, d' < i < d ->
      exists level,
        JsArray.get i (hashes t) = Some level /\
        nth_error path (Z.to_nat i)
        = Some [JsMap.get (2 * (index / 2 ^ i / 2)) level;
                JsMap.get (2 * (index / 2 ^ i / 2) + 1) level].
Proof.
  intros Hd' Hd _ _.
  destruct (freshThenUpdates_inState name0 d updates ltac:(unfold inRange, MAX_DEPTH; lia))
    as [t [E S]].
  destruct (reopen_inState name0 _ _ t d' S ltac:(unfold inRange, MAX_DEPTH; lia))
    as [ms [top [Hh [Hlen [Ht [Hr [Hu E2]]]]]]].
  exists t. eexists. eexists. split; [exact E|]. split; [exact E2|].
  cbn [depth]. split; [lia|].
  split; [apply (getHashPath_gen _ (Z.to_nat d) (map readBack ms) index);
          [cbn [depth]; reflexivity|reflexivity|rewrite length_map; lia]|].
  split; [rewrite length_map, range_length; lia|].
  intros i Hi.
  destruct (nth_error ms (Z.to_nat i)) as [level|] eqn:El.
  2:{ apply nth_error_None in El. lia. }
  exists level. split; [rewrite Hh; apply JsArray_get_some; [lia|exact El]|].
  rewrite nth_error_map.
  replace (Z.to_nat i) with (Z.to_nat (i - 0)) at 1 by lia.
  rewrite range_nth by lia. cbn [option_map]. f_equal.
  unfold cellPair, cellAt. cbn [hashes zeroHashesByLevel].
  rewrite (JsArray_get_some _ i (map readBack ms) (readBack level))
    by (try lia; rewrite nth_error_map, El; reflexivity).
  rewrite zeroTable_get_past by lia.
  rewrite !JsMap_has_get. unfold readBack.
  rewrite !(roundtrip_get level) by (apply Hu, (nth_error_In _ _ El)).
  destruct (JsMap.get (2 * (index / 2 ^ i / 2)) level);
    destruct (JsMap.get (2 * (index / 2 ^ i / 2) + 1) level); reflexivity.
Qed.

(** X10.  A persisted document with no level key makes construction
    fail with a [TypeError] ([this.hashes[-1]] is undefined), through
    [MerkleTree.new] as well; with at least one level key the
    constructor returns a tree. *)
Theorem X10_empty_document_throws (db0 : Db) (name0 : string) (d : Z) (data : Blob) :
  1 <= d <= 32 ->
  constructor db0 name0 d (Some []) = Err TypeError /\
  (db_get name0 db0 = Some [] -> MerkleTree_new db0 name0 d = Err TypeError) /\
  (data <> [] -> exists t, constructor db0 name0 d (Some data) = Ok t).
Proof.
  intros Hd.
  assert (C : constructor db0 name0 d (Some []) = Err TypeError).
  { rewrite constructor_zero by exact Hd. reflexivity. }
  split; [exact C|]. split.
  - intros Hg. unfold MerkleTree_new. rewrite Hg, C. reflexivity.
  - intros Hne. rewrite constructor_zero by exact Hd.
    destruct (restorePersistedTree_ok
                (mkMerkleTree db0 name0 d (Some (zeroHash (Z.to_nat d)))
                   JsMap.empty [] (zeroTable (Z.to_nat d)))
                data Hne) as [t [E _]].
    exists t. exact E.
Qed.

(** ** When hash paths fold to the root *)

Lemma leafOf_nodeAt (name0 : string) (n : nat) (updates : list (Z * Buffer))
    (t : MerkleTree) (index : Z) :
  inState name0 n (writes updates) t ->
  leafOf t index = nodeAt t 0 index.
Proof.
  intros [W [_ [Hb _]]].
  destruct W as [_ [_ [ms [top [Hh [Hlen [[H0 _] _]]]]]]].
  unfold leafOf, nodeAt.
  rewrite Hh, (JsArray_get_some _ 0 ms (level0Of (dataBlocks t))) by (try lia; exact H0).
  rewrite level0Of_get by (rewrite Hb; apply writes_unique).
  destruct (JsMap.get index (dataBlocks t)); reflexivity.
Qed.

Lemma root_is_top_node (name0 : string) (n : nat) (updates : list (Z * Buffer))
    (t : MerkleTree) :
  inState name0 n (writes updates) t ->
  Forall (fun u => 0 <= fst u < 2 ^ Z.of_nat n) updates ->
  root t = Some (nodeAt t (Z.of_nat n) 0).
Proof.
  intros S Hall.
  destruct (inState_top _ _ _ t S) as [top [Ht Hr]].
  destruct (inState_level_keys name0 n updates t (Z.of_nat n) S ltac:(lia))
    as [top' [Ht' [_ Hk]]].
  rewrite Ht in Ht'. injection Ht' as <-.
  rewrite Hr. unfold rootOf, nodeAt. rewrite Ht, Nat2Z.id.
  destruct (JsMap.size top =? 0) eqn:Es.
  - pose proof (JsMap_size_zero _ top Es 0) as H0. rewrite JsMap_has_get in H0.
    destruct (JsMap.get 0 top); [discriminate|reflexivity].
  - destruct top as [|[k h] rest]; [discriminate|].
    assert (Hkk : JsMap.has k ((k, h) :: rest) = true)
      by (cbn [JsMap.has]; rewrite Z.eqb_refl; reflexivity).
    apply Hk in Hkk. destruct Hkk as [index [Hin Ek]].
    apply in_map_iff in Hin. destruct Hin as [[j w] [Ej Hin]]. cbn [fst] in Ej. subst j.
    rewrite Forall_forall in Hall. specialize (Hall _ Hin). cbn [fst] in Hall.
    rewrite Z.div_small in Ek by exact Hall. subst k.
    cbn [JsMap.get]. rewrite Z.eqb_refl. reflexivity.
Qed.

Lemma ordered_nodes (name0 : string) (n : nat) (updates : list (Z * Buffer))
    (t : MerkleTree) (i p : Z) :
  inState name0 n (writes updates) t ->
  parentsOrdered t ->
  0 <= i < Z.of_nat n ->
  nodeAt t (i + 1) p
  = compress (nodeAt t i (2 * p)) (nodeAt t i (2 * p + 1)).
Proof.
  intros S Ho Hi.
  destruct (inState_level_keys name0 n updates t (i + 1) S ltac:(lia))
    as [L1 [H1 [_ K1]]].
  destruct (inState_level_keys name0 n updates t i S ltac:(lia))
    as [L0 [H0 [_ K0]]].
  destruct (inState_parts _ _ _ t S) as [Hd _].
  destruct (JsMap.get p L1) as [h|] eqn:G.
  - pose proof (Ho (i + 1) p L1 h ltac:(lia) H1 G) as E.
    replace (i + 1 - 1) with i in E by lia.
    unfold nodeAt at 1. rewrite H1, G. exact E.
  - assert (N1 : JsMap.has p L1 = false) by (rewrite JsMap_has_get, G; reflexivity).
    assert (C : forall k, k / 2 = p -> JsMap.get k L0 = None).
    { intros k Ek. destruct (JsMap.get k L0) eqn:Gk; [|reflexivity].
      assert (Hk : JsMap.has k L0 = true) by (rewrite JsMap_has_get, Gk; reflexivity).
      apply K0 in Hk. destruct Hk as [index [Hin Ei]].
      assert (Hp : JsMap.has p L1 = true).
      { apply K1. exists index. split; [exact Hin|].
        rewrite <- div_pow2_succ by lia. rewrite Ei. exact Ek. }
      congruence. }
    unfold nodeAt. rewrite H1, H0, G.
    rewrite !C by (Z.to_euclidean_division_equations; lia).
    replace (Z.to_nat (i + 1)) with (Datatypes.S (Z.to_nat i)) by lia. reflexivity.
Qed.

Lemma foldPath_ordered (t : MerkleTree) (n : Z) (index : Z) :
  (forall i p, 0 <= i < n ->
               nodeAt t (i + 1) p
               = compress (nodeAt t i (2 * p)) (nodeAt t i (2 * p + 1))) ->
  forall (k : nat) (i : Z),
    0 <= i <= n -> Z.to_nat (n - i) = k ->
    foldPath (index / 2 ^ i) (nodeAt t i (index / 2 ^ i))
      (map (pathEntry t index) (range i n))
    = Some (nodeAt t n (index / 2 ^ n)).
Proof.
  intros Ho k. induction k as [|k IH]; intros i Hi Hk.
  - assert (i = n) by lia. subst i. rewrite range_nil by lia. reflexivity.
  - rewrite range_cons by lia. cbn [map]. unfold pathEntry at 1. cbn [foldPath].
    set (w := index / 2 ^ i).
    assert (Hacc : (if Z.even w
                    then compress (nodeAt t i w) (nodeAt t i (2 * (w / 2) + 1))
                    else compress (nodeAt t i (2 * (w / 2))) (nodeAt t i w))
                   = nodeAt t (i + 1) (w / 2)).
    { rewrite (Ho i (w / 2)) by lia.
      pose proof (Zmod_even w) as Hm.
      destruct (Z.even w).
      - replace (2 * (w / 2)) with w by (Z.to_euclidean_division_equations; lia).
        reflexivity.
      - replace (2 * (w / 2) + 1) with w by (Z.to_euclidean_division_equations; lia).
        reflexivity. }
    rewrite Hacc. unfold w. rewrite div_pow2_succ by lia.
    apply IH; lia.
Qed.

(** X11.  Only the order of the two children stands between the rebuild
    and sound hash paths: after any run of in-range updates on a fresh
    tree, if every cached parent happens to be [compress(left, right)],
    then for every index in [0, 2^d) folding [getHashPath(index)] from
    the hash of the data block of the index (of 64 zero bytes when there
    is none) gives [getRoot()]. *)
Theorem X11_ordered_cache_sound_paths (name0 : string) (d : Z)
    (updates : list (Z * Buffer)) (index : Z) :
  1 <= d <= 32 ->
  0 <= index < 2 ^ d ->
  Forall (fun u => 0 <= fst u < 2 ^ d) updates ->
  exists t path,
    freshThenUpdates name0 d updates = Ok t /\
    getHashPath t index = Ok path /\
    (parentsOrdered t ->
     foldPath index (leafOf t index) path = getRoot t).
Proof.
  intros Hd Hi Hall.
  destruct (freshThenUpdates_inState name0 d updates Hd) as [t [E S]].
  exists t. eexists. split; [exact E|].
  split; [apply (getHashPath_spec t (Z.to_nat d) index), wf_shaped, S|].
  intros Ho. unfold getRoot.
  rewrite (root_is_top_node name0 _ updates t S) by (rewrite Z2Nat.id by lia; exact Hall).
  rewrite (leafOf_nodeAt name0 _ updates t index S).
  pose proof (foldPath_ordered t (Z.of_nat (Z.to_nat d)) index
                (fun i p Hr => ordered_nodes name0 _ updates t i p S Ho Hr)
                (Z.to_nat d) 0 ltac:(lia) ltac:(lia)) as F.
  rewrite Z.pow_0_r, Z.div_1_r in F. rewrite F.
  rewrite Z2Nat.id by lia. rewrite Z.div_small by exact Hi. reflexivity.
Qed.

Lemma ordered_sound (name0 : string) (d : Z) (updates : list (Z * Buffer))
    (t : MerkleTree) (index : Z) :
  1 <= d <= 32 ->
  0 <= index < 2 ^ d ->
  Forall (fun u => 0 <= fst u < 2 ^ d) updates ->
  inState name0 (Z.to_nat d) (writes updates) t ->
  parentsOrdered t ->
  foldPath index (leafOf t index)
    (map (pathEntry t index) (range 0 (Z.of_nat (Z.to_nat d))))
  = getRoot t.
Proof.
  intros Hd Hi Hall St Ho. unfold getRoot.
  rewrite (root_is_top_node name0 _ updates t St) by (rewrite Z2Nat.id by lia; exact Hall).
  rewrite (leafOf_nodeAt name0 _ updates t index St).
  pose proof (foldPath_ordered t (Z.of_nat (Z.to_nat d)) index
                (fun i p Hr => ordered_nodes name0 _ updates t i p St Ho Hr)
                (Z.to_nat d) 0 ltac:(lia) ltac:(lia)) as F.
  rewrite Z.pow_0_r, Z.div_1_r in F. rewrite F.
  rewrite Z2Nat.id by lia. rewrite Z.div_small by exact Hi. reflexivity.
Qed.

Lemma inState_cached_parent (name0 : string) (n : nat) (blocks : JsMap.t Buffer)
    (t : MerkleTree) (i p : Z) (level : JsMap.t Buffer) (h : Buffer) :
  inState name0 n blocks t ->
  1 <= i <= Z.of_nat n ->
  JsArray.get i (hashes t) = Some level ->
  JsMap.get p level = Some h ->
  exists k below a,
    k / 2 = p /\
    JsArray.get (i - 1) (hashes t) = Some below /\
    JsMap.get k below = Some a /\
    h = compress a (nodeAt t (i - 1) (siblingOf k)).
Proof.
  intros [W _] Hi Hl Hg.
  destruct W as [_ [_ [ms [top [Hh [Hlen [Hc _]]]]]]].
  rewrite Hh in Hl.
  destruct (nth_error ms (Z.to_nat i)) as [m|] eqn:Em.
  2:{ apply nth_error_None in Em. lia. }
  rewrite (JsArray_get_some _ i ms m) in Hl by (try lia; exact Em).
  injection Hl as ->.
  replace (Z.to_nat i) with (S (Z.to_nat (i - 1))) in Em by lia.
  destruct (nth_error_pred ms _ level Em) as [before Hb].
  pose proof (proj2 Hc _ before level Hb Em) as Hp.
  assert (Hbelow : JsArray.get (i - 1) (hashes t) = Some before).
  { rewrite Hh. apply JsArray_get_some; [lia|exact Hb]. }
  destruct (pairLoop_cachedChildFirst (zeroHash (Z.to_nat (i - 1))) before
              (JsMap.entries before) JsMap.empty JsMap.empty level
              (chained_unique _ ms _ before Hc Hb) (incl_refl _)
              ltac:(discriminate) Hp p h Hg)
    as [k [a [Ek [Ga Eh]]]].
  exists k, before, a. split; [exact Ek|]. split; [exact Hbelow|]. split; [exact Ga|].
  unfold nodeAt. rewrite Hbelow. exact Eh.
Qed.

(** X12.  When leaf 0 is the only leaf ever written (or none is), the
    hash paths are sound: for every index in [0, 2^d), folding
    [getHashPath(index)] from the hash of the data block of the index
    (of 64 zero bytes when there is none) gives [getRoot()]. *)
Theorem X12_paths_sound_on_left_edge (name0 : string) (d : Z)
    (updates : list (Z * Buffer)) (index : Z) :
  1 <= d <= 32 ->
  0 <= index < 2 ^ d ->
  Forall (fun u => fst u = 0) updates ->
  exists t path,
    freshThenUpdates name0 d updates = Ok t /\
    getHashPath t index = Ok path /\
    foldPath index (leafOf t index) path = getRoot t.
Proof.
  intros Hd Hi Hzero.
  destruct (freshThenUpdates_inState name0 d updates Hd) as [t [E St]].
  exists t. eexists. split; [exact E|].
  split; [apply (getHashPath_spec t (Z.to_nat d) index), wf_shaped, St|].
  assert (P : 0 < 2 ^ d) by (apply Z.pow_pos_nonneg; lia).
  assert (K : forall i level p,
             0 <= i <= d -> JsArray.get i (hashes t) = Some level ->
             JsMap.has p level = true -> p = 0).
  { intros i level p Hr Hl Hp.
    destruct (inState_level_keys name0 _ updates t i St ltac:(lia))
      as [level' [Hl' [_ Hk]]].
    rewrite Hl in Hl'. injection Hl' as <-.
    apply Hk in Hp. destruct Hp as [j [Hin Ej]].
    apply in_map_iff in Hin. destruct Hin as [[j' w] [Ej' Hin]]. cbn [fst] in Ej'.
    subst j'. rewrite Forall_forall in Hzero. specialize (Hzero _ Hin).
    cbn [fst] in Hzero. subst j. rewrite Z.div_0_l in Ej by (apply Z.pow_nonzero; lia).
    symmetry. exact Ej. }
  apply (ordered_sound name0 d updates t index Hd Hi); [|exact St|].
  - apply Forall_forall. intros u Hu. rewrite Forall_forall in Hzero.
    rewrite (Hzero u Hu). lia.
  - intros i p level h Hr Hl Hg.
    destruct (inState_parts _ _ _ t St) as [Hdep _]. rewrite Hdep in Hr.
    assert (p = 0).
    { apply (K i level p); [lia|exact Hl|]. rewrite JsMap_has_get, Hg. reflexivity. }
    subst p.
    destruct (inState_cached_parent name0 _ _ t i 0 level h St Hr Hl Hg)
      as [k [below [a [Ek [Hb [Ga Eh]]]]]].
    assert (k = 0).
    { apply (K (i - 1) below k); [lia|exact Hb|]. rewrite JsMap_has_get, Ga. reflexivity. }
    subst k. change (2 * 0) with 0. change (0 + 1) with 1.
    change (siblingOf 0) with 1 in Eh. rewrite Eh. f_equal.
    unfold nodeAt. rewrite Hb, Ga. reflexivity.
Qed.

(** ** What the store holds *)

(** A tree opened on a store that may hold other trees, then updated. *)
Definition openThenUpdates (db0 : Db) (name0 : string) (d : Z)
    (updates : list (Z * Buffer)) : result MerkleTree :=
  t <- MerkleTree_new db0 name0 d ;; applyUpdates t updates.

Lemma db_get_put_other (name0 other : string) (b : Blob) (db0 : Db) :
  other <> name0 -> db_get other (db_put name0 b db0) = db_get other db0.
Proof.
  intros Hne. apply String.eqb_neq in Hne.
  induction db0 as [|[n0 b0] db0 IH]; cbn [db_put db_get].
  - rewrite Hne. reflexivity.
  - destruct (String.eqb name0 n0) eqn:E; cbn [db_get].
    + apply String.eqb_eq in E. subst n0. rewrite Hne. reflexivity.
    + rewrite IH. reflexivity.
Qed.

Lemma applyUpdates_store (db0 : Db) (name0 : string) (n : nat)
    (updates : list (Z * Buffer)) (blocks : JsMap.t Buffer) (t : MerkleTree) :
  inState name0 n blocks t ->
  (forall other, other <> name0 -> db_get other (db t) = db_get other db0) ->
  exists t' blocks',
    applyUpdates t updates = Ok t' /\ inState name0 n blocks' t' /\
    forall other, other <> name0 -> db_get other (db t') = db_get other db0.
Proof.
  revert blocks t. induction updates as [|[index value] rest IH]; intros blocks t St Ho.
  - exists t, blocks. split; [reflexivity|]. split; assumption.
  - unfold applyUpdates. cbn [forM].
    destruct (updateElement_inState name0 n blocks t index value St) as [t1 [E1 S1]].
    rewrite E1. cbn [bind fst].
    apply (IH _ t1 S1). intros other Hne.
    destruct St as [[Hd [Hz _]] [Hn _]].
    destruct (updateElement_spec t n index value Hd Hz) as [ms [top [E [_ _]]]].
    rewrite E in E1. injection E1 as <-. cbn [db].
    rewrite Hn, db_get_put_other by exact Hne. apply Ho. exact Hne.
Qed.

(** X14.  A tree opened under a name the store does not hold, then
    updated any number of times, leaves in the store, under its name, one
    document with the level keys 0..d in order, whose level i maps an
    index to the digest the cache holds for it at level i; what the store
    holds under every other name is untouched. *)
Theorem X14_store_holds_the_cache (db0 : Db) (name0 : string) (d : Z)
    (updates : list (Z * Buffer)) :
  1 <= d <= 32 ->
  db_get name0 db0 = None ->
  exists t blob,
    openThenUpdates db0 name0 d updates = Ok t /\
    db_get name0 (db t) = Some blob /\
    map fst blob = seq 0 (Z.to_nat d + 1) /\
    (forall i level, JsArray.get (Z.of_nat i) (hashes t) = Some level ->
       exists obj, nth_error blob i = Some (i, obj) /\
                   forall p, JsObject.get p obj = JsMap.get p level) /\
    (forall other, other <> name0 -> db_get other (db t) = db_get other db0).
Proof.
  intros Hd Hg. unfold openThenUpdates.
  rewrite MerkleTree_new_fresh by assumption. cbn [bind].
  destruct (applyUpdates_store db0 name0 (Z.to_nat d) updates JsMap.empty
              (freshTree (db_put name0 (blobOf (repeat JsMap.empty (S (Z.to_nat d)))) db0)
                 name0 (Z.to_nat d)))
    as [t [blocks [E [St Ho]]]].
  - split; [apply freshTree_wf|]. split; [reflexivity|]. split; [reflexivity|].
    exists (repeat JsMap.empty (S (Z.to_nat d))). split; [reflexivity|].
    cbn [freshTree name db]. apply db_get_put.
  - intros other Hne. cbn [freshTree db]. apply db_get_put_other. exact Hne.
  - destruct St as [W [Hn [_ [ms [Hh Hp]]]]].
    destruct W as [_ [_ [ms0 [top [Hh0 [Hlen [Hc _]]]]]]].
    assert (ms0 = ms).
    { rewrite Hh in Hh0. clear - Hh0. revert ms0 Hh0.
      induction ms as [|m ms IH]; intros [|m0 ms0] H; try discriminate; [reflexivity|].
      cbn [map] in H. injection H as -> H. f_equal. apply IH. exact H. }
    subst ms0. rewrite Hn in Hp.
    exists t, (blobOf ms). split; [exact E|]. split; [exact Hp|].
    split; [|split; [|exact Ho]].
    + unfold blobOf. rewrite map_map. cbn [fst]. rewrite map_id, Hlen.
      f_equal. lia.
    + intros i level Hl. rewrite Hh in Hl.
      unfold JsArray.get in Hl. destruct (Z.ltb_spec (Z.of_nat i) 0); [lia|].
      rewrite Nat2Z.id, nth_error_map in Hl.
      destruct (nth_error ms i) as [m|] eqn:Em; cbn [option_map] in Hl;
        [|discriminate].
      injection Hl as ->.
      exists (toObject level). split.
      * unfold blobOf. rewrite nth_error_map, nth_error_seq.
        assert (Hi : (i < List.length ms)%nat)
          by (apply nth_error_Some; congruence).
        destruct (Nat.ltb_spec i (List.length ms)); [|lia].
        cbn [option_map Nat.add]. rewrite (nth_error_nth ms i JsMap.empty Em).
        reflexivity.
      * intros p. unfold toObject, JsMap.entries.
        rewrite fold_JsObject_set_get by exact (chained_unique _ ms i level Hc Em).
        cbn [JsObject.get JsObject.empty].
        destruct (JsMap.get p level); reflexivity.
Qed.

(** ** A tree opened with a smaller depth argument *)

(** C7.  The constructor fills the zero table for its depth argument
    before the restore replaces the depth by the persisted one.  A tree
    of depth d that received one update at [index], opened again with a
    depth argument d' < d - 1, has depth d, and [getHashPath(index)]
    returns, at every level i with d' < i < d, a pair that holds the
    cached digest of the node on the path and nothing ([undefined]) in
    the place of its sibling: no digest of the even and of the odd node
    side by side. *)
Theorem C7_reopened_path_lacks_digest (name0 : string) (d d' index : Z)
    (v : Buffer) :
  1 <= d' ->
  d' + 1 < d <= 32 ->
  0 <= index < 2 ^ d ->
  exists t t2 path,
    freshThenUpdates name0 d [(index, v)] = Ok t /\
    MerkleTree_new (db t) name0 d' = Ok t2 /\
    depth t2 = d /\
    getHashPath t2 index = Ok path /\
    Z.of_nat (List.length path) = d /\
    forall i, d' < i < d ->
      nth_error path (Z.to_nat i)
      = Some (if Z.even (index / 2 ^ i)
              then [Some (leftChain v (Z.to_nat i)); None]
              else [None; Some (leftChain v (Z.to_nat i))]).
Proof.
  intros Hd' Hd Hi.
  destruct (freshThenUpdates_inState name0 d [(index, v)]
              ltac:(unfold inRange, MAX_DEPTH; lia)) as [t [E S]].
  destruct (reopen_inState name0 _ _ t d' S ltac:(unfold inRange, MAX_DEPTH; lia))
    as [ms [top [Hh [Hlen [Ht [Hr [Hu E2]]]]]]].
  assert (Hc : chained [(index, v)] ms).
  { destruct S as [W [_ [Hb _]]].
    destruct W as [_ [_ [ms0 [top0 [Hh0 [_ [Hc _]]]]]]].
    rewrite Hb in Hc. change (writes [(index, v)]) with [(index, v)] in Hc.
    rewrite Hh in Hh0. apply (f_equal (map (fun o => match o with
                                                     | Some m => m
                                                     | None => JsMap.empty
                                                     end))) in Hh0.
    rewrite !map_map, !map_id in Hh0. rewrite Hh0. exact Hc. }
  exists t. eexists. eexists. split; [exact E|]. split; [exact E2|].
  cbn [depth]. split; [lia|].
  split; [apply (getHashPath_gen _ (Z.to_nat d) (map readBack ms) index);
          [cbn [depth]; reflexivity|reflexivity|rewrite length_map; lia]|].
  split; [rewrite length_map, range_length; lia|].
  intros i Hrange.
  destruct (nth_error ms (Z.to_nat i)) as [level|] eqn:El.
  2:{ apply nth_error_None in El. lia. }
  rewrite nth_error_map.
  replace (Z.to_nat i) with (Z.to_nat (i - 0)) at 1 by lia.
  rewrite range_nth by lia. cbn [option_map]. f_equal.
  unfold cellPair, cellAt. cbn [hashes zeroHashesByLevel].
  rewrite (JsArray_get_some _ i (map readBack ms) (readBack level))
    by (try lia; rewrite nth_error_map, El; reflexivity).
  rewrite zeroTable_get_past by lia.
  rewrite !JsMap_has_get. unfold readBack.
  rewrite !(roundtrip_get level) by (apply Hu, (nth_error_In _ _ El)).
  rewrite (chained_single index v ms _ level Hc El), Z2Nat.id by lia.
  replace (0 + i) with i by lia.
  cbn [JsMap.get].
  destruct (Z.even (index / 2 ^ i)) eqn:Ev.
  - apply Z.even_spec in Ev. destruct Ev as [q Eq].
    replace (2 * (index / 2 ^ i / 2)) with (index / 2 ^ i)
      by (rewrite Eq; Z.to_euclidean_division_equations; lia).
    rewrite Z.eqb_refl.
    destruct (Z.eqb_spec (index / 2 ^ i + 1) (index / 2 ^ i)); [lia|]. reflexivity.
  - assert (Hodd : Z.odd (index / 2 ^ i) = true)
      by (rewrite <- Z.negb_even, Ev; reflexivity).
    apply Z.odd_spec in Hodd. destruct Hodd as [q Eq].
    replace (2 * (index / 2 ^ i / 2) + 1) with (index / 2 ^ i)
      by (rewrite Eq; Z.to_euclidean_division_equations; lia).
    rewrite Z.eqb_refl.
    destruct (Z.eqb_spec (2 * (index / 2 ^ i / 2)) (index / 2 ^ i)) as [Ee|]; [|reflexivity].
    exfalso. rewrite Eq in Ee. Z.to_euclidean_division_equations. lia.
Qed.

End Coverage.

(** ** Deciding the order of the cached parents *)

Lemma Buffer_eqb_eq (a b : Buffer) : Buffer_eqb a b = true -> a = b.
Proof.
  revert b. induction a as [|x a IH]; intros [|y b] H; cbn [Buffer_eqb] in H;
    try discriminate; [reflexivity|].
  apply andb_true_iff in H. destruct H as [Hx Hr].
  apply Byte.byte_dec_bl in Hx. rewrite Hx, (IH b Hr). reflexivity.
Qed.

(** [parentsOrdered] checked entry by entry, for a hasher that
    computes. *)
Definition parentsOrderedb {hasher : Hasher} (t : MerkleTree) : bool :=
  forallb
    (fun i =>
       match JsArray.get i (hashes t) with
       | Some level =>
           forallb
             (fun e => Buffer_eqb (snd e)
                         (compress (nodeAt t (i - 1) (2 * fst e))
                                   (nodeAt t (i - 1) (2 * fst e + 1))))
             (JsMap.entries level)
       | None => true
       end)
    (range 1 (depth t + 1)).

Lemma JsMap_get_In (V : Type) (k : Z) (v : V) (m : JsMap.t V) :
  JsMap.get k m = Some v -> In (k, v) m.
Proof.
  induction m as [|[k0 v0] m IH]; cbn [JsMap.get]; intros H; [discriminate|].
  destruct (Z.eqb_spec k k0) as [->|Hne].
  - injection H as ->. left. reflexivity.
  - right. apply IH. exact H.
Qed.

Lemma parentsOrderedb_sound {hasher : Hasher} (t : MerkleTree) :
  parentsOrderedb t = true -> parentsOrdered t.
Proof.
  unfold parentsOrderedb. intros H i p level h Hi Hl Hg.
  rewrite forallb_forall in H.
  assert (Hin : In i (range 1 (depth t + 1))).
  { unfold range. apply in_map_iff. exists (Z.to_nat (i - 1)).
    split; [lia|]. apply in_seq. lia. }
  specialize (H i Hin). rewrite Hl in H.
  rewrite forallb_forall in H.
  specialize (H (p, h) (JsMap_get_In _ p h level Hg)). cbn [fst snd] in H.
  apply Buffer_eqb_eq. exact H.
Qed.

(** ** Concrete runs of the properties above, with SHA-256 *)

Lemma X1_witness :
  isSafeInteger (-7) /\
  indexOfParentNode (-7) = -7 / 2 /\
  indexOfParentNode (siblingOf (-7)) = indexOfParentNode (-7) /\
  siblingOf (siblingOf (-7)) = -7 /\
  ((-7 = 2 * indexOfParentNode (-7) /\
    siblingOf (-7) = 2 * indexOfParentNode (-7) + 1) \/
   (-7 = 2 * indexOfParentNode (-7) + 1 /\
    siblingOf (-7) = 2 * indexOfParentNode (-7))).
Proof.
  assert (H : isSafeInteger (-7)) by (unfold isSafeInteger, MAX_SAFE_INTEGER; lia).
  split; [exact H|]. apply (X1_siblings_share_parent (-7) H).
Defined.

Lemma X2_witness :
  1 <= 2 <= 32 /\
  exists t1 t2,
    freshThenUpdates "tree"%string 2 ([(0, ones64)] ++ [(1, ones64); (1, twos64)]) = Ok t1 /\
    freshThenUpdates "tree"%string 2 ([(0, ones64)] ++ [(1, twos64)]) = Ok t2 /\
    dataBlocks t1 = dataBlocks t2 /\
    hashes t1 = hashes t2 /\
    getRoot t1 = getRoot t2 /\
    forall i, getHashPath t1 i = getHashPath t2 i.
Proof.
  split; [lia|].
  apply (X2_last_write_wins "tree"%string 2 [(0, ones64)] 1 ones64 twos64). lia.
Defined.

Lemma X3_witness :
  1 <= 2 <= 32 /\
  exists t level0,
    freshThenUpdates "tree"%string 2 [(1, ones64); (3, twos64); (1, twos64)] = Ok t /\
    JsArray.get 0 (hashes t) = Some level0 /\
    forall k,
      JsMap.get k (dataBlocks t)
      = lastWrite k [(1, ones64); (3, twos64); (1, twos64)] /\
      JsMap.get k level0
      = option_map hash (lastWrite k [(1, ones64); (3, twos64); (1, twos64)]) /\
      JsMap.has k level0 = JsMap.has k (dataBlocks t).
Proof.
  split; [lia|].
  apply (X3_leaf_level "tree"%string 2 [(1, ones64); (3, twos64); (1, twos64)]). lia.
Defined.

Lemma X4_witness :
  1 <= 2 <= 32 /\
  Forall (fun u : Z * Buffer => isSafeInteger (fst u)) [(3, ones64); (2, twos64)] /\
  exists t,
    freshThenUpdates "tree"%string 2 [(3, ones64); (2, twos64)] = Ok t /\
    forall i p level h,
      1 <= i <= 2 ->
      JsArray.get i (hashes t) = Some level ->
      JsMap.get p level = Some h ->
      exists below pre k a post,
        JsArray.get (i - 1) (hashes t) = Some below /\
        JsMap.entries below = pre ++ (k, a) :: post /\
        (k = 2 * p \/ k = 2 * p + 1) /\
        (forall e, In e pre -> fst e <> 2 * p /\ fst e <> 2 * p + 1) /\
        JsMap.get k below = Some a /\
        h = compress a (nodeAt t (i - 1) (siblingOf k)).
Proof.
  assert (F : Forall (fun u : Z * Buffer => isSafeInteger (fst u))
                [(3, ones64); (2, twos64)])
    by (repeat (apply Forall_cons;
              [unfold isSafeInteger, MAX_SAFE_INTEGER; cbn [fst]; lia|]);
      apply Forall_nil).
  split; [lia|]. split; [exact F|].
  apply (X4_parent_from_cached_child "tree"%string 2 [(3, ones64); (2, twos64)]);
    [lia|exact F].
Defined.

Lemma X5_witness :
  1 <= 3 <= 32 /\
  Forall (fun u : Z * Buffer => isSafeInteger (fst u)) [(5, ones64); (2, twos64)] /\
  exists t,
    freshThenUpdates "tree"%string 3 [(5, ones64); (2, twos64)] = Ok t /\
    forall i, 0 <= i <= 3 ->
      exists level,
        JsArray.get i (hashes t) = Some level /\
        forall p, JsMap.has p level = true <->
                  exists index,
                    In index (map fst [(5, ones64); (2, twos64)]) /\ index / 2 ^ i = p.
Proof.
  assert (F : Forall (fun u : Z * Buffer => isSafeInteger (fst u))
                [(5, ones64); (2, twos64)])
    by (repeat (apply Forall_cons;
              [unfold isSafeInteger, MAX_SAFE_INTEGER; cbn [fst]; lia|]);
      apply Forall_nil).
  split; [lia|]. split; [exact F|].
  apply (X5_cache_is_ancestors "tree"%string 3 [(5, ones64); (2, twos64)]);
    [lia|exact F].
Defined.

Lemma X6_witness :
  1 <= 2 <= 32 /\
  (exists t top r,
     freshThenUpdates "tree"%string 2 [(7, ones64); (3, twos64)] = Ok t /\
     JsArray.get 2 (hashes t) = Some top /\
     getRoot t = Some r /\ JsMap.get 0 top = Some r) /\
  (exists t,
     freshThenUpdates "tree"%string 2 [(7, ones64)] = Ok t /\ getRoot t = None).
Proof.
  split; [lia|]. split.
  - destruct (X6_root_defined "tree"%string 2 [(7, ones64); (3, twos64)] ltac:(lia))
      as [t [top [E [Ht [Hin _]]]]].
    destruct Hin as [r [Hr Hg]].
    { apply Exists_cons_tl, Exists_cons_hd. cbn [fst]. lia. }
    exists t, top, r. repeat split; assumption.
  - destruct (X6_root_defined "tree"%string 2 [(7, ones64)] ltac:(lia))
      as [t [top [E [_ [_ Hout]]]]].
    exists t. split; [exact E|]. apply Hout; [discriminate|].
    constructor; [cbn [fst]; lia|constructor].
Defined.

Lemma X7_witness :
  1 <= 3 <= 32 /\ 0 <= 5 < 2 ^ 3 /\
  exists t,
    freshThenUpdates "tree"%string 3 [(5, ones64)] = Ok t /\
    getRoot t = Some (leftChain ones64 (Z.to_nat 3)) /\
    forall i, 0 <= i <= 3 ->
      JsArray.get i (hashes t) = Some [(5 / 2 ^ i, leftChain ones64 (Z.to_nat i))].
Proof.
  split; [lia|]. split; [lia|].
  apply (X7_single_update_root "tree"%string 3 5 ones64); lia.
Defined.

Lemma X8_witness :
  1 <= 2 <= 32 /\ 2 <= 5 <= 32 /\ [(1, ones64)] <> [] /\
  Forall (fun u : Z * Buffer => isSafeInteger (fst u)) [(1, ones64)] /\
  exists t t2,
    freshThenUpdates "tree"%string 2 [(1, ones64)] = Ok t /\
    MerkleTree_new (db t) "tree"%string 5 = Ok t2 /\
    depth t2 = 2 /\
    getRoot t2 = getRoot t /\
    (forall index, getHashPath t2 index = getHashPath t index) /\
    dataBlocks t2 = JsMap.empty.
Proof.
  assert (F : Forall (fun u : Z * Buffer => isSafeInteger (fst u)) [(1, ones64)])
    by (repeat (apply Forall_cons;
              [unfold isSafeInteger, MAX_SAFE_INTEGER; cbn [fst]; lia|]);
      apply Forall_nil).
  split; [lia|]. split; [lia|]. split; [discriminate|]. split; [exact F|].
  apply (X8_reopen_keeps_root_and_paths "tree"%string 2 5 [(1, ones64)]);
    [lia|lia|discriminate|exact F].
Defined.

Lemma X9_witness :
  1 <= 2 <= 32 /\
  exists t t2 t3 r t',
    freshThenUpdates "tree"%string 2 [(0, ones64); (1, twos64)] = Ok t /\
    MerkleTree_new (db t) "tree"%string 2 = Ok t2 /\
    updateElement t2 3 ones64 = Ok (t3, r) /\
    freshThenUpdates "tree"%string 2 [(3, ones64)] = Ok t' /\
    r = getRoot t' /\
    getRoot t3 = getRoot t' /\
    hashes t3 = hashes t' /\
    dataBlocks t3 = [(3, ones64)].
Proof.
  split; [lia|].
  apply (X9_update_after_reopen_forgets "tree"%string 2
           [(0, ones64); (1, twos64)] 3 ones64). lia.
Defined.

Lemma X10_witness :
  1 <= 2 <= 32 /\
  constructor [("tree"%string, [])] "tree"%string 2 (Some []) = Err TypeError /\
  MerkleTree_new [("tree"%string, [])] "tree"%string 2 = Err TypeError /\
  exists t,
    constructor [("tree"%string, [])] "tree"%string 2 (Some [(0%nat, [])]) = Ok t.
Proof.
  split; [lia|].
  destruct (X10_empty_document_throws [("tree"%string, [])] "tree"%string 2
              [(0%nat, [])] ltac:(lia)) as [A [B C]].
  split; [exact A|]. split; [apply B; reflexivity|apply C; discriminate].
Defined.

Lemma X11_witness :
  1 <= 2 <= 32 /\ 0 <= 3 < 2 ^ 2 /\
  Forall (fun u : Z * Buffer => 0 <= fst u < 2 ^ 2)
    [(0, ones64); (1, twos64); (2, ones64)] /\
  exists t path,
    freshThenUpdates "tree"%string 2 [(0, ones64); (1, twos64); (2, ones64)] = Ok t /\
    getHashPath t 3 = Ok path /\
    parentsOrdered t /\
    foldPath 3 (leafOf t 3) path = getRoot t.
Proof.
  assert (F : Forall (fun u : Z * Buffer => 0 <= fst u < 2 ^ 2)
                [(0, ones64); (1, twos64); (2, ones64)])
    by (repeat (apply Forall_cons; [cbn [fst]; lia|]); apply Forall_nil).
  split; [lia|]. split; [lia|]. split; [exact F|].
  destruct (X11_ordered_cache_sound_paths "tree"%string 2
              [(0, ones64); (1, twos64); (2, ones64)] 3 ltac:(lia) ltac:(lia) F)
    as [t [path [E [G H]]]].
  assert (P : parentsOrdered t).
  { apply parentsOrderedb_sound.
    pose proof E as E0. vm_compute in E0. injection E0 as <-.
    vm_compute. reflexivity. }
  exists t, path. split; [exact E|]. split; [exact G|]. split; [exact P|].
  exact (H P).
Defined.

Lemma X12_witness :
  1 <= 3 <= 32 /\ 0 <= 6 < 2 ^ 3 /\
  Forall (fun u : Z * Buffer => fst u = 0) [(0, ones64); (0, twos64)] /\
  exists t path,
    freshThenUpdates "tree"%string 3 [(0, ones64); (0, twos64)] = Ok t /\
    getHashPath t 6 = Ok path /\
    foldPath 6 (leafOf t 6) path = getRoot t.
Proof.
  assert (F : Forall (fun u : Z * Buffer => fst u = 0) [(0, ones64); (0, twos64)])
    by (repeat constructor).
  split; [lia|]. split; [lia|]. split; [exact F|].
  apply (X12_paths_sound_on_left_edge "tree"%string 3 [(0, ones64); (0, twos64)] 6);
    [lia|lia|exact F].
Defined.

Lemma X13_witness :
  1 <= 1 /\ 1 < 3 <= 32 /\
  Forall (fun u : Z * Buffer => isSafeInteger (fst u)) [(5, ones64)] /\
  isSafeInteger 5 /\
  exists t t2 path,
    freshThenUpdates "tree"%string 3 [(5, ones64)] = Ok t /\
    MerkleTree_new (db t) "tree"%string 1 = Ok t2 /\
    depth t2 = 3 /\
    getHashPath t2 5 = Ok path /\
    Z.of_nat (List.length path) = 3 /\
    forall i, 1 < i < 3 ->
      exists level,
        JsArray.get i (hashes t) = Some level /\
        nth_error path (Z.to_nat i)
        = Some [JsMap.get (2 * (5 / 2 ^ i / 2)) level;
                JsMap.get (2 * (5 / 2 ^ i / 2) + 1) level].
Proof.
  assert (F : Forall (fun u : Z * Buffer => isSafeInteger (fst u)) [(5, ones64)])
    by (repeat (apply Forall_cons;
              [unfold isSafeInteger, MAX_SAFE_INTEGER; cbn [fst]; lia|]);
      apply Forall_nil).
  assert (H5 : isSafeInteger 5) by (unfold isSafeInteger, MAX_SAFE_INTEGER; lia).
  split; [lia|]. split; [lia|]. split; [exact F|]. split; [exact H5|].
  apply (X13_reopen_with_smaller_depth "tree"%string 3 1 [(5, ones64)] 5);
    [lia|lia|exact F|exact H5].
Defined.

Lemma X14_witness :
  1 <= 2 <= 32 /\
  db_get "tree"%string [("other"%string, [(0%nat, [])])] = None /\
  exists t blob,
    openThenUpdates [("other"%string, [(0%nat, [])])] "tree"%string 2 [(1, ones64)]
    = Ok t /\
    db_get "tree"%string (db t) = Some blob /\
    map fst blob = seq 0 (Z.to_nat 2 + 1) /\
    (forall i level, JsArray.get (Z.of_nat i) (hashes t) = Some level ->
       exists obj, nth_error blob i = Some (i, obj) /\
                   forall p, JsObject.get p obj = JsMap.get p level) /\
    (forall other, other <> "tree"%string ->
       db_get other (db t) = db_get other [("other"%string, [(0%nat, [])])]).
Proof.
  split; [lia|]. split; [reflexivity|].
  apply (X14_store_holds_the_cache [("other"%string, [(0%nat, [])])] "tree"%string 2
           [(1, ones64)]); [lia|reflexivity].
Defined.

Lemma C7_witness :
  1 <= 1 /\ 1 + 1 < 3 <= 32 /\ 0 <= 0 < 2 ^ 3 /\
  exists t t2 path,
    freshThenUpdates "tree"%string 3 [(0, ones64)] = Ok t /\
    MerkleTree_new (db t) "tree"%string 1 = Ok t2 /\
    depth t2 = 3 /\
    getHashPath t2 0 = Ok path /\
    Z.of_nat (List.length path) = 3 /\
    forall i, 1 < i < 3 ->
      nth_error path (Z.to_nat i)
      = Some (if Z.even (0 / 2 ^ i)
              then [Some (leftChain ones64 (Z.to_nat i)); None]
              else [None; Some (leftChain ones64 (Z.to_nat i))]).
Proof.
  split; [lia|]. split; [lia|]. split; [lia|].
  apply (C7_reopened_path_lacks_digest "tree"%string 3 1 0 ones64); lia.
Defined.
